(** * logforge-pipeline: the access-log ETL, embedded and verified

    The development follows the four source files:
    - [parser.py]      the line grammar and [parse_log];
    - [database.py]    the SQLite store: connection, schema, bulk inserts,
                       the freshness and emptiness checks;
    - [summarizer.py]  the three grouped-count queries of [summarize_log];
    - [etl_apache.py]  [extract], [transform], [load] and the gate
                       [run_etl_if_needed].

    Python [str] values are sequences of Unicode code points and are modelled
    as lists of [N]; dictionaries are [gmap]s; effects (file system, SQLite,
    logging, exceptions) are threaded through a small state-and-error monad. *)

From Stdlib Require Import ZArith NArith Ascii String List Lia.
From stdpp Require Import base option list gmap strings fin_maps sorting.

Local Open Scope N_scope.

(* ===================================================================== *)
(** ** Python strings *)
(* ===================================================================== *)

(** A Python [str]: a sequence of code points. *)
Abbreviation str := (list N).

(** The code points of an ASCII literal of the source. *)
Definition lit (s : string) : str :=
  List.map N_of_ascii (list_ascii_of_string s).

(** The double quote, code point 34. *)
Definition dquote : N := 34.

(** [str.splitlines()]: the line boundaries of CPython's
    [Py_UNICODE_ISLINEBREAK]: LF, VT, FF, CR, FS, GS, RS, NEL, LS, PS. *)
Definition is_linebreak (c : N) : bool :=
  (c =? 10) || (c =? 11) || (c =? 12) || (c =? 13) || (c =? 28) ||
  (c =? 29) || (c =? 30) || (c =? 133) || (c =? 8232) || (c =? 8233).

(** The scanning loop of [splitlines] (keepends false): [cur] is the current
    line, reversed. A break closes the line, CR LF counts as one break, and a
    last line is emitted only when it is not empty, so a trailing break adds
    no empty line. *)
Fixpoint splitlines_from (cur : str) (s : str) : list str :=
  match s with
  | [] => match cur with [] => [] | _ :: _ => [rev cur] end
  | c :: s' =>
      if is_linebreak c then
        rev cur ::
          (if c =? 13
           then match s' with
                | d :: s'' => if d =? 10 then splitlines_from [] s''
                              else splitlines_from [] s'
                | [] => splitlines_from [] s'
                end
           else splitlines_from [] s')
      else splitlines_from (c :: cur) s'
  end.

Definition splitlines (s : str) : list str := splitlines_from [] s.

(* ===================================================================== *)
(** ** Regular expressions: the fragment [log_pattern] is written in *)
(* ===================================================================== *)

Module Re.

(** Abstract syntax. Repetition of a character class is greedy; [Times] is a
    counted repetition of a non-capturing group. *)
Inductive regex : Type :=
| Bol                                              (* ^ under re.MULTILINE *)
| Eol                                              (* $ under re.MULTILINE *)
| Lit (s : str)                                    (* literal characters   *)
| Many (p : N → bool) (lo : nat) (hi : option nat) (* class{lo,hi}, greedy  *)
| Times (n : nat) (r : regex)                      (* (?:r){n}             *)
| Cat (r1 r2 : regex)                              (* r1 r2                *)
| Group (name : string) (r : regex).               (* (?P<name>r)          *)

(** The position of the matcher in the subject: the characters already
    consumed (most recent first) and the characters ahead. *)
Record cursor : Type := Cursor { before : str; ahead : str }.

(** [^] with MULTILINE: at the start of the subject or just after a LF. *)
Definition at_bol (cur : cursor) : bool :=
  match before cur with
  | [] => true
  | c :: _ => c =? 10
  end.

(** [$] with MULTILINE: at the end of the subject or just before a LF. *)
Definition at_eol (cur : cursor) : bool :=
  match ahead cur with
  | [] => true
  | c :: _ => c =? 10
  end.

(** Named groups set so far. *)
Abbreviation captures := (gmap string str).

(** The text consumed between two cursors of one subject. *)
Definition consumed (c0 c1 : cursor) : str :=
  rev (take (length (before c1) - length (before c0)) (before c1)).

Definition room (hi : option nat) : bool :=
  match hi with Some O => false | _ => true end.

(** If [a] is a prefix of [s], what follows it. *)
Fixpoint strip_prefix (a s : str) : option str :=
  match a, s with
  | [], _ => Some s
  | x :: a', y :: s' => if x =? y then strip_prefix a' s' else None
  | _ :: _, [] => None
  end.

Section Matcher.
Context {A : Type}.

(** Greedy class repetition: take one more character while the class and
    the upper bound allow it; when the rest of the pattern fails after the
    longer run, give the character back and retry here, provided the lower
    bound is met. *)
Fixpoint many (p : N → bool) (lo : nat) (hi : option nat)
    (k : cursor → option A) (bef ahd : str) : option A :=
  let stop := match lo with O => k (Cursor bef ahd) | S _ => None end in
  match ahd with
  | c :: ahd' =>
      if p c && room hi then
        match many p (pred lo) (pred <$> hi) k (c :: bef) ahd' with
        | Some r => Some r
        | None => stop
        end
      else stop
  | [] => stop
  end.

(** The backtracking matcher, in continuation-passing style: [k] is the
    rest of the pattern; the first success in the order of the alternatives
    is the result, as in Python's [re]. *)
Fixpoint run (r : regex) (k : captures → cursor → option A)
    (g : captures) (cur : cursor) : option A :=
  match r with
  | Bol => if at_bol cur then k g cur else None
  | Eol => if at_eol cur then k g cur else None
  | Lit s =>
      match strip_prefix s (ahead cur) with
      | Some rest => k g (Cursor (rev s ++ before cur) rest)
      | None => None
      end
  | Many p lo hi => many p lo hi (k g) (before cur) (ahead cur)
  | Times n r' => Nat.iter n (fun k' => run r' k') k g cur
  | Cat r1 r2 => run r1 (run r2 k) g cur
  | Group name r' =>
      run r' (fun g' cur' => k (<[name := consumed cur cur']> g') cur') g cur
  end.
End Matcher.

(** [pattern.match(s)]: the match is anchored at position 0 only; the
    result holds the named groups. *)
Definition match_ (r : regex) (s : str) : option captures :=
  run r (fun g _ => Some g) ∅ (Cursor [] s).

End Re.

(** Python values that occur in an entry: [None] or a [str]. *)
Inductive value : Type :=
| PyNone
| PyStr (s : str).

#[global] Instance value_eq_dec : EqDecision value.
Proof. solve_decision. Defined.

(** [match.group(name)]: the text of the group, [None] when the group took no
    part in the match. *)
Definition group (m : Re.captures) (name : string) : value :=
  match m !! name with
  | Some s => PyStr s
  | None => PyNone
  end.

(* ===================================================================== *)
(** ** parser.py *)
(* ===================================================================== *)

Section Parser.

(** [\d] on a [str] pattern matches every character of Unicode category
    Nd; the table belongs to the interpreter, so it is a parameter. *)
Variable unicode_decimal : N → bool.

Definition upper (c : N) : bool := (65 <=? c) && (c <=? 90).
Definition non (x : N) (c : N) : bool := negb (c =? x).

Definition digits_1_3 : Re.regex := Re.Many unicode_decimal 1 (Some 3%nat).

Definition seq_re (rs : list Re.regex) : Re.regex :=
  foldr Re.Cat (Re.Lit []) rs.

(** The compiled pattern of parser.py, lines 19-22. *)
Definition log_pattern : Re.regex :=
  seq_re
    [ Re.Bol;
      Re.Group "ipaddress"
        (Re.Cat digits_1_3 (Re.Times 3 (Re.Cat (Re.Lit (lit ".")) digits_1_3)));
      Re.Lit (lit " - - [");
      Re.Group "timestamp" (Re.Many (non 93) 1 None);
      Re.Lit (lit "] " ++ [dquote]);
      Re.Group "method" (Re.Many upper 1 None);
      Re.Lit (lit " ");
      Re.Group "path" (Re.Many (non dquote) 1 None);
      Re.Lit (lit " ");
      Re.Group "protocol" (Re.Many (non dquote) 1 None);
      Re.Lit ([dquote] ++ lit " ");
      Re.Group "status_code" (Re.Many unicode_decimal 3 (Some 3%nat));
      Re.Lit (lit " ");
      Re.Group "bytes_sent" (Re.Many unicode_decimal 1 None);
      Re.Lit (lit " " ++ [dquote]);
      Re.Group "referrer" (Re.Many (non dquote) 1 None);
      Re.Lit ([dquote] ++ lit " " ++ [dquote]);
      Re.Group "user_agent" (Re.Many (non dquote) 1 None);
      Re.Lit [dquote];
      Re.Eol ].

(** The keys of an entry, in the order of the dictionary display. *)
Definition entry_keys : list string :=
  [ "ipaddress"; "timestamp"; "method"; "path"; "protocol";
    "status_code"; "bytes_sent"; "referrer"; "user_agent" ]%string.

(** The dictionary built at lines 27-37. *)
Definition entry_of_match (m : Re.captures) : gmap string value :=
  list_to_map (List.map (fun k => (k, group m k)) entry_keys).

(** One iteration of the loop of lines 24-40. *)
Definition parse_step (acc : list (gmap string value) * list str) (line : str)
    : list (gmap string value) * list str :=
  let '(log_entries, error_entries) := acc in
  match Re.match_ log_pattern line with
  | Some m => (log_entries ++ [entry_of_match m], error_entries)
  | None => (log_entries, error_entries ++ [line])
  end.

Definition parse_log (log_content : str)
    : list (gmap string value) * list str :=
  foldl parse_step ([], []) (splitlines log_content).

End Parser.

Local Close Scope N_scope.

(* ===================================================================== *)
(** ** The environment: file system, SQLite files, a clock *)
(* ===================================================================== *)

Abbreviation path := string.

(** Values as SQLite stores them. A REAL is kept as its binary64 bit
    pattern: in a column of INTEGER affinity a real that equals an int64 is
    stored as that integer, so stored values compare equal exactly when
    they are structurally equal. *)
Inductive sqlval : Type :=
| SqlNull
| SqlInteger (n : Z)
| SqlReal (bits : Z)
| SqlText (s : str).

#[global] Instance sqlval_eq_dec : EqDecision sqlval.
Proof. solve_decision. Defined.

(** A row of [logs]; the surrogate [id] of a row is its position in the
    table plus one (rows are never deleted, so AUTOINCREMENT counts them). *)
Record log_row : Type := LogRow {
  r_ipaddress : sqlval;
  r_timestamp : sqlval;
  r_method : sqlval;
  r_path : sqlval;
  r_protocol : sqlval;
  r_status_code : sqlval;
  r_bytes_sent : sqlval;
  r_referrer : sqlval;
  r_user_agent : sqlval }.

(** A row of [errors]; [created_at] is the store's CURRENT_TIMESTAMP. *)
Record error_row : Type := ErrorRow {
  e_raw_line : sqlval;
  e_error_message : sqlval;
  e_created_at : Z }.

(** A database file: each of the two tables, when it has been created. *)
Record database : Type := Database {
  logs : option (list log_row);
  errors : option (list error_row) }.

Definition empty_database : database := Database None None.

(** What SQLite finds at a path. A path outside the map cannot be opened
    ([sqlite3.connect] raises OperationalError). *)
Inductive artifact : Type :=
| Vacant                  (* no file yet, and one can be created *)
| NotADatabase            (* a file that is not an SQLite database *)
| Db (d : database).

(** The state of the machine. Modification times are finite binary64
    numbers, compared only with [>=]; they are kept as the integer multiple
    of 2^-1074 seconds they denote, which preserves the order. *)
Record world : Type := World {
  mtimes : gmap path Z;        (* os.stat succeeds on these paths: st_mtime *)
  texts : gmap path str;       (* open(p, 'r').read() succeeds: the content *)
  sqlite : gmap path artifact;
  clock : Z }.

(** Every [print] and every emitted logging call of the four files. The
    root logger is configured at level INFO, so [logger.debug] emits
    nothing. *)
Inductive event : Type :=
| Print_connected (db_file : path)
| Print_connect_error
| Print_table_created
| Print_create_error
| Print_inserted_logs (n : nat)
| Print_inserted_errors (n : nat)
| Info_extracted (n : nat) (log_file : path)
| Error_extracting
| Info_transformed (n : nat)
| Info_found_errors (n : nat)
| Error_transforming
| Info_loaded (n : nat)
| Error_failed_to_connect
| Info_first_run_skipping
| Info_skipping
| Info_running_etl
| Info_etl_completed
| Error_summarize_connect
| Info_summary_generated.

#[global] Instance event_eq_dec : EqDecision event.
Proof. solve_decision. Defined.

(** Exceptions. [OSError] also stands for the decoding errors of [read]. *)
Inductive exn : Type :=
| OSError
| OperationalError
| DatabaseError
| AttributeError
| KeyError (k : string).

(** [except sqlite3.Error] *)
Definition is_sqlite_error (e : exn) : bool :=
  match e with
  | OperationalError | DatabaseError => true
  | _ => false
  end.

(** [except Exception] *)
Definition is_exception (e : exn) : bool := true.

(* ===================================================================== *)
(** ** The monad of the program: state, output and exceptions *)
(* ===================================================================== *)

Inductive outcome (A : Type) : Type :=
| Ret (a : A)
| Raise (e : exn).
Arguments Ret {A} a.
Arguments Raise {A} e.

Record result (A : Type) : Type := Result {
  res : outcome A;
  final : world;
  trace : list event }.
Arguments Result {A} res final trace.
Arguments res {A} r.
Arguments final {A} r.
Arguments trace {A} r.

Definition M (A : Type) : Type := world → result A.

#[global] Instance M_ret : MRet M := fun A a w => Result (Ret a) w [].

#[global] Instance M_bind : MBind M := fun A B f m w =>
  let r := m w in
  match res r with
  | Ret a => let r' := f a (final r) in
             Result (res r') (final r') (trace r ++ trace r')
  | Raise e => Result (Raise e) (final r) (trace r)
  end.

Definition raise {A : Type} (e : exn) : M A := fun w => Result (Raise e) w [].

(** [try: body except <class>: handler] *)
Definition try_except {A : Type} (body : M A) (catches : exn → bool)
    (handler : exn → M A) : M A := fun w =>
  let r := body w in
  match res r with
  | Ret a => r
  | Raise e =>
      if catches e then
        let r' := handler e (final r) in
        Result (res r') (final r') (trace r ++ trace r')
      else r
  end.

Definition emit (e : event) : M unit := fun w => Result (Ret tt) w [e].
Definition get_world : M world := fun w => Result (Ret w) w [].
Definition put_world (w' : world) : M unit := fun _ => Result (Ret tt) w' [].

(** ** os and open *)

(** [os.path.exists]: whether [os.stat] succeeds. *)
Definition os_path_exists (p : path) : M bool :=
  w ← get_world; mret (bool_decide (is_Some (mtimes w !! p))).

Definition os_path_getmtime (p : path) : M Z :=
  w ← get_world;
  match mtimes w !! p with
  | Some t => mret t
  | None => raise OSError
  end.

(** [with open(p, 'r') as file: file.read()] *)
Definition read_text (p : path) : M str :=
  w ← get_world;
  match texts w !! p with
  | Some s => mret s
  | None => raise OSError
  end.

(** ** sqlite3 *)

(** A connection: the file it is bound to and, when a transaction is open,
    the database as the transaction sees it. *)
Record connection : Type := Conn {
  conn_path : path;
  conn_tx : option database }.

(** The world after the database file at [p] was written: new content,
    new modification time. The world holds what the four files observe of
    a path: its modification time, its text, its database. The rollback
    journal SQLite keeps beside the file while it writes and the times of
    directories are not part of it; what [open] reads at a path is kept
    apart from the database there. *)
Definition written (p : path) (d : database) (w : world) : world :=
  World (<[p := clock w]> (mtimes w)) (texts w)
        (<[p := Db d]> (sqlite w)) (clock w).

Definition write_db (p : path) (d : database) : M unit :=
  w ← get_world; put_world (written p d w).

(** [sqlite3.connect]: creates an empty database where there is no file. *)
Definition sqlite3_connect (p : path) : M connection :=
  w ← get_world;
  match sqlite w !! p with
  | Some Vacant => _ ← write_db p empty_database; mret (Conn p None)
  | Some NotADatabase | Some (Db _) => mret (Conn p None)
  | None => raise OperationalError
  end.

(** The database a statement of the connection reads. *)
Definition current (c : connection) : M database :=
  match conn_tx c with
  | Some d => mret d
  | None =>
      w ← get_world;
      match sqlite w !! conn_path c with
      | Some (Db d) => mret d
      | Some NotADatabase => raise DatabaseError
      | Some Vacant | None => raise OperationalError
      end
  end.

(** A statement that changes the database; DML opens a transaction, DDL
    runs in the open transaction or else writes through. *)
Definition store (c : connection) (dml : bool) (d : database) : M connection :=
  match conn_tx c with
  | Some _ => mret (Conn (conn_path c) (Some d))
  | None =>
      if dml then mret (Conn (conn_path c) (Some d))
      else _ ← write_db (conn_path c) d; mret c
  end.

Definition commit (c : connection) : M connection :=
  match conn_tx c with
  | Some d => _ ← write_db (conn_path c) d; mret (Conn (conn_path c) None)
  | None => mret c
  end.

(** [conn.close()]: an open transaction is rolled back. *)
Definition close (c : connection) : M unit := mret tt.

(** CREATE TABLE IF NOT EXISTS logs / errors *)
Definition create_logs_if_not_exists (c : connection) : M connection :=
  d ← current c;
  match logs d with
  | Some _ => mret c
  | None => store c false (Database (Some []) (errors d))
  end.

Definition create_errors_if_not_exists (c : connection) : M connection :=
  d ← current c;
  match errors d with
  | Some _ => mret c
  | None => store c false (Database (logs d) (Some []))
  end.

(** INSERT INTO logs ... / INSERT INTO errors ..., through executemany.
    With no rows executemany runs no statement. *)
Definition insert_into_logs (c : connection) (rows : list log_row) : M connection :=
  match rows with
  | [] => mret c
  | _ :: _ =>
      d ← current c;
      match logs d with
      | Some old => store c true (Database (Some (old ++ rows)) (errors d))
      | None => raise OperationalError
      end
  end.

Definition insert_into_errors (c : connection) (rows : list (sqlval * sqlval))
    : M connection :=
  match rows with
  | [] => mret c
  | _ :: _ =>
      d ← current c;
      w ← get_world;
      match errors d with
      | Some old =>
          store c true
            (Database (logs d)
               (Some (old ++ List.map (fun r => ErrorRow r.1 r.2 (clock w)) rows)))
      | None => raise OperationalError
      end
  end.

(** SELECT COUNT( * ) FROM logs *)
Definition select_count_logs (c : connection) : M nat :=
  d ← current c;
  match logs d with
  | Some rows => mret (length rows)
  | None => raise OperationalError
  end.

(** Grouped counts: each key once, with the number of its rows, here in
    order of first occurrence. *)
Fixpoint bump (k : sqlval) (acc : list (sqlval * nat)) : list (sqlval * nat) :=
  match acc with
  | [] => [(k, 1)]
  | (k', n) :: acc' =>
      if decide (k = k') then (k', S n) :: acc' else (k', n) :: bump k acc'
  end.

Definition group_count (key : log_row → sqlval) (rows : list log_row)
    : list (sqlval * nat) :=
  foldl (fun acc r => bump (key r) acc) [] rows.

Section Queries.

(** SQL leaves to the engine the order in which a query returns its groups,
    and under ORDER BY count the order among groups of equal count. What
    SQLite does there is SQLite's, so the two orders are parameters:
    [group_order] arranges the groups of a plain GROUP BY, [count_order]
    those of GROUP BY with ORDER BY count DESC. *)
Variable group_order : list (sqlval * nat) → list (sqlval * nat).
Variable count_order : list (sqlval * nat) → list (sqlval * nat).

(** SELECT key, COUNT( * ) FROM logs GROUP BY key
    [ORDER BY count DESC LIMIT 10] *)
Definition select_group_count (c : connection) (key : log_row → sqlval)
    (top10 : bool) : M (list (sqlval * nat)) :=
  d ← current c;
  match logs d with
  | Some rows =>
      let groups := group_count key rows in
      mret (if top10 then take 10 (count_order groups)
            else group_order groups)
  | None => raise OperationalError
  end.

End Queries.

(* ===================================================================== *)
(** ** database.py *)
(* ===================================================================== *)

(** Lines 4-21. A failure of [sqlite3.connect] is caught, reported on
    standard output and answered with [None]. *)
Definition create_connection (db_file : path) : M (option connection) :=
  try_except
    (conn ← sqlite3_connect db_file;
     _ ← emit (Print_connected db_file);
     mret (Some conn))
    is_sqlite_error
    (fun _ => _ ← emit Print_connect_error; mret None).

(** Lines 23-59. *)
Definition create_table (conn : connection) : M connection :=
  try_except
    (c1 ← create_logs_if_not_exists conn;
     c2 ← create_errors_if_not_exists c1;
     c3 ← commit c2;
     _ ← emit Print_table_created;
     mret c3)
    is_sqlite_error
    (fun _ => _ ← emit Print_create_error; mret conn).

(** [entry[key]] *)
Definition getitem (entry : gmap string value) (key : string) : M value :=
  match entry !! key with
  | Some v => mret v
  | None => raise (KeyError key)
  end.

(** Binding a Python value to a column of TEXT affinity. *)
Definition bind_text (v : value) : sqlval :=
  match v with
  | PyNone => SqlNull
  | PyStr s => SqlText s
  end.

(** Sequencing of a list of computations, left to right. *)
Fixpoint for_each {A B : Type} (f : A → M B) (l : list A) : M (list B) :=
  match l with
  | [] => mret []
  | x :: l' => y ← f x; ys ← for_each f l'; mret (y :: ys)
  end.

Section Store.

(** The conversion SQLite applies to a text stored in a column of INTEGER
    affinity (the text of an integer becomes that integer); it belongs to
    SQLite, so it is a parameter. *)
Variable integer_affinity : str → sqlval.

Definition bind_integer (v : value) : sqlval :=
  match v with
  | PyNone => SqlNull
  | PyStr s => integer_affinity s
  end.

(** The tuple of lines 78-88. *)
Definition row_of_entry (entry : gmap string value) : M log_row :=
  ipaddress ← getitem entry "ipaddress";
  timestamp ← getitem entry "timestamp";
  method ← getitem entry "method";
  path_ ← getitem entry "path";
  protocol ← getitem entry "protocol";
  status_code ← getitem entry "status_code";
  bytes_sent ← getitem entry "bytes_sent";
  referrer ← getitem entry "referrer";
  user_agent ← getitem entry "user_agent";
  mret (LogRow (bind_text ipaddress) (bind_text timestamp) (bind_text method)
               (bind_text path_) (bind_text protocol)
               (bind_integer status_code) (bind_integer bytes_sent)
               (bind_text referrer) (bind_text user_agent)).

(** Lines 62-91. *)
Definition insert_log_entries (conn : connection) (entries : list (gmap string value))
    : M connection :=
  match entries with
  | [] => mret conn
  | _ :: _ =>
      rows ← for_each row_of_entry entries;
      c ← insert_into_logs conn rows;
      _ ← emit (Print_inserted_logs (length entries));
      mret c
  end.

End Store.

(** Lines 93-111. The error entries of [parse_log] are raw lines, so
    [isinstance(error, dict)] is false and the row is [(str(error), '')]. *)
Definition insert_error_entries (conn : connection) (error_entries : list str)
    : M connection :=
  match error_entries with
  | [] => mret conn
  | _ :: _ =>
      c ← insert_into_errors conn
            (List.map (fun error => (SqlText error, SqlText [])) error_entries);
      _ ← emit (Print_inserted_errors (length error_entries));
      mret c
  end.

(** Lines 113-119. *)
Definition is_db_up_to_date (db_path log_file_path : path) : M bool :=
  try_except
    (db_mtime ← os_path_getmtime db_path;
     log_mtime ← os_path_getmtime log_file_path;
     mret (bool_decide (log_mtime ≤ db_mtime)%Z))
    is_exception
    (fun _ => mret false).

(** Lines 123-125: the row count of [logs]. The argument is what
    [create_connection] returned; [None.cursor()] raises AttributeError. *)
Definition count_logs (conn : option connection) : M nat :=
  match conn with
  | None => raise AttributeError
  | Some c => select_count_logs c
  end.

(** Lines 121-128. *)
Definition is_db_empty (conn : option connection) : M bool :=
  try_except
    (count ← count_logs conn; mret (bool_decide (count = 0)))
    is_exception
    (fun _ => mret true).

(* ===================================================================== *)
(** ** summarizer.py *)
(* ===================================================================== *)

(** The dictionary of lines 55-59: each pair is one [{key: .., 'count': ..}]. *)
Record summary : Type := Summary {
  top_endpoints : list (sqlval * nat);
  status_code_distribution : list (sqlval * nat);
  top_client_ips : list (sqlval * nat) }.

Section Summarizer.

(** The orders of the engine, see [select_group_count]. *)
Variable group_order : list (sqlval * nat) → list (sqlval * nat).
Variable count_order : list (sqlval * nat) → list (sqlval * nat).

(** Lines 9-63. [None] is the bare [return] of line 23. *)
Definition summarize_log (db_file : path) : M (option summary) :=
  conn ← create_connection db_file;
  match conn with
  | None => _ ← emit Error_summarize_connect; mret None
  | Some c =>
      top_endpoints ←
        select_group_count group_order count_order c r_path true;
      status_code_distribution ←
        select_group_count group_order count_order c r_status_code false;
      top_client_ips ←
        select_group_count group_order count_order c r_ipaddress true;
      _ ← close c;
      _ ← emit Info_summary_generated;
      mret (Some (Summary top_endpoints status_code_distribution top_client_ips))
  end.

End Summarizer.

(* ===================================================================== *)
(** ** etl_apache.py *)
(* ===================================================================== *)

(** Lines 13-30. *)
Definition extract (log_file : path) : M str :=
  try_except
    (content ← read_text log_file;
     _ ← emit (Info_extracted (length content) log_file);
     mret content)
    is_exception
    (fun e => _ ← emit Error_extracting; raise e).

Section Pipeline.

Variable unicode_decimal : N → bool.
Variable integer_affinity : str → sqlval.

(** Lines 32-52. *)
Definition transform (log_content : str)
    : M (list (gmap string value) * list str) :=
  try_except
    (let '(parsed_entries, error_entries) :=
       parse_log unicode_decimal log_content in
     _ ← emit (Info_transformed (length parsed_entries));
     _ ← emit (Info_found_errors (length error_entries));
     mret (parsed_entries, error_entries))
    is_exception
    (fun e => _ ← emit Error_transforming; raise e).

(** Lines 54-71. *)
Definition load (parsed_entries : list (gmap string value))
    (error_entries : list str) (db_file : path) : M unit :=
  conn ← create_connection db_file;
  match conn with
  | Some c0 =>
      c1 ← create_table c0;
      c2 ← insert_log_entries integer_affinity c1 parsed_entries;
      c3 ← insert_error_entries c2 error_entries;
      c4 ← commit c3;
      _ ← close c4;
      emit (Info_loaded (length parsed_entries))
  | None => emit Error_failed_to_connect
  end.

(** Lines 102-119. *)
Definition run_etl_if_needed (input_path db_file : path) (first_run : bool)
    : M unit :=
  db_exists ← os_path_exists db_file;
  db_up_to_date ← (if db_exists then is_db_up_to_date db_file input_path
                   else mret false);
  db_empty ← (if db_exists
              then conn ← create_connection db_file; is_db_empty conn
              else mret true);
  if first_run && db_exists && db_up_to_date && negb db_empty then
    emit Info_first_run_skipping
  else if negb first_run && db_exists && db_up_to_date && negb db_empty then
    emit Info_skipping
  else
    _ ← emit Info_running_etl;
    log_content ← extract input_path;
    '(parsed_entries, error_entries) ← transform log_content;
    _ ← load parsed_entries error_entries db_file;
    emit Info_etl_completed.

End Pipeline.

(* ===================================================================== *)
(** ** Notions the statements are written with *)
(* ===================================================================== *)

(** *** Matches and entries *)

(** What it means for a regular expression to match: [derives r bef w rest
    g g'] says that [r], started after the text [bef] (reversed) with the
    groups [g], consumes [w], leaves [rest] ahead and ends with the groups
    [g']. The matcher is proved sound for it below. *)
Fixpoint derives (r : Re.regex) (bef w rest : str) (g g' : Re.captures)
    : Prop :=
  match r with
  | Re.Bol => w = [] ∧ g' = g ∧ Re.at_bol (Re.Cursor bef rest) = true
  | Re.Eol => w = [] ∧ g' = g ∧ Re.at_eol (Re.Cursor bef rest) = true
  | Re.Lit s => w = s ∧ g' = g
  | Re.Many p lo hi =>
      Forall (fun c => p c = true) w ∧ lo ≤ length w ∧
      (∀ h, hi = Some h → length w ≤ h) ∧ g' = g
  | Re.Times n r' =>
      (fix times (n : nat) (bef w : str) (g : Re.captures) : Prop :=
         match n with
         | O => w = [] ∧ g' = g
         | S n' => ∃ w1 w2 g1, w = w1 ++ w2 ∧
                     derives r' bef w1 (w2 ++ rest) g g1 ∧
                     times n' (rev w1 ++ bef) w2 g1
         end) n bef w g
  | Re.Cat r1 r2 =>
      ∃ w1 w2 g1, w = w1 ++ w2 ∧
        derives r1 bef w1 (w2 ++ rest) g g1 ∧
        derives r2 (rev w1 ++ bef) w2 rest g1 g'
  | Re.Group name r' =>
      ∃ g1, derives r' bef w rest g g1 ∧ g' = <[name := w]> g1
  end.

(** The groups of a match, as the pattern sets them (first group innermost). *)
Definition groups_of (ip ts me pa pr st by_ rf ua : str) : Re.captures :=
  <["user_agent" := ua]> (<["referrer" := rf]> (<["bytes_sent" := by_]>
  (<["status_code" := st]> (<["protocol" := pr]> (<["path" := pa]>
  (<["method" := me]> (<["timestamp" := ts]> (<["ipaddress" := ip]> ∅)))))))).

(** The text of a field of an entry. *)
Definition field (entry : gmap string value) (key : string) : str :=
  match entry !! key with
  | Some (PyStr s) => s
  | _ => []
  end.

(** The nine fields written back between the literal separators of the
    grammar. *)
Definition canonical_form (entry : gmap string value) : str :=
  field entry "ipaddress" ++ lit " - - [" ++
  field entry "timestamp" ++ lit "] " ++ [dquote] ++
  field entry "method" ++ lit " " ++
  field entry "path" ++ lit " " ++
  field entry "protocol" ++ [dquote] ++ lit " " ++
  field entry "status_code" ++ lit " " ++
  field entry "bytes_sent" ++ lit " " ++ [dquote] ++
  field entry "referrer" ++ [dquote] ++ lit " " ++ [dquote] ++
  field entry "user_agent" ++ [dquote].

(** An entry with the nine keys. *)
Definition complete (entry : gmap string value) : Prop :=
  ∀ key, key ∈ entry_keys → is_Some (entry !! key).

(** *** The checks of the gate *)

(** The answer of [is_db_up_to_date]. *)
Definition up_to_date (w : world) (db_path log_file_path : path) : bool :=
  match mtimes w !! db_path, mtimes w !! log_file_path with
  | Some db_mtime, Some log_mtime => bool_decide (log_mtime ≤ db_mtime)%Z
  | _, _ => false
  end.

(** The database a connection reads, when a statement can read one. *)
Definition visible (c : connection) (w : world) : option database :=
  match conn_tx c with
  | Some d => Some d
  | None => match sqlite w !! conn_path c with
            | Some (Db d) => Some d
            | _ => None
            end
  end.

(** The database [sqlite3.connect] gives access to: the one in the file, or
    a new, empty one where the file can be created. *)
Definition opened_as (w : world) (db_file : path) : option database :=
  match sqlite w !! db_file with
  | Some (Db d) => Some d
  | Some Vacant => Some empty_database
  | _ => None
  end.

(** The answer of [is_db_empty]. *)
Definition no_rows (w : world) (conn : option connection) : bool :=
  match conn with
  | None => true
  | Some c => match visible c w with
              | Some d => match logs d with
                          | Some (_ :: _) => false
                          | _ => true
                          end
              | None => true
              end
  end.

(** The store exists, is at least as recent as the source, and its [logs]
    table has at least one row. *)
Definition fresh_and_populated (w : world) (input_path db_file : path) : bool :=
  match mtimes w !! db_file, mtimes w !! input_path, sqlite w !! db_file with
  | Some db_mtime, Some log_mtime, Some (Db d) =>
      bool_decide (log_mtime ≤ db_mtime)%Z &&
      match logs d with Some (_ :: _) => true | _ => false end
  | _, _, _ => false
  end.

(** The world after [sqlite3.connect] created the file. *)
Definition created (p : path) (w : world) : world :=
  written p empty_database w.

(** The world and the output once the three checks of lines 103-105 are
    done: the emptiness check connects to an existing store. *)
Definition after_checks (w : world) (db_file : path) : world :=
  match mtimes w !! db_file, sqlite w !! db_file with
  | Some _, Some Vacant => created db_file w
  | _, _ => w
  end.

Definition checks_trace (w : world) (db_file : path) : list event :=
  match mtimes w !! db_file with
  | Some _ => match sqlite w !! db_file with
              | Some _ => [Print_connected db_file]
              | None => [Print_connect_error]
              end
  | None => []
  end.

(** Lines 115-119, the ETL proper. *)
Definition etl (unicode_decimal : N → bool) (integer_affinity : str → sqlval)
    (input_path db_file : path) : M unit :=
  _ ← emit Info_running_etl;
  log_content ← extract input_path;
  '(parsed_entries, error_entries) ← transform unicode_decimal log_content;
  _ ← load integer_affinity parsed_entries error_entries db_file;
  emit Info_etl_completed.

(** *** Aggregates *)

(** The three aggregates of [summarize_log] over the rows of [logs], as an
    engine with the two orders returns them. *)
Definition summary_of (group_order count_order :
                         list (sqlval * nat) → list (sqlval * nat))
    (rows : list log_row) : summary :=
  Summary (take 10 (count_order (group_count r_path rows)))
          (group_order (group_count r_status_code rows))
          (take 10 (count_order (group_count r_ipaddress rows))).

(** What SQL asks of the two orders: the groups are returned, each once,
    whatever the order; under ORDER BY count DESC no group comes before a
    group of a greater count. *)
Definition arranges (order : list (sqlval * nat) → list (sqlval * nat))
    : Prop :=
  ∀ groups, order groups ≡ₚ groups.

Definition ranks (order : list (sqlval * nat) → list (sqlval * nat)) : Prop :=
  ∀ groups, order groups ≡ₚ groups ∧
            StronglySorted (fun a b => b.2 ≤ a.2) (order groups).

(** The count a grouped query reports for a key (0 when the key has no
    group). *)
Fixpoint count_of (k : sqlval) (groups : list (sqlval * nat)) : nat :=
  match groups with
  | [] => 0
  | (k', n) :: groups' => if decide (k = k') then n else count_of k groups'
  end.

(** The summary a call of [summarize_log] returned, if it returned one. *)
Definition res_value (r : result (option summary)) : option summary :=
  match res r with
  | Ret (Some s) => Some s
  | _ => None
  end.

(** *** Append-only stores *)

(** A table keeps its rows, in place, and may have gained rows at the end. *)
Definition table_extends {A : Type} (t t' : option (list A)) : Prop :=
  ∀ rows, t = Some rows → ∃ more, t' = Some (rows ++ more).

Definition db_extends (d d' : database) : Prop :=
  table_extends (logs d) (logs d') ∧ table_extends (errors d) (errors d').

(** Every database of [w] is still there in [w'], extended. *)
Definition world_extends (w w' : world) : Prop :=
  ∀ p d, sqlite w !! p = Some (Db d) →
    ∃ d', sqlite w' !! p = Some (Db d') ∧ db_extends d d'.

(** The open transaction of a connection extends the file it is bound to. *)
Definition conn_ok (w : world) (c : connection) : Prop :=
  ∀ d d0, conn_tx c = Some d → sqlite w !! conn_path c = Some (Db d0) →
    db_extends d0 d.

(** The outcome and the final world of a computation satisfy [Q]. *)
Definition wp {A : Type} (m : M A) (w : world)
    (Q : outcome A → world → Prop) : Prop :=
  Q (res (m w)) (final (m w)).

(** Postconditions: the world extends [w0]; and the connection returned is
    in order. *)
Definition keeps_world {A : Type} (w0 : world) (o : outcome A) (w' : world)
    : Prop :=
  world_extends w0 w'.

Definition keeps (w0 : world) (o : outcome connection) (w' : world) : Prop :=
  world_extends w0 w' ∧
  match o with
  | Ret c' => conn_ok w' c'
  | Raise _ => True
  end.

(** Postcondition: a connection to [p] is returned and reads [d]. *)
Definition sees (p : path) (d : database) (now : Z)
    (o : outcome connection) (w' : world) : Prop :=
  ∃ c', o = Ret c' ∧ conn_path c' = p ∧ visible c' w' = Some d ∧
        clock w' = now.

(** The row inserted for a complete entry. *)
Definition row_of (integer_affinity : str → sqlval)
    (entry : gmap string value) : log_row :=
  let get key := default PyNone (entry !! key) in
  LogRow (bind_text (get "ipaddress")) (bind_text (get "timestamp"))
         (bind_text (get "method")) (bind_text (get "path"))
         (bind_text (get "protocol"))
         (bind_integer integer_affinity (get "status_code"))
         (bind_integer integer_affinity (get "bytes_sent"))
         (bind_text (get "referrer")) (bind_text (get "user_agent")).

(** The rows one load of a file adds to [logs] and to [errors]. *)
Definition log_rows (unicode_decimal : N → bool)
    (integer_affinity : str → sqlval) (log_content : str) : list log_row :=
  List.map (row_of integer_affinity) (parse_log unicode_decimal log_content).1.

Definition error_rows (unicode_decimal : N → bool) (log_content : str)
    (now : Z) : list error_row :=
  List.map (fun line => ErrorRow (SqlText line) (SqlText []) now)
           (parse_log unicode_decimal log_content).2.

(* ===================================================================== *)
(** ** Concrete inputs of the examples *)
(* ===================================================================== *)

(** The ASCII digits, the part of category Nd that plain logs use. *)
Definition ascii_decimal (c : N) : bool := (48 <=? c)%N && (c <=? 57)%N.

Definition sample_line : str :=
  lit "127.0.0.1 - - [10/Oct/2023:13:55:36 -0700] " ++ [dquote] ++
  lit "GET /index.html HTTP/1.1" ++ [dquote] ++ lit " 200 1024 " ++
  [dquote] ++ lit "-" ++ [dquote] ++ lit " " ++ [dquote] ++
  lit "curl/7.68.0" ++ [dquote].

Definition bad_line : str := lit "not a valid log line".

(** A log file of two good lines around a bad one. *)
Definition sample_log : str :=
  sample_line ++ [10%N] ++ bad_line ++ [13%N; 10%N] ++ sample_line ++ [10%N].

Definition sample_groups : Re.captures :=
  groups_of (lit "127.0.0.1") (lit "10/Oct/2023:13:55:36 -0700") (lit "GET")
            (lit "/index.html") (lit "HTTP/1.1") (lit "200") (lit "1024")
            (lit "-") (lit "curl/7.68.0").

(** An affinity that converts the texts made of ASCII digits. *)
Definition decimal_value (s : str) : option Z :=
  foldl (fun acc c => n ← acc;
                      if ascii_decimal c then Some (10 * n + (Z.of_N c - 48))%Z
                      else None)
        (match s with [] => None | _ => Some 0%Z end) s.

Definition ascii_integer_affinity (s : str) : sqlval :=
  match decimal_value s with
  | Some n => SqlInteger n
  | None => SqlText s
  end.

Definition sample_row : log_row :=
  LogRow (SqlText (lit "127.0.0.1"))
         (SqlText (lit "10/Oct/2023:13:55:36 -0700"))
         (SqlText (lit "GET")) (SqlText (lit "/index.html"))
         (SqlText (lit "HTTP/1.1")) (SqlInteger 200) (SqlInteger 1024)
         (SqlText (lit "-")) (SqlText (lit "curl/7.68.0")).

(** A machine whose store was loaded at time 50 from a source last written
    at time 40. *)
Definition loaded_world : world :=
  World {[ "access.log" := 40%Z; "logs.db" := 50%Z ]}
        {[ "access.log" := sample_log ]}
        {[ "logs.db" := Db (Database (Some [sample_row]) (Some [])) ]}
        60.

(** The same machine after the source was written again at time 55. *)
Definition stale_world : world :=
  World {[ "access.log" := 55%Z; "logs.db" := 50%Z ]}
        {[ "access.log" := sample_log ]}
        {[ "logs.db" := Db (Database (Some [sample_row]) (Some [])) ]}
        60.

(** A machine with the source only; the store can be created. *)
Definition fresh_world : world :=
  World {[ "access.log" := 40%Z ]}
        {[ "access.log" := sample_log ]}
        {[ "logs.db" := Vacant ]}
        60.

(** A machine on which the store cannot be opened. *)
Definition locked_world : world :=
  World {[ "access.log" := 40%Z ]} {[ "access.log" := sample_log ]} ∅ 60.

(** A store whose schema exists and whose tables have no rows. *)
Definition empty_store_world : world :=
  World {[ "logs.db" := 50%Z ]} ∅
        {[ "logs.db" := Db (Database (Some []) (Some [])) ]} 60.

(** A machine whose source has disappeared while the store is in place. *)
Definition no_source_world : world :=
  World {[ "logs.db" := 50%Z ]} ∅
        {[ "logs.db" := Db (Database (Some [sample_row]) (Some [])) ]} 60.

(** A machine whose store file is not an SQLite database. *)
Definition corrupt_world : world :=
  World {[ "access.log" := 40%Z; "logs.db" := 50%Z ]}
        {[ "access.log" := sample_log ]}
        {[ "logs.db" := NotADatabase ]} 60.

(** The source file is written again at time [t], which is then the time
    of the machine. *)
Definition touch (p : path) (t : Z) (w : world) : world :=
  World (<[p := t]> (mtimes w)) (texts w) (sqlite w) t.

(** One engine. Its groups come by ascending key: NULL, the numbers, the
    texts by code point, which is the order of their UTF-8 bytes (no row of
    the examples holds a real; reals are compared by their bits). Under
    ORDER BY count DESC groups of equal count come by descending key. *)
Fixpoint str_leb (a b : str) : bool :=
  match a, b with
  | [], _ => true
  | _ :: _, [] => false
  | x :: a', y :: b' => (x <? y)%N || ((x =? y)%N && str_leb a' b')
  end.

Definition key_class (v : sqlval) : nat :=
  match v with
  | SqlNull => 0
  | SqlInteger _ | SqlReal _ => 1
  | SqlText _ => 2
  end.

Definition key_leb (a b : sqlval) : bool :=
  match a, b with
  | SqlInteger m, SqlInteger n => (m <=? n)%Z
  | SqlReal m, SqlReal n => (m <=? n)%Z
  | SqlText s, SqlText t => str_leb s t
  | _, _ => (key_class a <=? key_class b)%nat
  end.

Fixpoint insert_key (x : sqlval * nat) (l : list (sqlval * nat))
    : list (sqlval * nat) :=
  match l with
  | [] => [x]
  | y :: l' => if key_leb x.1 y.1 then x :: l else y :: insert_key x l'
  end.

Definition key_ascending (l : list (sqlval * nat)) : list (sqlval * nat) :=
  foldr insert_key [] l.

(** Insertion from the right: a group goes before the first group of a
    smaller count, so behind the groups of its own count that followed
    it. *)
Fixpoint insert_desc (x : sqlval * nat) (l : list (sqlval * nat))
    : list (sqlval * nat) :=
  match l with
  | [] => [x]
  | y :: l' => if (y.2 <? x.2)%nat then x :: l else y :: insert_desc x l'
  end.

Definition order_by_count_desc (l : list (sqlval * nat)) : list (sqlval * nat) :=
  foldr insert_desc [] l.

Definition count_descending (l : list (sqlval * nat)) : list (sqlval * nat) :=
  order_by_count_desc (key_ascending l).

(** A row of [logs] for a request of the given path. *)
Definition hit (request_path : string) : log_row :=
  LogRow (SqlText (lit "127.0.0.1"))
         (SqlText (lit "10/Oct/2023:13:55:36 -0700"))
         (SqlText (lit "GET")) (SqlText (lit request_path))
         (SqlText (lit "HTTP/1.1")) (SqlInteger 200) (SqlInteger 1024)
         (SqlText (lit "-")) (SqlText (lit "curl/7.68.0")).

(* ===================================================================== *)
(** ** Further notions: the grammar of a line *)
(* ===================================================================== *)

(** A run of one to three decimal digits. *)
Definition octet (unicode_decimal : N → bool) (s : str) : Prop :=
  1 ≤ length s ≤ 3 ∧ Forall (fun c => unicode_decimal c = true) s.

(** A non-empty run of characters of a class. *)
Definition run_of (p : N → bool) (s : str) : Prop :=
  s ≠ [] ∧ Forall (fun c => p c = true) s.

Definition dotted (d1 d2 d3 d4 : str) : str :=
  d1 ++ lit "." ++ d2 ++ lit "." ++ d3 ++ lit "." ++ d4.

(** A line of the access log written from its fields. *)
Definition format_line (ip ts me pa pr st by_ rf ua : str) : str :=
  ip ++ lit " - - [" ++ ts ++ lit "] " ++ [dquote] ++ me ++ lit " " ++
  pa ++ lit " " ++ pr ++ [dquote] ++ lit " " ++ st ++ lit " " ++
  by_ ++ lit " " ++ [dquote] ++ rf ++ [dquote] ++ lit " " ++
  [dquote] ++ ua ++ [dquote].

(** What the pattern asks of the nine fields. *)
Definition grammatical (unicode_decimal : N → bool)
    (ip ts me pa pr st by_ rf ua : str) : Prop :=
  (∃ d1 d2 d3 d4, ip = dotted d1 d2 d3 d4 ∧
     octet unicode_decimal d1 ∧ octet unicode_decimal d2 ∧
     octet unicode_decimal d3 ∧ octet unicode_decimal d4) ∧
  run_of (non 93) ts ∧ run_of upper me ∧
  run_of (non dquote) pa ∧ run_of (non dquote) pr ∧
  (length st = 3 ∧ Forall (fun c => unicode_decimal c = true) st) ∧
  run_of unicode_decimal by_ ∧
  run_of (non dquote) rf ∧ run_of (non dquote) ua.

(** The shortest line of the grammar has 37 characters. *)
Definition min_line_length : nat := 37.

(** A digit or a dot: the characters of an address. *)
Definition address_char (unicode_decimal : N → bool) (c : N) : bool :=
  unicode_decimal c || (c =? 46)%N.

(** The space, code point 32, does not occur. *)
Definition spaceless (s : str) : Prop := Forall (fun c => non 32 c = true) s.

(* ===================================================================== *)
(** ** Further notions: the store *)
(* ===================================================================== *)

(** The first key of the tuple of lines 78-88 that an entry lacks. *)
Definition missing_key (entry : gmap string value) : option string :=
  head (filter (fun key => entry !! key = None) entry_keys).

(** A database with both tables, the rows it had kept. *)
Definition with_schema (d : database) : database :=
  Database (Some (default [] (logs d))) (Some (default [] (errors d))).

(** Postcondition: nothing but an error of SQLite is raised. *)
Definition sqlite_errors_only {A : Type} (o : outcome A) (w' : world) : Prop :=
  match o with
  | Ret _ => True
  | Raise e => is_sqlite_error e = true
  end.

(** The row of [errors] for a line in error. *)
Definition error_row_of (now : Z) (line : str) : error_row :=
  ErrorRow (SqlText line) (SqlText []) now.

(* ===================================================================== *)
(** ** Further notions: what a grouped count says about the rows *)
(* ===================================================================== *)

(** The number of rows with the key [k]. *)
Definition rows_with (key : log_row → sqlval) (k : sqlval)
    (rows : list log_row) : nat :=
  length (filter (fun r => k = key r) rows).

(** Every group is listed once, with the number of rows that have its key,
    and no group is empty. *)
Definition tally_of (key : log_row → sqlval) (rows : list log_row)
    (groups : list (sqlval * nat)) : Prop :=
  NoDup groups.*1 ∧
  ∀ k n, (k, n) ∈ groups → n = rows_with key k rows ∧ 1 ≤ n.

(** A tally with a group for the key of every row. *)
Definition distribution_of (key : log_row → sqlval) (rows : list log_row)
    (groups : list (sqlval * nat)) : Prop :=
  tally_of key rows groups ∧ ∀ r, r ∈ rows → key r ∈ groups.*1.

(** A tally of at most ten groups, in order of decreasing count, that
    leaves a key out only when it is full and no listed count is smaller
    than the count of the key left out. *)
Definition top10_of (key : log_row → sqlval) (rows : list log_row)
    (top : list (sqlval * nat)) : Prop :=
  tally_of key rows top ∧ length top ≤ 10 ∧
  StronglySorted (fun a b => b.2 ≤ a.2) top ∧
  ∀ r, r ∈ rows → key r ∉ top.*1 →
    length top = 10 ∧ ∀ k n, (k, n) ∈ top → rows_with key (key r) rows ≤ n.

(** The three aggregates of a summary, each said of the rows without a
    word on the order the engine chose. *)
Definition summarizes (rows : list log_row) (s : summary) : Prop :=
  top10_of r_path rows (top_endpoints s) ∧
  distribution_of r_status_code rows (status_code_distribution s) ∧
  top10_of r_ipaddress rows (top_client_ips s).

(* ===================================================================== *)
(** ** Further notions: the footprint of a run *)
(* ===================================================================== *)

(** [w'] is [w], or [w] with the database file at [p] written. *)
Definition rewritten (p : path) (w w' : world) : Prop :=
  w' = w ∨ ∃ d, w' = written p d w.

(** Postcondition: only the file at [p] was written, and the connection
    returned is bound to it. *)
Definition frames (p : path) (w0 : world) (o : outcome connection)
    (w' : world) : Prop :=
  rewritten p w0 w' ∧
  match o with
  | Ret c' => conn_path c' = p
  | Raise _ => True
  end.

(* ===================================================================== *)
(** ** Further concrete inputs *)
(* ===================================================================== *)

(** The entry of the sample line, and the same entry without its method. *)
Definition sample_entry : gmap string value := entry_of_match sample_groups.

Definition partial_entry : gmap string value := delete "method" sample_entry.

(** A machine whose source holds no line of the grammar. *)
Definition garbage_world : world :=
  World {[ "access.log" := 40%Z ]}
        {[ "access.log" := bad_line ]}
        {[ "logs.db" := Vacant ]}
        60.

(** A machine whose store is a database without a table. *)
Definition schemaless_world : world :=
  World {[ "logs.db" := 50%Z ]} ∅ {[ "logs.db" := Db empty_database ]} 60.

(** A row of [logs] for a request of a path, with its status and client. *)
Definition request (request_path : string) (status : Z) (client : string)
    : log_row :=
  LogRow (SqlText (lit client))
         (SqlText (lit "10/Oct/2023:13:55:36 -0700"))
         (SqlText (lit "GET")) (SqlText (lit request_path))
         (SqlText (lit "HTTP/1.1")) (SqlInteger status) (SqlInteger 1024)
         (SqlText (lit "-")) (SqlText (lit "curl/7.68.0")).

(** Sixteen requests of twelve paths: one path three times, two paths
    twice, nine paths once; three status codes, two of them as often as
    each other; two clients. *)
Definition busy_rows : list log_row :=
  [ request "/l" 200 "10.0.0.2"; request "/a" 404 "10.0.0.1";
    request "/b" 500 "10.0.0.2"; request "/c" 200 "10.0.0.2";
    request "/d" 404 "10.0.0.1"; request "/e" 500 "10.0.0.2";
    request "/f" 200 "10.0.0.2"; request "/g" 404 "10.0.0.1";
    request "/h" 500 "10.0.0.2"; request "/i" 200 "10.0.0.2";
    request "/j" 404 "10.0.0.1"; request "/k" 500 "10.0.0.2";
    request "/a" 200 "10.0.0.1"; request "/b" 200 "10.0.0.2";
    request "/c" 200 "10.0.0.1"; request "/a" 200 "10.0.0.2" ].

Definition busy_world : world :=
  World {[ "logs.db" := 50%Z ]} ∅
        {[ "logs.db" := Db (Database (Some busy_rows) (Some [])) ]} 60.

(** The summary of the sixteen requests: ten of the twelve paths, the two
    left out requested once like seven of those listed. *)
Definition busy_summary : summary :=
  Summary
    [ (SqlText (lit "/a"), 3); (SqlText (lit "/c"), 2);
      (SqlText (lit "/b"), 2); (SqlText (lit "/l"), 1);
      (SqlText (lit "/k"), 1); (SqlText (lit "/j"), 1);
      (SqlText (lit "/i"), 1); (SqlText (lit "/h"), 1);
      (SqlText (lit "/g"), 1); (SqlText (lit "/f"), 1) ]
    [ (SqlInteger 200, 8); (SqlInteger 404, 4); (SqlInteger 500, 4) ]
    [ (SqlText (lit "10.0.0.2"), 10); (SqlText (lit "10.0.0.1"), 6) ].

(** A machine whose store holds one request that was not found, loaded
    before the source was last written. *)
Definition mixed_world : world :=
  World {[ "access.log" := 55%Z; "logs.db" := 50%Z ]}
        {[ "access.log" := sample_log ]}
        {[ "logs.db" :=
             Db (Database (Some [request "/missing" 404 "10.0.0.9"])
                          (Some [])) ]}
        60.

(* ===================================================================== *)
(** * Properties *)
(* ===================================================================== *)

(** ** str.splitlines *)

Lemma splitlines_from_no_break_fuel (n : nat) :
  ∀ (cur s line : str), length s ≤ n →
  Forall (fun c => is_linebreak c = false) cur →
  line ∈ splitlines_from cur s →
  Forall (fun c => is_linebreak c = false) line.
Proof.
  induction n as [|n IH]; intros cur s line Hn Hcur.
  - destruct s; [|simpl in Hn; lia]. simpl.
    destruct cur; [by intros ?%elem_of_nil|].
    intros ->%list_elem_of_singleton. by apply Forall_rev.
  - destruct s as [|c s']; simpl.
    + destruct cur; [by intros ?%elem_of_nil|].
      intros ->%list_elem_of_singleton. by apply Forall_rev.
    + simpl in Hn. destruct (is_linebreak c) eqn:Hc.
      * intros [->|Hin]%elem_of_cons; [by apply Forall_rev|].
        revert Hin. destruct (c =? 13)%N.
        -- destruct s' as [|d s'']; [by intros ?%elem_of_nil|].
           simpl in Hn. destruct (d =? 10)%N; apply IH; simpl; auto with lia.
        -- apply IH; auto with lia.
      * apply IH; auto with lia.
Qed.

Lemma splitlines_no_break (s line : str) :
  line ∈ splitlines s → Forall (fun c => is_linebreak c = false) line.
Proof. by apply (splitlines_from_no_break_fuel (length s)). Qed.

Lemma splitlines_no_newline (s line : str) :
  line ∈ splitlines s → 10%N ∉ line.
Proof.
  intros H%splitlines_no_break Hin.
  rewrite Forall_forall in H. by specialize (H _ Hin).
Qed.

(** ** The matcher is sound for [derives] *)

Lemma strip_prefix_Some (a s rest : str) :
  Re.strip_prefix a s = Some rest → s = a ++ rest.
Proof.
  revert s. induction a as [|x a IH]; intros [|y s]; simpl; try congruence.
  destruct (N.eqb_spec x y) as [->|]; [|done].
  intros ?%IH. by f_equal.
Qed.

Lemma many_sound {A} p lo hi (k : Re.cursor → option A) bef ahd a :
  Re.many p lo hi k bef ahd = Some a →
  ∃ w rest, ahd = w ++ rest ∧
    Forall (fun c => p c = true) w ∧ lo ≤ length w ∧
    (∀ h, hi = Some h → length w ≤ h) ∧
    k (Re.Cursor (rev w ++ bef) rest) = Some a.
Proof.
  revert lo hi bef. induction ahd as [|c ahd IH]; intros lo hi bef; simpl.
  - destruct lo; [|done]. intros Hk. exists [], []. simpl.
    repeat split; auto with lia.
  - assert (Hstop : match lo with O => k (Re.Cursor bef (c :: ahd)) | S _ => None end
                    = Some a →
      ∃ w rest, c :: ahd = w ++ rest ∧ Forall (fun c => p c = true) w ∧
        lo ≤ length w ∧ (∀ h, hi = Some h → length w ≤ h) ∧
        k (Re.Cursor (rev w ++ bef) rest) = Some a).
    { destruct lo; [|done]. intros Hk. exists [], (c :: ahd). simpl.
      repeat split; auto with lia. }
    destruct (p c) eqn:Hp; simpl; [|done].
    destruct (Re.room hi) eqn:Hroom; [|done].
    destruct (Re.many p (pred lo) (pred <$> hi) k (c :: bef) ahd) as [a'|] eqn:Hm;
      [|done].
    intros [= ->]. apply IH in Hm as (w & rest & -> & Hw & Hlo & Hhi & Hk).
    exists (c :: w), rest. simpl. rewrite <- app_assoc. simpl.
    repeat split; auto with lia.
    intros h ->. destruct h as [|h]; [done|].
    specialize (Hhi h eq_refl). lia.
Qed.

Lemma consumed_adv (bef w a b : str) :
  Re.consumed (Re.Cursor bef a) (Re.Cursor (rev w ++ bef) b) = w.
Proof.
  unfold Re.consumed. simpl.
  rewrite length_app, length_rev.
  replace (length w + length bef - length bef) with (length (rev w))
    by (rewrite length_rev; lia).
  by rewrite take_app_length, rev_involutive.
Qed.

Lemma run_sound {A} (r : Re.regex) :
  ∀ (k : Re.captures → Re.cursor → option A) g cur a,
  Re.run r k g cur = Some a →
  ∃ w rest g', Re.ahead cur = w ++ rest ∧
    derives r (Re.before cur) w rest g g' ∧
    k g' (Re.Cursor (rev w ++ Re.before cur) rest) = Some a.
Proof.
  induction r as [| |s|p lo hi|n r IH|r1 IH1 r2 IH2|name r IH];
    intros k g [bef ahd] a; simpl.
  - destruct (Re.at_bol _) eqn:Hb; [|done]. intros Hk.
    by exists [], ahd, g.
  - destruct (Re.at_eol _) eqn:Hb; [|done]. intros Hk.
    by exists [], ahd, g.
  - destruct (Re.strip_prefix s ahd) as [rest|] eqn:Hs; [|done].
    intros Hk. apply strip_prefix_Some in Hs. by exists s, rest, g.
  - intros (w & rest & -> & ? & ? & ? & ?)%many_sound.
    by exists w, rest, g.
  - revert k g bef ahd. induction n as [|n IHn]; intros k g bef ahd; simpl.
    + intros Hk. by exists [], ahd, g.
    + intros (w1 & rest1 & g1 & Hw1 & Hd1 & Hk)%IH. simpl in *.
      apply IHn in Hk as (w2 & rest & g2 & -> & Hd2 & Hk).
      exists (w1 ++ w2), rest, g2. subst ahd.
      rewrite <- app_assoc, rev_app_distr, <- app_assoc.
      split; [done|]. split; [|done]. by exists w1, w2, g1.
  - intros (w1 & rest1 & g1 & Hw1 & Hd1 & Hk)%IH1. simpl in *.
    apply IH2 in Hk as (w2 & rest & g2 & Hw2 & Hd2 & Hk). simpl in *.
    subst. exists (w1 ++ w2), rest, g2.
    rewrite <- app_assoc, rev_app_distr, <- app_assoc.
    split; [done|]. split; [|done]. by exists w1, w2, g1.
  - intros (w & rest & g1 & Hw & Hd & Hk)%IH. simpl in *.
    rewrite consumed_adv in Hk. exists w, rest, (<[name := w]> g1).
    split; [done|]. split; [|done]. by exists g1.
Qed.

Lemma match_sound (r : Re.regex) (s : str) (m : Re.captures) :
  Re.match_ r s = Some m →
  ∃ w rest, s = w ++ rest ∧ derives r [] w rest ∅ m.
Proof.
  intros (w & rest & g' & Hs & Hd & [= <-])%run_sound. simpl in *.
  by exists w, rest.
Qed.

(** ** The shape of a matched line *)

Section ParserFacts.
Variable unicode_decimal : N → bool.

Lemma nonempty_of_length {A} (l : list A) : 1 ≤ length l → l ≠ [].
Proof. intros H ->. simpl in H. lia. Qed.

Lemma log_pattern_inv (line : str) (m : Re.captures) :
  Re.match_ (log_pattern unicode_decimal) line = Some m →
  ∃ ip ts me pa pr st by_ rf ua rest,
    line = ip ++ lit " - - [" ++ ts ++ lit "] " ++ [dquote] ++ me ++ lit " " ++
           pa ++ lit " " ++ pr ++ [dquote] ++ lit " " ++ st ++ lit " " ++
           by_ ++ lit " " ++ [dquote] ++ rf ++ [dquote] ++ lit " " ++
           [dquote] ++ ua ++ [dquote] ++ rest ∧
    (rest = [] ∨ ∃ rest', rest = 10%N :: rest') ∧
    m = groups_of ip ts me pa pr st by_ rf ua ∧
    (ip ≠ [] ∧ ts ≠ [] ∧ me ≠ [] ∧ pa ≠ [] ∧ pr ≠ [] ∧ st ≠ [] ∧
     by_ ≠ [] ∧ rf ≠ [] ∧ ua ≠ []) ∧
    (Forall (fun c => upper c = true) me ∧
     Forall (fun c => unicode_decimal c = true) st ∧ length st = 3 ∧
     Forall (fun c => unicode_decimal c = true) by_).
Proof.
  intros (w & rest & -> & Hd)%match_sound.
  unfold log_pattern, seq_re, digits_1_3 in Hd. cbn [derives foldr] in Hd.
  repeat match type of Hd with
         | ∃ _, _ => destruct Hd as [? Hd]
         | _ ∧ _ => let H := fresh "H" in destruct Hd as [H Hd]
         end.
  repeat match goal with
         | H : ∃ _, _ |- _ => destruct H as [? H]
         | H : _ ∧ _ |- _ => let H' := fresh "H" in destruct H as [H' H]
         end.
  subst.
  repeat match goal with
         | H : ∀ h, None = Some h → _ |- _ => clear H
         | H : ∀ h, Some ?n = Some h → _ |- _ => specialize (H n eq_refl)
         end.
  do 9 eexists. exists rest. split_and!.
  3: reflexivity.
  - rewrite <- !app_assoc. reflexivity.
  - match goal with
    | H : Re.at_eol _ = true |- _ => revert H
    end.
    unfold Re.at_eol. simpl. destruct rest as [|c rest']; [by left|].
    intros ->%N.eqb_eq. right. by eexists.
  - intros E%(f_equal length). rewrite length_app in E. simpl in E. lia.
  - by apply nonempty_of_length.
  - by apply nonempty_of_length.
  - by apply nonempty_of_length.
  - by apply nonempty_of_length.
  - apply nonempty_of_length. lia.
  - by apply nonempty_of_length.
  - by apply nonempty_of_length.
  - by apply nonempty_of_length.
  - done.
  - done.
  - lia.
  - done.
Qed.

Lemma entry_of_groups (ip ts me pa pr st by_ rf ua : str) :
  entry_of_match (groups_of ip ts me pa pr st by_ rf ua) =
  list_to_map
    [("ipaddress", PyStr ip); ("timestamp", PyStr ts); ("method", PyStr me);
     ("path", PyStr pa); ("protocol", PyStr pr); ("status_code", PyStr st);
     ("bytes_sent", PyStr by_); ("referrer", PyStr rf);
     ("user_agent", PyStr ua)].
Proof. reflexivity. Qed.

(** The loop of [parse_log], started from any pair of lists. *)
Lemma parse_loop (lines : list str) :
  ∀ (log_entries : list (gmap string value)) (error_entries : list str),
  foldl (parse_step unicode_decimal) (log_entries, error_entries) lines =
  (log_entries ++
     omap (fun line => entry_of_match <$>
                         Re.match_ (log_pattern unicode_decimal) line) lines,
   error_entries ++
     filter (fun line => Re.match_ (log_pattern unicode_decimal) line = None)
            lines).
Proof.
  induction lines as [|line lines IH]; intros log_entries error_entries.
  - simpl. by rewrite !app_nil_r.
  - change (omap ?f (line :: lines))
      with (match f line with Some y => y :: omap f lines | None => omap f lines end).
    simpl foldl. rewrite filter_cons.
    destruct (decide _) as [Hm|Hm].
    + rewrite Hm, IH; simpl. by rewrite <- app_assoc.
    + destruct (Re.match_ _ line) as [m|]; [|done].
      rewrite IH; simpl. by rewrite <- app_assoc.
Qed.

Lemma omap_filter_length {A B C} (f : A → option B) (h : B → C) (l : list A) :
  length (omap (fun x => h <$> f x) l) +
  length (filter (fun x => f x = None) l) = length l.
Proof.
  induction l as [|x l IH]; [done|].
  change (omap ?f (x :: l))
    with (match f x with Some y => y :: omap f l | None => omap f l end).
  rewrite filter_cons. destruct (decide _) as [Hf|Hf].
  - rewrite Hf. simpl. lia.
  - destruct (f x); [simpl; lia|done].
Qed.

Lemma parse_log_unfold (log_content : str) :
  parse_log unicode_decimal log_content =
  (omap (fun line => entry_of_match <$>
                       Re.match_ (log_pattern unicode_decimal) line)
        (splitlines log_content),
   filter (fun line => Re.match_ (log_pattern unicode_decimal) line = None)
          (splitlines log_content)).
Proof. unfold parse_log. by rewrite parse_loop. Qed.

(** C1. [parse_log] sends every line of the input to exactly one of its two
    results: the entries are the matched lines and the error entries the
    other lines, each in the order of the file, so the two lengths add up
    to the number of lines; the empty input gives two empty lists. *)
Theorem parse_log_partition (log_content : str) :
  let pattern := log_pattern unicode_decimal in
  let lines := splitlines log_content in
  let result := parse_log unicode_decimal log_content in
  length result.1 + length result.2 = length lines ∧
  result.1 = omap (fun line => entry_of_match <$> Re.match_ pattern line) lines ∧
  result.2 = filter (fun line => Re.match_ pattern line = None) lines ∧
  parse_log unicode_decimal [] = ([], []).
Proof.
  intros pattern lines result. unfold result. rewrite parse_log_unfold.
  simpl. split_and!; try done.
  apply omap_filter_length.
Qed.

(** What [parse_log] returns first are the entries of the matched lines. *)
Lemma parse_log_entries (log_content : str) (entry : gmap string value) :
  entry ∈ (parse_log unicode_decimal log_content).1 ↔
  ∃ line m, line ∈ splitlines log_content ∧
    Re.match_ (log_pattern unicode_decimal) line = Some m ∧
    entry = entry_of_match m.
Proof.
  rewrite parse_log_unfold. simpl. rewrite list_elem_of_omap. split.
  - intros (line & Hin & Hm).
    destruct (Re.match_ _ line) as [m|] eqn:E; simplify_eq/=. eauto.
  - intros (line & m & Hin & Hm & ->). exists line. by rewrite Hm.
Qed.

(** C4. A line of the input that the pattern matches is recovered, character
    for character, by writing the nine fields of its entry back between the
    literal separators of the grammar. *)
Theorem roundtrip_matched_line (log_content line : str) (m : Re.captures) :
  line ∈ splitlines log_content →
  Re.match_ (log_pattern unicode_decimal) line = Some m →
  canonical_form (entry_of_match m) = line.
Proof.
  intros Hline (ip & ts & me & pa & pr & st & by_ & rf & ua & rest &
                Heq & Hrest & -> & _)%log_pattern_inv.
  apply splitlines_no_newline in Hline.
  destruct Hrest as [->|[rest' ->]].
  - unfold canonical_form.
    repeat match goal with
           | |- context [field ?e ?k] =>
               let s := eval vm_compute in (field e k) in
               change (field e k) with s
           end.
    by rewrite Heq, app_nil_r.
  - exfalso. apply Hline. rewrite Heq.
    repeat (apply elem_of_app; right). apply list_elem_of_here.
Qed.

(** C9. The entry of a matched line has exactly the nine keys, and under
    each of them the text of the pattern's group of that name, which is a
    string (never [None]) and is not empty. *)
Theorem matched_entry_fields (line : str) (m : Re.captures) :
  Re.match_ (log_pattern unicode_decimal) line = Some m →
  dom (entry_of_match m) = list_to_set entry_keys ∧
  ∀ key, key ∈ entry_keys →
    ∃ s, entry_of_match m !! key = Some (PyStr s) ∧ m !! key = Some s ∧ s ≠ [].
Proof.
  intros (ip & ts & me & pa & pr & st & by_ & rf & ua & rest &
          _ & _ & -> & Hne & _)%log_pattern_inv.
  destruct Hne as (? & ? & ? & ? & ? & ? & ? & ? & ?).
  split.
  - rewrite entry_of_groups. unfold entry_keys. simpl.
    rewrite !dom_insert_L. set_solver.
  - intros key Hkey. unfold entry_keys in Hkey.
    repeat (apply elem_of_cons in Hkey as [->|Hkey]);
      [..|by apply elem_of_nil in Hkey];
      eexists; (split; [reflexivity|split; [reflexivity|assumption]]).
Qed.

Lemma matched_entry_complete (line : str) (m : Re.captures) :
  Re.match_ (log_pattern unicode_decimal) line = Some m →
  complete (entry_of_match m).
Proof.
  intros (ip & ts & me & pa & pr & st & by_ & rf & ua & rest &
          _ & _ & -> & _)%log_pattern_inv.
  intros key Hkey. unfold entry_keys in Hkey.
  repeat (apply elem_of_cons in Hkey as [->|Hkey]);
    [..|by apply elem_of_nil in Hkey]; by eexists.
Qed.

Lemma parse_log_complete (log_content : str) :
  Forall complete (parse_log unicode_decimal log_content).1.
Proof.
  apply Forall_forall. intros entry (line & m & _ & Hm & ->)%parse_log_entries.
  by eapply matched_entry_complete.
Qed.

End ParserFacts.

(** ** The parser on the sample log *)

Lemma sample_log_lines :
  splitlines sample_log = [sample_line; bad_line; sample_line].
Proof. vm_compute. reflexivity. Qed.

Lemma sample_line_matches :
  Re.match_ (log_pattern ascii_decimal) sample_line = Some sample_groups.
Proof. vm_compute. reflexivity. Qed.

Lemma bad_line_fails :
  Re.match_ (log_pattern ascii_decimal) bad_line = None.
Proof. vm_compute. reflexivity. Qed.

Lemma roundtrip_matched_line_witness :
  sample_line ∈ splitlines sample_log ∧
  Re.match_ (log_pattern ascii_decimal) sample_line = Some sample_groups ∧
  canonical_form (entry_of_match sample_groups) = sample_line.
Proof.
  assert (H1 : sample_line ∈ splitlines sample_log).
  { rewrite sample_log_lines. apply list_elem_of_here. }
  pose proof sample_line_matches as H2.
  split; [exact H1|]. split; [exact H2|].
  exact (roundtrip_matched_line ascii_decimal sample_log sample_line
           sample_groups H1 H2).
Defined.

Lemma matched_entry_fields_witness :
  Re.match_ (log_pattern ascii_decimal) sample_line = Some sample_groups ∧
  dom (entry_of_match sample_groups) = list_to_set entry_keys ∧
  ∀ key, key ∈ entry_keys →
    ∃ s, entry_of_match sample_groups !! key = Some (PyStr s) ∧
         sample_groups !! key = Some s ∧ s ≠ [].
Proof.
  split; [exact sample_line_matches|].
  exact (matched_entry_fields ascii_decimal sample_line sample_groups
           sample_line_matches).
Defined.

(* ===================================================================== *)
(** ** Running the program: one equation per operation *)
(* ===================================================================== *)

Ltac run_m :=
  cbv [mbind M_bind mret M_ret raise try_except emit get_world put_world
       res final trace is_exception].

(** Membership in a list that is written out. *)
Ltac not_in_list :=
  let H := fresh in
  intros H;
  repeat (apply elem_of_cons in H as [H|H]; [discriminate H|]);
  by apply elem_of_nil in H.

Lemma bind_run {A B} (m : M A) (f : A → M B) (w : world) :
  (m ≫= f) w =
  match res (m w) with
  | Ret a => let r' := f a (final (m w)) in
             Result (res r') (final r') (trace (m w) ++ trace r')
  | Raise e => Result (Raise e) (final (m w)) (trace (m w))
  end.
Proof. reflexivity. Qed.

Lemma os_path_exists_run (p : path) (w : world) :
  os_path_exists p w =
  Result (Ret (bool_decide (is_Some (mtimes w !! p)))) w [].
Proof. reflexivity. Qed.

Lemma is_db_up_to_date_run (db_path log_file_path : path) (w : world) :
  is_db_up_to_date db_path log_file_path w =
  Result (Ret (up_to_date w db_path log_file_path)) w [].
Proof.
  unfold is_db_up_to_date, os_path_getmtime, up_to_date. run_m.
  destruct (mtimes w !! db_path); [|done].
  destruct (mtimes w !! log_file_path); done.
Qed.

Lemma create_connection_run (db_file : path) (w : world) :
  create_connection db_file w =
  match sqlite w !! db_file with
  | None => Result (Ret None) w [Print_connect_error]
  | Some Vacant =>
      Result (Ret (Some (Conn db_file None))) (created db_file w)
             [Print_connected db_file]
  | Some _ => Result (Ret (Some (Conn db_file None))) w
                     [Print_connected db_file]
  end.
Proof.
  unfold create_connection, sqlite3_connect, write_db. run_m.
  destruct (sqlite w !! db_file) as [[| |d]|]; done.
Qed.

Lemma select_count_logs_run (c : connection) (w : world) :
  select_count_logs c w =
  match conn_tx c, sqlite w !! conn_path c with
  | Some d, _ | None, Some (Db d) =>
      match logs d with
      | Some rows => Result (Ret (length rows)) w []
      | None => Result (Raise OperationalError) w []
      end
  | None, Some NotADatabase => Result (Raise DatabaseError) w []
  | None, _ => Result (Raise OperationalError) w []
  end.
Proof.
  unfold select_count_logs, current. destruct c as [p [d|]]; simpl; run_m.
  - by destruct (logs d).
  - destruct (sqlite w !! p) as [[| |d]|]; try done. by destruct (logs d).
Qed.

Lemma is_db_empty_run (conn : option connection) (w : world) :
  is_db_empty conn w = Result (Ret (no_rows w conn)) w [].
Proof.
  unfold is_db_empty, no_rows, visible, count_logs.
  destruct conn as [c|]; [|done].
  unfold try_except. rewrite bind_run, select_count_logs_run.
  destruct c as [p [d|]]; simpl.
  - by destruct (logs d) as [[|row rows]|].
  - destruct (sqlite w !! p) as [[| |d]|]; try done.
    by destruct (logs d) as [[|row rows]|].
Qed.

Lemma created_lookup (p : path) (w : world) :
  sqlite (created p w) !! p = Some (Db empty_database).
Proof. apply lookup_insert_eq. Qed.

Lemma written_lookup (p : path) (d : database) (w : world) :
  sqlite (written p d w) !! p = Some (Db d).
Proof. apply lookup_insert_eq. Qed.

Lemma written_lookup_ne (p q : path) (d : database) (w : world) :
  p ≠ q → sqlite (written p d w) !! q = sqlite w !! q.
Proof. intros. by apply lookup_insert_ne. Qed.

Lemma sqlite3_connect_fails (db_file : path) (w : world) :
  (∃ e, res (sqlite3_connect db_file w) = Raise e) ↔ sqlite w !! db_file = None.
Proof.
  unfold sqlite3_connect, write_db. run_m.
  destruct (sqlite w !! db_file) as [[| |d]|]; split; try done;
    try (by intros [e He]); by exists OperationalError.
Qed.

Section SummarizerFacts.
Variable group_order : list (sqlval * nat) → list (sqlval * nat).
Variable count_order : list (sqlval * nat) → list (sqlval * nat).

Lemma select_group_count_run (c : connection) (key : log_row → sqlval)
    (top10 : bool) (w : world) :
  select_group_count group_order count_order c key top10 w =
  match conn_tx c, sqlite w !! conn_path c with
  | Some d, _ | None, Some (Db d) =>
      match logs d with
      | Some rows =>
          Result (Ret (if top10
                       then take 10 (count_order (group_count key rows))
                       else group_order (group_count key rows))) w []
      | None => Result (Raise OperationalError) w []
      end
  | None, Some NotADatabase => Result (Raise DatabaseError) w []
  | None, _ => Result (Raise OperationalError) w []
  end.
Proof.
  unfold select_group_count, current. destruct c as [p [d|]]; simpl; run_m.
  - by destruct (logs d).
  - destruct (sqlite w !! p) as [[| |d]|]; try done. by destruct (logs d).
Qed.

(** [summarize_log], case by case on what SQLite finds at the path. *)
Lemma summarize_log_run (db_file : path) (w : world) :
  summarize_log group_order count_order db_file w =
  match sqlite w !! db_file with
  | None =>
      Result (Ret None) w [Print_connect_error; Error_summarize_connect]
  | Some Vacant =>
      Result (Raise OperationalError) (created db_file w)
             [Print_connected db_file]
  | Some NotADatabase =>
      Result (Raise DatabaseError) w [Print_connected db_file]
  | Some (Db d) =>
      match logs d with
      | Some rows =>
          Result (Ret (Some (summary_of group_order count_order rows))) w
                 [Print_connected db_file; Info_summary_generated]
      | None => Result (Raise OperationalError) w [Print_connected db_file]
      end
  end.
Proof.
  unfold summarize_log. rewrite bind_run, create_connection_run.
  destruct (sqlite w !! db_file) as [[| |d]|] eqn:Hs; cbn [res final trace];
    try done.
  - rewrite bind_run, select_group_count_run. cbn [conn_tx conn_path].
    by rewrite !created_lookup.
  - rewrite bind_run, select_group_count_run. cbn [conn_tx conn_path].
    by rewrite Hs.
  - destruct (logs d) as [rows|] eqn:Hl;
      repeat (rewrite bind_run, select_group_count_run;
              cbn [conn_tx conn_path]; rewrite Hs, Hl;
              cbn [res final trace]);
      reflexivity.
Qed.

Lemma summary_of_no_rows :
  arranges group_order → ranks count_order →
  summary_of group_order count_order [] = Summary [] [] [].
Proof.
  intros Hg Hc. unfold summary_of, group_count. cbn [foldl].
  destruct (Hc []) as [Hp _]. apply Permutation_nil_r in Hp.
  pose proof (Hg []) as Hq. apply Permutation_nil_r in Hq.
  by rewrite Hp, Hq.
Qed.

(** C5, as the code has it. On a store whose [logs] table is there and has
    no rows [summarize_log] returns the summary with three empty
    aggregates and raises nothing; it returns no summary exactly when the
    store cannot be opened, and then it does not raise either. It raises
    the error of SQLite exactly on a store that opens and cannot be
    queried: a database without the [logs] table, as the one a first
    connection creates where there was no file, or a file that is not a
    database. *)
Theorem summarize_log_empty_store (db_file : path) (w : world) :
  arranges group_order → ranks count_order →
  let r := summarize_log group_order count_order db_file w in
  (∀ d, sqlite w !! db_file = Some (Db d) → logs d = Some [] →
     r = Result (Ret (Some (Summary [] [] []))) w
           [Print_connected db_file; Info_summary_generated]) ∧
  (res r = Ret None ↔ ∃ e, res (sqlite3_connect db_file w) = Raise e) ∧
  ((∃ e, res (sqlite3_connect db_file w) = Raise e) →
     r = Result (Ret None) w [Print_connect_error; Error_summarize_connect]) ∧
  ((∃ e, res r = Raise e) ↔
     sqlite w !! db_file = Some Vacant ∨
     sqlite w !! db_file = Some NotADatabase ∨
     ∃ d, sqlite w !! db_file = Some (Db d) ∧ logs d = None) ∧
  (∀ e, res r = Raise e → is_sqlite_error e = true).
Proof.
  intros Hg Hc r. unfold r.
  rewrite sqlite3_connect_fails, summarize_log_run. split_and!.
  - intros d -> ->. by rewrite summary_of_no_rows.
  - destruct (sqlite w !! db_file) as [[| |d]|]; try done.
    by destruct (logs d).
  - by intros ->.
  - destruct (sqlite w !! db_file) as [[| |d]|] eqn:Hs; cbn [res].
    + split; [by left|]. intros _. by eexists.
    + split; [by right; left|]. intros _. by eexists.
    + destruct (logs d) as [rows|] eqn:Hl; cbn [res].
      * split; [by intros [e He]|].
        intros [H|[H|(d0 & H & Hl0)]]; try done.
        injection H as <-. congruence.
      * split; [|intros _; by eexists].
        intros _. right. right. by exists d.
    + split; [by intros [e He]|]. by intros [H|[H|(d0 & H & _)]].
  - intros e. destruct (sqlite w !! db_file) as [[| |d]|]; cbn [res];
      try (by intros [= <-]); try done.
    destruct (logs d); cbn [res]; [done|]. by intros [= <-].
Qed.

End SummarizerFacts.

(** C7, as the code has it. [create_connection] never raises: when
    [sqlite3.connect] fails it reports the error and returns [None]; where
    there is no file yet and one can be created, it returns a connection
    to a new, empty database. *)
Theorem create_connection_returns_none_on_failure (db_file : path)
    (w : world) :
  let r := create_connection db_file w in
  (∀ e, res r ≠ Raise e) ∧
  ((∃ e, res (sqlite3_connect db_file w) = Raise e) →
     r = Result (Ret None) w [Print_connect_error]) ∧
  (sqlite w !! db_file = Some Vacant →
     res r = Ret (Some (Conn db_file None)) ∧
     sqlite (final r) !! db_file = Some (Db empty_database) ∧
     trace r = [Print_connected db_file]).
Proof.
  intros r. unfold r. rewrite sqlite3_connect_fails, create_connection_run.
  split_and!.
  - intros e. by destruct (sqlite w !! db_file) as [[| |d]|].
  - by intros ->.
  - intros ->. cbn [res final trace]. by rewrite created_lookup.
Qed.

Section Gate.
Variable unicode_decimal : N → bool.
Variable integer_affinity : str → sqlval.

(** The two guards of lines 107-113 test one condition. *)
Lemma skip_guards (first_run db_exists db_up_to_date db_empty : bool)
    (body : M unit) (w : world) :
  (if first_run && db_exists && db_up_to_date && negb db_empty then
     emit Info_first_run_skipping
   else if negb first_run && db_exists && db_up_to_date && negb db_empty then
     emit Info_skipping
   else body) w =
  if db_exists && db_up_to_date && negb db_empty then
    Result (Ret tt) w
      [if first_run then Info_first_run_skipping else Info_skipping]
  else body w.
Proof. by destruct first_run, db_exists, db_up_to_date, db_empty. Qed.

Lemma result_eta {A} (r : result A) : Result (res r) (final r) (trace r) = r.
Proof. by destruct r. Qed.

(** [run_etl_if_needed], decided: the skip of lines 107-113 or the ETL. *)
Lemma run_etl_if_needed_run (input_path db_file : path) (first_run : bool)
    (w : world) :
  run_etl_if_needed unicode_decimal integer_affinity input_path db_file
    first_run w =
  if fresh_and_populated w input_path db_file then
    Result (Ret tt) w
      [Print_connected db_file;
       if first_run then Info_first_run_skipping else Info_skipping]
  else
    let r := etl unicode_decimal integer_affinity input_path db_file
               (after_checks w db_file) in
    Result (res r) (final r) (checks_trace w db_file ++ trace r).
Proof.
  change (run_etl_if_needed unicode_decimal integer_affinity input_path
            db_file first_run)
    with (db_exists ← os_path_exists db_file;
          db_up_to_date ← (if db_exists
                           then is_db_up_to_date db_file input_path
                           else mret false);
          db_empty ← (if db_exists
                      then conn ← create_connection db_file; is_db_empty conn
                      else mret true);
          if first_run && db_exists && db_up_to_date && negb db_empty then
            emit Info_first_run_skipping
          else if negb first_run && db_exists && db_up_to_date && negb db_empty
          then emit Info_skipping
          else etl unicode_decimal integer_affinity input_path db_file).
  generalize (etl unicode_decimal integer_affinity input_path db_file).
  intros body. cbv [mbind M_bind].
  rewrite os_path_exists_run. cbn [res final trace].
  unfold fresh_and_populated, after_checks, checks_trace.
  destruct (mtimes w !! db_file) as [db_mtime|] eqn:Hdb;
    cbn [bool_decide decide_rel is_Some_dec res final trace mret M_ret].
  2:{ rewrite !skip_guards. done. }
  rewrite is_db_up_to_date_run. cbn [res final trace].
  rewrite create_connection_run.
  destruct (sqlite w !! db_file) as [[| |d]|] eqn:Hs; cbn [res final trace];
    rewrite is_db_empty_run; cbn [res final trace]; rewrite !skip_guards;
    unfold no_rows, visible, up_to_date; cbn [conn_tx conn_path];
    rewrite Hdb.
  - rewrite created_lookup. cbn.
    rewrite !andb_false_r. by destruct (mtimes w !! input_path).
  - rewrite Hs. cbn. rewrite !andb_false_r.
    by destruct (mtimes w !! input_path).
  - rewrite Hs.
    destruct (mtimes w !! input_path) as [log_mtime|]; cbn; [|done].
    destruct (bool_decide (log_mtime ≤ db_mtime)%Z); cbn; [|done].
    by destruct (logs d) as [[|row rows]|].
  - cbn. rewrite !andb_false_r. by destruct (mtimes w !! input_path).
Qed.

Lemma etl_trace (input_path db_file : path) (w : world) :
  ∃ rest, trace (etl unicode_decimal integer_affinity input_path db_file w) =
          Info_running_etl :: rest.
Proof.
  unfold etl. rewrite bind_run. cbn [emit res final trace].
  eexists. reflexivity.
Qed.

Lemma checks_trace_quiet (w : world) (db_file : path) :
  Info_running_etl ∉ checks_trace w db_file.
Proof.
  unfold checks_trace.
  destruct (mtimes w !! db_file); [destruct (sqlite w !! db_file)|];
    not_in_list.
Qed.

(** The ETL is entered exactly when the store is not fresh and populated. *)
Lemma etl_entered_iff (input_path db_file : path) (first_run : bool)
    (w : world) :
  Info_running_etl ∈
    trace (run_etl_if_needed unicode_decimal integer_affinity input_path
             db_file first_run w) ↔
  fresh_and_populated w input_path db_file = false.
Proof.
  rewrite run_etl_if_needed_run.
  destruct (fresh_and_populated w input_path db_file); cbn [trace].
  - split; [|done]. intros H. exfalso. revert H.
    destruct first_run; not_in_list.
  - split; [done|]. intros _.
    destruct (etl_trace input_path db_file (after_checks w db_file))
      as [rest ->].
    apply elem_of_app. right. apply list_elem_of_here.
Qed.

Lemma fresh_and_populated_true (input_path db_file : path) (w : world) :
  fresh_and_populated w input_path db_file = true ↔
  ∃ db_mtime log_mtime d row rows,
    mtimes w !! db_file = Some db_mtime ∧
    mtimes w !! input_path = Some log_mtime ∧
    (log_mtime ≤ db_mtime)%Z ∧
    sqlite w !! db_file = Some (Db d) ∧
    logs d = Some (row :: rows).
Proof.
  unfold fresh_and_populated. split.
  - destruct (mtimes w !! db_file) as [db_mtime|]; [|done].
    destruct (mtimes w !! input_path) as [log_mtime|]; [|done].
    destruct (sqlite w !! db_file) as [[| |d]|]; try done.
    intros [Hle Hrows]%andb_prop. apply bool_decide_eq_true in Hle.
    destruct (logs d) as [[|row rows]|] eqn:Hl; try done.
    by exists db_mtime, log_mtime, d, row, rows.
  - intros (db_mtime & log_mtime & d & row & rows & -> & -> & Hle & -> & ->).
    by rewrite bool_decide_true.
Qed.

(** C2. The load is skipped only when the store exists, is at least as
    recent as the source and has a row in [logs]; then nothing changes and
    the run only reports the skip. With the store missing, older than the
    source or without rows, the ETL runs. *)
Theorem load_skipped_only_when_current (input_path db_file : path)
    (first_run : bool) (w : world) :
  let r := run_etl_if_needed unicode_decimal integer_affinity input_path
             db_file first_run w in
  (Info_running_etl ∉ trace r ↔
     ∃ db_mtime log_mtime d row rows,
       mtimes w !! db_file = Some db_mtime ∧
       mtimes w !! input_path = Some log_mtime ∧
       (log_mtime ≤ db_mtime)%Z ∧
       sqlite w !! db_file = Some (Db d) ∧
       logs d = Some (row :: rows)) ∧
  (Info_running_etl ∉ trace r → res r = Ret tt ∧ final r = w) ∧
  (mtimes w !! db_file = None → Info_running_etl ∈ trace r) ∧
  (∀ db_mtime log_mtime,
     mtimes w !! db_file = Some db_mtime →
     mtimes w !! input_path = Some log_mtime →
     (db_mtime < log_mtime)%Z → Info_running_etl ∈ trace r) ∧
  (∀ d, sqlite w !! db_file = Some (Db d) → logs d = Some [] →
     Info_running_etl ∈ trace r).
Proof.
  intros r. unfold r. split_and!.
  - rewrite etl_entered_iff, <- fresh_and_populated_true.
    by destruct (fresh_and_populated w input_path db_file).
  - rewrite etl_entered_iff, run_etl_if_needed_run.
    by destruct (fresh_and_populated w input_path db_file).
  - intros Hdb. apply etl_entered_iff. unfold fresh_and_populated.
    by rewrite Hdb.
  - intros db_mtime log_mtime Hdb Hin Hlt. apply etl_entered_iff.
    unfold fresh_and_populated. rewrite Hdb, Hin.
    destruct (sqlite w !! db_file) as [[| |d]|]; try done.
    rewrite bool_decide_false by lia. done.
  - intros d Hd Hl. apply etl_entered_iff. unfold fresh_and_populated.
    rewrite Hd, Hl.
    destruct (mtimes w !! db_file), (mtimes w !! input_path); try done.
    apply andb_false_r.
Qed.

(** C8. With [first_run] set, a store that exists, is at least as recent as
    the source and has rows is left as it is: the run connects, reports the
    skip and inserts nothing. *)
Theorem first_run_on_current_store_inserts_nothing (input_path db_file : path)
    (w : world) (db_mtime log_mtime : Z) (d : database) (row : log_row)
    (rows : list log_row) :
  mtimes w !! db_file = Some db_mtime →
  mtimes w !! input_path = Some log_mtime →
  (log_mtime ≤ db_mtime)%Z →
  sqlite w !! db_file = Some (Db d) →
  logs d = Some (row :: rows) →
  let r := run_etl_if_needed unicode_decimal integer_affinity input_path
             db_file true w in
  r = Result (Ret tt) w [Print_connected db_file; Info_first_run_skipping] ∧
  sqlite (final r) !! db_file = Some (Db d) ∧
  (∀ n, (Print_inserted_logs n ∉ trace r) ∧
        (Print_inserted_errors n ∉ trace r)).
Proof.
  intros Hdb Hin Hle Hd Hl r.
  assert (Hr : r = Result (Ret tt) w
                     [Print_connected db_file; Info_first_run_skipping]).
  { unfold r. rewrite run_etl_if_needed_run.
    replace (fresh_and_populated w input_path db_file) with true; [done|].
    symmetry. apply fresh_and_populated_true.
    by exists db_mtime, log_mtime, d, row, rows. }
  rewrite Hr. cbn [final trace]. split_and!; [done|done|].
  intros n. split; not_in_list.
Qed.

(** C3, as the code has it. [first_run] does not force the load: with it
    the ETL runs exactly when the store is missing, older than the source
    or without rows, and then the run is the one made without the flag; on
    a current store the flag only selects the message of the skip. *)
Theorem first_run_decides_like_a_plain_run (input_path db_file : path)
    (w : world) :
  let run := run_etl_if_needed unicode_decimal integer_affinity input_path
               db_file in
  (Info_running_etl ∈ trace (run true w) ↔
     fresh_and_populated w input_path db_file = false) ∧
  (Info_running_etl ∈ trace (run true w) ↔
     Info_running_etl ∈ trace (run false w)) ∧
  (fresh_and_populated w input_path db_file = false →
     run true w = run false w) ∧
  (fresh_and_populated w input_path db_file = true →
     run true w =
       Result (Ret tt) w [Print_connected db_file; Info_first_run_skipping] ∧
     run false w =
       Result (Ret tt) w [Print_connected db_file; Info_skipping]).
Proof.
  intros run. unfold run. split_and!.
  - apply etl_entered_iff.
  - by rewrite !etl_entered_iff.
  - intros H. by rewrite !run_etl_if_needed_run, H.
  - intros H. by rewrite !run_etl_if_needed_run, H.
Qed.

Lemma os_path_getmtime_fails (p : path) (w : world) :
  (∃ e, res (os_path_getmtime p w) = Raise e) ↔ mtimes w !! p = None.
Proof.
  unfold os_path_getmtime. run_m.
  destruct (mtimes w !! p); split; try done;
    try (by intros [e He]); by exists OSError.
Qed.

(** C6. Errors push the gate towards loading. When the modification time
    of the store or of the source cannot be read, [is_db_up_to_date]
    answers [False] and the ETL runs; when the row count cannot be
    obtained, [is_db_empty] answers [True], and if that happens at the gate
    the ETL runs. *)
Theorem gate_is_conservative_on_errors (input_path db_file : path)
    (first_run : bool) (w : world) :
  let r := run_etl_if_needed unicode_decimal integer_affinity input_path
             db_file first_run w in
  ((∃ e, res (os_path_getmtime db_file w) = Raise e) ∨
   (∃ e, res (os_path_getmtime input_path w) = Raise e) →
     is_db_up_to_date db_file input_path w = Result (Ret false) w [] ∧
     Info_running_etl ∈ trace r) ∧
  (∀ conn w', (∃ e, res (count_logs conn w') = Raise e) →
     is_db_empty conn w' = Result (Ret true) w' []) ∧
  (∀ conn, res (create_connection db_file w) = Ret conn →
     (∃ e, res (count_logs conn (final (create_connection db_file w)))
           = Raise e) →
     Info_running_etl ∈ trace r).
Proof.
  intros r. unfold r. rewrite !os_path_getmtime_fails. split_and!.
  - intros H. rewrite is_db_up_to_date_run, etl_entered_iff.
    unfold up_to_date, fresh_and_populated.
    destruct H as [-> | ->]; [done|].
    by destruct (mtimes w !! db_file).
  - intros conn w' [e He]. rewrite is_db_empty_run. do 2 f_equal.
    unfold no_rows, visible. destruct conn as [c|]; [|done].
    cbn [count_logs] in He. rewrite select_count_logs_run in He.
    destruct c as [p [d|]]; cbn [conn_tx conn_path] in *.
    + by destruct (logs d) as [[|row rows]|].
    + destruct (sqlite w' !! p) as [[| |d]|]; try done.
      by destruct (logs d) as [[|row rows]|].
  - intros conn Hconn [e He]. apply etl_entered_iff.
    destruct (fresh_and_populated w input_path db_file) eqn:Hf; [|done].
    apply fresh_and_populated_true in Hf
      as (db_mtime & log_mtime & d & row & rows & _ & _ & _ & Hd & Hl).
    rewrite create_connection_run, Hd in Hconn, He.
    cbn [res final] in Hconn, He. injection Hconn as <-.
    cbn [count_logs] in He. rewrite select_count_logs_run in He.
    cbn [conn_tx conn_path] in He. by rewrite Hd, Hl in He.
Qed.

End Gate.

(* ===================================================================== *)
(** ** The store only grows *)
(* ===================================================================== *)

Lemma table_extends_refl {A} (t : option (list A)) : table_extends t t.
Proof. intros rows ->. exists []. by rewrite app_nil_r. Qed.

Lemma table_extends_trans {A} (t1 t2 t3 : option (list A)) :
  table_extends t1 t2 → table_extends t2 t3 → table_extends t1 t3.
Proof.
  intros H12 H23 rows [more1 H2]%H12. apply H23 in H2 as [more2 ->].
  exists (more1 ++ more2). by rewrite app_assoc.
Qed.

Lemma table_extends_None {A} (t : option (list A)) : table_extends None t.
Proof. by intros rows. Qed.

Lemma table_extends_app {A} (rows more : list A) :
  table_extends (Some rows) (Some (rows ++ more)).
Proof. intros ? [= <-]. by exists more. Qed.

Lemma db_extends_refl (d : database) : db_extends d d.
Proof. split; apply table_extends_refl. Qed.

Lemma db_extends_trans (d1 d2 d3 : database) :
  db_extends d1 d2 → db_extends d2 d3 → db_extends d1 d3.
Proof. intros [] []. split; by eapply table_extends_trans. Qed.

Lemma world_extends_refl (w : world) : world_extends w w.
Proof. intros p d ->. exists d. split; [done|apply db_extends_refl]. Qed.

Lemma world_extends_trans (w1 w2 w3 : world) :
  world_extends w1 w2 → world_extends w2 w3 → world_extends w1 w3.
Proof.
  intros H12 H23 p d (d2 & H2 & He2)%H12. apply H23 in H2 as (d3 & H3 & He3).
  exists d3. split; [done|]. by eapply db_extends_trans.
Qed.

(** Writing a database that extends what the file held. *)
Lemma world_extends_written (w : world) (p : path) (d' : database) :
  (∀ d, sqlite w !! p = Some (Db d) → db_extends d d') →
  world_extends w (written p d' w).
Proof.
  intros H q d Hq. destruct (decide (p = q)) as [<-|Hne].
  - rewrite written_lookup. exists d'. split; [done|]. by apply H.
  - rewrite written_lookup_ne by done. exists d.
    split; [done|apply db_extends_refl].
Qed.

Lemma world_extends_created (w : world) (p : path) :
  sqlite w !! p = Some Vacant → world_extends w (created p w).
Proof.
  intros H. apply (world_extends_written w p empty_database).
  intros d Hd. congruence.
Qed.

(** *** Rules for [wp] *)

Lemma wp_bind {A B} (m : M A) (f : A → M B) (w : world)
    (Q : outcome B → world → Prop) :
  wp m w (fun o w1 => match o with
                      | Ret a => wp (f a) w1 Q
                      | Raise e => Q (Raise e) w1
                      end) →
  wp (m ≫= f) w Q.
Proof. unfold wp. rewrite bind_run. by destruct (res (m w)). Qed.

Lemma wp_try {A} (body : M A) (catches : exn → bool) (handler : exn → M A)
    (w : world) (Q : outcome A → world → Prop) :
  wp body w (fun o w1 => match o with
                         | Ret a => Q (Ret a) w1
                         | Raise e => if catches e then wp (handler e) w1 Q
                                      else Q (Raise e) w1
                         end) →
  wp (try_except body catches handler) w Q.
Proof.
  unfold wp, try_except. destruct (res (body w)) as [a|e] eqn:Hr.
  - by rewrite Hr.
  - destruct (catches e); [done|]. by rewrite Hr.
Qed.

Lemma wp_mono {A} (m : M A) (w : world) (Q Q' : outcome A → world → Prop) :
  wp m w Q → (∀ o w', Q o w' → Q' o w') → wp m w Q'.
Proof. unfold wp. auto. Qed.

Lemma wp_ret {A} (a : A) (w : world) (Q : outcome A → world → Prop) :
  Q (Ret a) w → wp (mret a) w Q.
Proof. done. Qed.

Lemma wp_raise {A} (e : exn) (w : world) (Q : outcome A → world → Prop) :
  Q (Raise e) w → wp (raise e) w Q.
Proof. done. Qed.

Lemma wp_emit (ev : event) (w : world) (Q : outcome unit → world → Prop) :
  Q (Ret tt) w → wp (emit ev) w Q.
Proof. done. Qed.

Lemma wp_get_world (w : world) (Q : outcome world → world → Prop) :
  Q (Ret w) w → wp get_world w Q.
Proof. done. Qed.

(** *** The statements of SQLite *)

Lemma wp_current (c : connection) (w : world)
    (Q : outcome database → world → Prop) :
  (∀ d, visible c w = Some d → Q (Ret d) w) →
  (∀ e, visible c w = None → Q (Raise e) w) →
  wp (current c) w Q.
Proof.
  unfold wp, current, visible. intros HQ HE.
  destruct (conn_tx c) as [d|]; [by apply HQ|]. run_m.
  destruct (sqlite w !! conn_path c) as [[| |d]|]; auto.
Qed.

Lemma visible_extends (c : connection) (w : world) (d d0 : database) :
  conn_ok w c → visible c w = Some d →
  sqlite w !! conn_path c = Some (Db d0) → db_extends d0 d.
Proof.
  unfold visible. intros Hok Hv Hd0. destruct (conn_tx c) as [dtx|] eqn:Htx.
  - injection Hv as <-. by eapply Hok.
  - rewrite Hd0 in Hv. injection Hv as <-. apply db_extends_refl.
Qed.

Lemma store_keeps (w0 w : world) (c : connection) (dml : bool)
    (d d' : database) :
  world_extends w0 w → conn_ok w c → visible c w = Some d →
  db_extends d d' →
  wp (store c dml d') w (keeps w0).
Proof.
  intros H0 Hok Hv Hd. unfold wp, store, write_db.
  assert (Hconn : conn_ok w (Conn (conn_path c) (Some d'))).
  { intros d1 d0 [= <-] Hd0. cbn in Hd0.
    eapply db_extends_trans; [|done]. by apply (visible_extends c w). }
  destruct (conn_tx c) as [dtx|] eqn:Htx; [by split|].
  destruct dml; [by split|]. run_m. split.
  - eapply world_extends_trans; [done|].
    apply world_extends_written. intros d0 Hd0.
    eapply db_extends_trans; [|done]. by apply (visible_extends c w).
  - intros d1 d0 Hd1. congruence.
Qed.

Lemma commit_keeps (w0 w : world) (c : connection) :
  world_extends w0 w → conn_ok w c → wp (commit c) w (keeps w0).
Proof.
  intros H0 Hok. unfold wp, commit, write_db.
  destruct (conn_tx c) as [d|] eqn:Htx; run_m; [|by split].
  split; [|by intros ? ? [=]].
  eapply world_extends_trans; [done|].
  apply world_extends_written. intros d0 Hd0. by eapply Hok.
Qed.

Lemma create_logs_keeps (w0 w : world) (c : connection) :
  world_extends w0 w → conn_ok w c →
  wp (create_logs_if_not_exists c) w (keeps w0).
Proof.
  intros H0 Hok. apply wp_bind, wp_current; [|by split].
  intros d Hv. destruct (logs d) eqn:Hl; [by split|].
  eapply store_keeps; try done.
  split; cbn; [rewrite Hl; apply table_extends_None|apply table_extends_refl].
Qed.

Lemma create_errors_keeps (w0 w : world) (c : connection) :
  world_extends w0 w → conn_ok w c →
  wp (create_errors_if_not_exists c) w (keeps w0).
Proof.
  intros H0 Hok. apply wp_bind, wp_current; [|by split].
  intros d Hv. destruct (errors d) eqn:Hl; [by split|].
  eapply store_keeps; try done.
  split; cbn; [apply table_extends_refl|rewrite Hl; apply table_extends_None].
Qed.

Lemma insert_into_logs_keeps (w0 w : world) (c : connection)
    (rows : list log_row) :
  world_extends w0 w → conn_ok w c →
  wp (insert_into_logs c rows) w (keeps w0).
Proof.
  intros H0 Hok. destruct rows as [|row rows]; [by split|].
  apply wp_bind, wp_current; [|by split].
  intros d Hv. destruct (logs d) as [old|] eqn:Hl; [|by split].
  eapply store_keeps; try done.
  split; cbn; [rewrite Hl; apply table_extends_app|apply table_extends_refl].
Qed.

Lemma insert_into_errors_keeps (w0 w : world) (c : connection)
    (rows : list (sqlval * sqlval)) :
  world_extends w0 w → conn_ok w c →
  wp (insert_into_errors c rows) w (keeps w0).
Proof.
  intros H0 Hok. destruct rows as [|row rows]; [by split|].
  apply wp_bind, wp_current; [|by split].
  intros d Hv. apply wp_bind, wp_get_world.
  destruct (errors d) as [old|] eqn:Hl; [|by split].
  eapply store_keeps; try done.
  split; cbn; [apply table_extends_refl|rewrite Hl; apply table_extends_app].
Qed.

(** *** The functions of database.py and etl_apache.py *)

Lemma wp_pure {A} (m : M A) (w : world) (Q : outcome A → world → Prop) :
  final (m w) = w → (∀ o, Q o w) → wp m w Q.
Proof. unfold wp. intros -> H. apply H. Qed.

(** Sequencing after a step that keeps the store. *)
Lemma keeps_then {B} (m : M connection) (f : connection → M B)
    (w0 w : world) (Q : outcome B → world → Prop) :
  wp m w (keeps w0) →
  (∀ c' w', world_extends w0 w' → conn_ok w' c' → wp (f c') w' Q) →
  (∀ e w', world_extends w0 w' → Q (Raise e) w') →
  wp (m ≫= f) w Q.
Proof.
  intros Hm Hf He. apply wp_bind. eapply wp_mono; [exact Hm|].
  intros [c'|e] w' [Hw Hc]; auto.
Qed.

Lemma getitem_pure (entry : gmap string value) (key : string) (w : world) :
  final (getitem entry key w) = w.
Proof. unfold getitem. by destruct (entry !! key). Qed.

Lemma bind_pure {A B} (m : M A) (f : A → M B) (w : world) :
  final (m w) = w → (∀ a, final (f a w) = w) → final ((m ≫= f) w) = w.
Proof.
  intros Hm Hf. rewrite bind_run. destruct (res (m w)); cbn; [|done].
  rewrite Hm. apply Hf.
Qed.

Lemma for_each_pure {A B} (f : A → M B) (l : list A) (w : world) :
  (∀ x, final (f x w) = w) → final (for_each f l w) = w.
Proof.
  intros Hf. induction l as [|x l IH]; [done|]. cbn [for_each].
  apply bind_pure; [apply Hf|]. intros y.
  apply bind_pure; [apply IH|]. done.
Qed.

Section StoreFacts.
Variable integer_affinity : str → sqlval.

Lemma row_of_entry_pure (entry : gmap string value) (w : world) :
  final (row_of_entry integer_affinity entry w) = w.
Proof.
  unfold row_of_entry.
  repeat (apply bind_pure; [apply getitem_pure|intros ?]). done.
Qed.

Lemma row_of_entry_complete (entry : gmap string value) (w : world) :
  complete entry →
  row_of_entry integer_affinity entry w =
  Result (Ret (row_of integer_affinity entry)) w [].
Proof.
  intros Hc. unfold row_of_entry, row_of, getitem.
  repeat match goal with
         | |- context [entry !! ?k] =>
             let v := fresh "v" in
             let H := fresh "H" in
             destruct (Hc k) as [v H];
             [unfold entry_keys; set_solver|rewrite !H; clear H]
         end.
  reflexivity.
Qed.

Lemma for_each_complete (entries : list (gmap string value)) (w : world) :
  Forall complete entries →
  for_each (row_of_entry integer_affinity) entries w =
  Result (Ret (List.map (row_of integer_affinity) entries)) w [].
Proof.
  induction 1 as [|entry entries Hc _ IH]; [done|]. cbn [for_each].
  rewrite bind_run, row_of_entry_complete by done. cbn [res final trace].
  rewrite bind_run, IH. done.
Qed.

Lemma create_table_keeps (w0 w : world) (c : connection) :
  conn_tx c = None → world_extends w0 w →
  wp (create_table c) w (keeps w0).
Proof.
  intros Htx H0.
  assert (Hc : ∀ w', conn_ok w' c) by (intros w' d d0; congruence).
  unfold create_table. apply wp_try.
  assert (He : ∀ e w', world_extends w0 w' →
    if is_sqlite_error e
    then wp (emit Print_create_error ≫= fun _ => mret c) w' (keeps w0)
    else keeps w0 (Raise e) w').
  { intros e w' Hw'. destruct (is_sqlite_error e); [|by split].
    apply wp_bind, wp_emit, wp_ret. by split. }
  eapply keeps_then; [by apply create_logs_keeps| |exact He].
  intros c1 w1 Hw1 Hc1.
  eapply keeps_then; [by apply create_errors_keeps| |exact He].
  intros c2 w2 Hw2 Hc2.
  eapply keeps_then; [by apply commit_keeps| |exact He].
  intros c3 w3 Hw3 Hc3. by split.
Qed.

Lemma insert_log_entries_keeps (w0 w : world) (c : connection)
    (entries : list (gmap string value)) :
  world_extends w0 w → conn_ok w c →
  wp (insert_log_entries integer_affinity c entries) w (keeps w0).
Proof.
  intros H0 Hok. destruct entries as [|entry entries]; [by split|].
  unfold insert_log_entries. apply wp_bind, wp_pure.
  { apply for_each_pure. intros x. apply row_of_entry_pure. }
  intros [rows|e]; [|by split].
  eapply keeps_then; [by apply insert_into_logs_keeps| |by split].
  intros c1 w1 Hw1 Hc1. by split.
Qed.

End StoreFacts.

Lemma insert_error_entries_keeps (w0 w : world) (c : connection)
    (error_entries : list str) :
  world_extends w0 w → conn_ok w c →
  wp (insert_error_entries c error_entries) w (keeps w0).
Proof.
  intros H0 Hok. destruct error_entries as [|line lines]; [by split|].
  unfold insert_error_entries.
  eapply keeps_then; [by apply insert_into_errors_keeps| |by split].
  intros c1 w1 Hw1 Hc1. by split.
Qed.

Lemma create_connection_keeps (w0 w : world) (db_file : path) :
  world_extends w0 w →
  wp (create_connection db_file) w
     (fun o w' => world_extends w0 w' ∧
                  ∃ conn, o = Ret conn ∧
                    ∀ c, conn = Some c → conn_tx c = None).
Proof.
  intros H0. unfold wp. rewrite create_connection_run.
  destruct (sqlite w !! db_file) as [[| |d]|] eqn:Hs; cbn [res final].
  - split; [|eexists; split; [done|by intros ? [= <-]]].
    eapply world_extends_trans; [done|by apply world_extends_created].
  - split; [done|]. eexists; split; [done|by intros ? [= <-]].
  - split; [done|]. eexists; split; [done|by intros ? [= <-]].
  - split; [done|]. by eexists.
Qed.

Lemma extract_run (log_file : path) (w : world) :
  extract log_file w =
  match texts w !! log_file with
  | Some content =>
      Result (Ret content) w [Info_extracted (length content) log_file]
  | None => Result (Raise OSError) w [Error_extracting]
  end.
Proof.
  unfold extract, read_text. run_m. by destruct (texts w !! log_file).
Qed.

Section LoadFacts.
Variable unicode_decimal : N → bool.
Variable integer_affinity : str → sqlval.

Lemma transform_run (log_content : str) (w : world) :
  transform unicode_decimal log_content w =
  Result (Ret (parse_log unicode_decimal log_content)) w
    [Info_transformed (length (parse_log unicode_decimal log_content).1);
     Info_found_errors (length (parse_log unicode_decimal log_content).2)].
Proof.
  unfold transform. by destruct (parse_log unicode_decimal log_content).
Qed.

Lemma load_keeps (w0 w : world) (parsed_entries : list (gmap string value))
    (error_entries : list str) (db_file : path) :
  world_extends w0 w →
  wp (load integer_affinity parsed_entries error_entries db_file) w
     (keeps_world w0).
Proof.
  intros H0. unfold load. apply wp_bind.
  eapply wp_mono; [by apply create_connection_keeps|].
  intros o w1 (Hw1 & conn & -> & Hconn).
  destruct conn as [c0|]; [|done].
  eapply keeps_then;
    [apply create_table_keeps; [by apply Hconn|exact Hw1]| |done].
  intros c1 w2 Hw2 Hc1.
  eapply keeps_then; [by apply insert_log_entries_keeps| |done].
  intros c2 w3 Hw3 Hc2.
  eapply keeps_then; [by apply insert_error_entries_keeps| |done].
  intros c3 w4 Hw4 Hc3.
  eapply keeps_then; [by apply commit_keeps| |done].
  intros c4 w5 Hw5 Hc4. done.
Qed.

Lemma etl_keeps (w0 w : world) (input_path db_file : path) :
  world_extends w0 w →
  wp (etl unicode_decimal integer_affinity input_path db_file) w
     (keeps_world w0).
Proof.
  intros H0. unfold etl. apply wp_bind, wp_emit. apply wp_bind.
  unfold wp at 1. rewrite extract_run.
  destruct (texts w !! input_path) as [content|]; cbn [res final]; [|done].
  apply wp_bind. unfold wp at 1. rewrite transform_run. cbn [res final].
  destruct (parse_log unicode_decimal content) as [parsed errs].
  apply wp_bind. eapply wp_mono; [by apply load_keeps|].
  by intros [[]|e] w1 Hw1.
Qed.

Lemma after_checks_extends (w : world) (db_file : path) :
  world_extends w (after_checks w db_file).
Proof.
  unfold after_checks. destruct (mtimes w !! db_file);
    [|apply world_extends_refl].
  destruct (sqlite w !! db_file) as [[| |d]|] eqn:Hs;
    try apply world_extends_refl.
  by apply world_extends_created.
Qed.

(** Whatever the run does and however it ends, every table it found is
    still there with its rows in place. *)
Lemma run_etl_if_needed_keeps (input_path db_file : path) (first_run : bool)
    (w : world) :
  world_extends w
    (final (run_etl_if_needed unicode_decimal integer_affinity input_path
              db_file first_run w)).
Proof.
  rewrite run_etl_if_needed_run.
  destruct (fresh_and_populated w input_path db_file); cbn [final].
  - apply world_extends_refl.
  - apply (etl_keeps w (after_checks w db_file)), after_checks_extends.
Qed.

End LoadFacts.

(* ===================================================================== *)
(** ** What a load adds *)
(* ===================================================================== *)

Lemma sees_then {B} (m : M connection) (f : connection → M B) (w : world)
    (p : path) (d : database) (now : Z) (Q : outcome B → world → Prop) :
  wp m w (sees p d now) →
  (∀ c' w', conn_path c' = p → visible c' w' = Some d → clock w' = now →
     wp (f c') w' Q) →
  wp (m ≫= f) w Q.
Proof.
  intros Hm Hf. apply wp_bind. eapply wp_mono; [exact Hm|].
  intros o w' (c' & -> & ? & ? & ?). auto.
Qed.

Lemma wp_current_visible (c : connection) (w : world) (d : database)
    (Q : outcome database → world → Prop) :
  visible c w = Some d → Q (Ret d) w → wp (current c) w Q.
Proof. intros Hv HQ. apply wp_current; intros; congruence. Qed.

Lemma sees_here (c : connection) (w : world) (d : database) :
  visible c w = Some d → sees (conn_path c) d (clock w) (Ret c) w.
Proof. intros Hv. by exists c. Qed.

Lemma store_sees (c : connection) (dml : bool) (d' : database) (w : world) :
  wp (store c dml d') w (sees (conn_path c) d' (clock w)).
Proof.
  unfold wp, store, write_db.
  destruct (conn_tx c) as [dtx|] eqn:Htx; [by eexists|].
  destruct dml; [by eexists|]. run_m. exists c. split_and!; try done.
  unfold visible. rewrite Htx. by rewrite written_lookup.
Qed.

Lemma database_eta (d : database) : Database (logs d) (errors d) = d.
Proof. by destruct d. Qed.

Lemma create_logs_sees (c : connection) (w : world) (d : database) :
  visible c w = Some d →
  wp (create_logs_if_not_exists c) w
     (sees (conn_path c) (Database (Some (default [] (logs d))) (errors d))
           (clock w)).
Proof.
  intros Hv. apply wp_bind, (wp_current_visible c w d); [done|].
  destruct (logs d) as [old|] eqn:Hl; cbn.
  - apply sees_here. by rewrite <- Hl, database_eta.
  - apply store_sees.
Qed.

Lemma create_errors_sees (c : connection) (w : world) (d : database) :
  visible c w = Some d →
  wp (create_errors_if_not_exists c) w
     (sees (conn_path c) (Database (logs d) (Some (default [] (errors d))))
           (clock w)).
Proof.
  intros Hv. apply wp_bind, (wp_current_visible c w d); [done|].
  destruct (errors d) as [old|] eqn:Hl; cbn.
  - apply sees_here. by rewrite <- Hl, database_eta.
  - apply store_sees.
Qed.

Lemma commit_sees (c : connection) (w : world) (d : database) :
  visible c w = Some d →
  wp (commit c) w
     (fun o w' => ∃ c', o = Ret c' ∧ conn_path c' = conn_path c ∧
                   conn_tx c' = None ∧
                   sqlite w' !! conn_path c = Some (Db d) ∧
                   clock w' = clock w).
Proof.
  unfold wp, commit, write_db, visible.
  destruct (conn_tx c) as [dtx|] eqn:Htx; run_m.
  - intros [= <-]. eexists. split_and!; try done. cbn [conn_path].
    by rewrite written_lookup.
  - intros Hv. exists c. split_and!; try done.
    by destruct (sqlite w !! conn_path c) as [[| |d0]|]; simplify_eq.
Qed.

Lemma insert_into_logs_sees (c : connection) (w : world) (d : database)
    (old rows : list log_row) :
  visible c w = Some d → logs d = Some old →
  wp (insert_into_logs c rows) w
     (sees (conn_path c) (Database (Some (old ++ rows)) (errors d)) (clock w)).
Proof.
  intros Hv Hl. destruct rows as [|row rows].
  - apply sees_here. by rewrite app_nil_r, <- Hl, database_eta.
  - apply wp_bind, (wp_current_visible c w d); [done|].
    rewrite Hl. apply store_sees.
Qed.

Lemma insert_into_errors_sees (c : connection) (w : world) (d : database)
    (old : list error_row) (rows : list (sqlval * sqlval)) :
  visible c w = Some d → errors d = Some old →
  wp (insert_into_errors c rows) w
     (sees (conn_path c)
           (Database (logs d)
              (Some (old ++ List.map (fun r => ErrorRow r.1 r.2 (clock w)) rows)))
           (clock w)).
Proof.
  intros Hv Hl. destruct rows as [|row rows].
  - apply sees_here. cbn. by rewrite app_nil_r, <- Hl, database_eta.
  - apply wp_bind, (wp_current_visible c w d); [done|].
    apply wp_bind, wp_get_world. rewrite Hl. apply store_sees.
Qed.

Lemma create_table_sees (c : connection) (w : world) (d : database) :
  visible c w = Some d →
  wp (create_table c) w
     (sees (conn_path c)
           (Database (Some (default [] (logs d))) (Some (default [] (errors d))))
           (clock w)).
Proof.
  intros Hv. unfold create_table. apply wp_try.
  eapply sees_then; [by apply create_logs_sees|].
  intros c1 w1 Hp1 Hv1 Hk1.
  eapply sees_then; [by apply create_errors_sees|].
  intros c2 w2 Hp2 Hv2 Hk2. cbn [logs errors] in Hv2.
  apply wp_bind. eapply wp_mono; [by apply commit_sees|].
  intros o w3 (c3 & -> & Hp3 & Htx3 & Hd3 & Hk3).
  apply wp_bind, wp_emit, wp_ret. exists c3. split_and!; try congruence.
  unfold visible. rewrite Htx3. rewrite Hp3, Hd3. done.
Qed.

Section LoadExact.
Variable unicode_decimal : N → bool.
Variable integer_affinity : str → sqlval.

Lemma insert_log_entries_sees (c : connection) (w : world) (d : database)
    (old : list log_row) (entries : list (gmap string value)) :
  Forall complete entries → visible c w = Some d → logs d = Some old →
  wp (insert_log_entries integer_affinity c entries) w
     (sees (conn_path c)
           (Database (Some (old ++ List.map (row_of integer_affinity) entries))
                     (errors d))
           (clock w)).
Proof.
  intros Hc Hv Hl. destruct entries as [|entry entries].
  - apply sees_here. cbn. by rewrite app_nil_r, <- Hl, database_eta.
  - unfold insert_log_entries. apply wp_bind. unfold wp at 1.
    rewrite for_each_complete by done. cbn [res final].
    eapply sees_then; [by apply insert_into_logs_sees|].
    intros c1 w1 Hp1 Hv1 Hk1. apply wp_bind, wp_emit, wp_ret.
    exists c1. by rewrite Hp1, Hk1.
Qed.

Lemma insert_error_entries_sees (c : connection) (w : world) (d : database)
    (old : list error_row) (error_entries : list str) :
  visible c w = Some d → errors d = Some old →
  wp (insert_error_entries c error_entries) w
     (sees (conn_path c)
           (Database (logs d)
              (Some (old ++ List.map
                              (fun line => ErrorRow (SqlText line) (SqlText [])
                                                    (clock w))
                              error_entries)))
           (clock w)).
Proof.
  intros Hv Hl. destruct error_entries as [|line lines].
  - apply sees_here. cbn. by rewrite app_nil_r, <- Hl, database_eta.
  - unfold insert_error_entries.
    eapply sees_then; [by apply insert_into_errors_sees|].
    intros c1 w1 Hp1 Hv1 Hk1. apply wp_bind, wp_emit, wp_ret.
    exists c1. rewrite Hp1, Hk1. split_and!; try done.
    rewrite Hv1. do 3 f_equal. by rewrite map_map.
Qed.

Lemma create_connection_opened (w : world) (db_file : path) (d : database) :
  opened_as w db_file = Some d →
  let r := create_connection db_file w in
  res r = Ret (Some (Conn db_file None)) ∧
  visible (Conn db_file None) (final r) = Some d ∧
  clock (final r) = clock w.
Proof.
  unfold opened_as, visible. rewrite create_connection_run. cbn [conn_tx conn_path].
  destruct (sqlite w !! db_file) as [[| |d0]|] eqn:Hs; try done;
    intros [= <-]; cbn [res final].
  - by rewrite created_lookup.
  - by rewrite Hs.
Qed.

(** A load into a database appends the rows of the entries to [logs] and
    the lines in error to [errors], creating a table that is not there. *)
Lemma load_appends (w : world) (db_file : path) (d : database)
    (parsed_entries : list (gmap string value)) (error_entries : list str) :
  opened_as w db_file = Some d → Forall complete parsed_entries →
  wp (load integer_affinity parsed_entries error_entries db_file) w
     (fun o w' =>
        o = Ret tt ∧
        sqlite w' !! db_file =
          Some (Db (Database
            (Some (default [] (logs d) ++
                   List.map (row_of integer_affinity) parsed_entries))
            (Some (default [] (errors d) ++
                   List.map (fun line => ErrorRow (SqlText line) (SqlText [])
                                           (clock w))
                            error_entries))))).
Proof.
  intros Hd Hc. unfold load. apply wp_bind. unfold wp at 1.
  destruct (create_connection_opened w db_file d Hd) as (-> & Hv & Hk0).
  eapply sees_then; [by apply create_table_sees|].
  intros c1 w1 Hp1 Hv1 Hk1.
  eapply sees_then; [by eapply insert_log_entries_sees|].
  intros c2 w2 Hp2 Hv2 Hk2.
  eapply sees_then; [by eapply insert_error_entries_sees|].
  intros c3 w3 Hp3 Hv3 Hk3. cbn [logs errors] in Hv3.
  apply wp_bind. eapply wp_mono; [by apply commit_sees|].
  intros o w4 (c4 & -> & Hp4 & Htx4 & Hd4 & Hk4).
  apply wp_bind, wp_ret, wp_emit. split; [done|].
  cbn [conn_path] in Hp1. rewrite Hp3, Hp2, Hp1 in Hd4.
  rewrite Hd4. by rewrite Hk2, Hk1, Hk0.
Qed.

End LoadExact.

(** *** Grouped counts *)

Lemma count_of_bump (k k' : sqlval) (acc : list (sqlval * nat)) :
  count_of k (bump k' acc) =
  (if decide (k = k') then 1 else 0) + count_of k acc.
Proof.
  induction acc as [|[k0 n] acc IH]; cbn.
  - by destruct (decide (k = k')).
  - destruct (decide (k' = k0)) as [->|Hne]; cbn.
    + by destruct (decide (k = k0)).
    + rewrite IH. destruct (decide (k = k0)) as [->|]; [|done].
      by rewrite decide_False.
Qed.

Lemma count_of_foldl (key : log_row → sqlval) (k : sqlval)
    (rows : list log_row) :
  ∀ acc,
  count_of k (foldl (fun acc r => bump (key r) acc) acc rows) =
  count_of k acc + length (filter (fun r => k = key r) rows).
Proof.
  induction rows as [|r rows IH]; intros acc; [cbn; lia|].
  rewrite filter_cons. cbn [foldl]. rewrite IH, count_of_bump.
  destruct (decide (k = key r)); cbn [length]; lia.
Qed.

(** The count reported for a key is the number of rows with that key. *)
Lemma count_of_group_count (key : log_row → sqlval) (k : sqlval)
    (rows : list log_row) :
  count_of k (group_count key rows) =
  length (filter (fun r => k = key r) rows).
Proof. unfold group_count. by rewrite count_of_foldl. Qed.

Lemma count_of_group_count_app (key : log_row → sqlval) (k : sqlval)
    (old new : list log_row) :
  count_of k (group_count key (old ++ new)) =
  count_of k (group_count key old) + count_of k (group_count key new).
Proof. by rewrite !count_of_group_count, filter_app, length_app. Qed.

(** *** What a grouped count says of the rows *)

Lemma bump_keys (k : sqlval) (acc : list (sqlval * nat)) :
  (bump k acc).*1 = if decide (k ∈ acc.*1) then acc.*1 else acc.*1 ++ [k].
Proof.
  induction acc as [|[k0 n] acc IH]; cbn [bump fmap list_fmap fst].
  - rewrite decide_False; [done|]. apply not_elem_of_nil.
  - destruct (decide (k = k0)) as [->|Hne]; cbn [fmap list_fmap fst].
    + rewrite decide_True; [done|]. apply list_elem_of_here.
    + change (list_fmap _ _ fst (bump k acc)) with ((bump k acc).*1).
      change (list_fmap _ _ fst acc) with (acc.*1). rewrite IH.
      destruct (decide (k ∈ acc.*1)) as [Hin|Hnin].
      * rewrite decide_True; [done|]. by apply list_elem_of_further.
      * rewrite decide_False; [done|].
        intros [?|?]%elem_of_cons; congruence.
Qed.

Lemma bump_nodup (k : sqlval) (acc : list (sqlval * nat)) :
  NoDup acc.*1 → NoDup (bump k acc).*1.
Proof.
  intros Hn. rewrite bump_keys. destruct (decide (k ∈ acc.*1)); [done|].
  apply NoDup_app. split_and!; [done| |apply NoDup_singleton].
  intros x Hx ->%list_elem_of_singleton. done.
Qed.

Lemma bump_positive (k : sqlval) (acc : list (sqlval * nat)) :
  Forall (fun p => 1 ≤ p.2) acc → Forall (fun p => 1 ≤ p.2) (bump k acc).
Proof.
  induction 1 as [|[k0 n] acc Hp Hacc IH]; cbn [bump].
  - by repeat constructor.
  - cbn [snd] in Hp. destruct (decide (k = k0)); constructor; cbn [snd];
      first [lia|done].
Qed.

Lemma bump_sum (k : sqlval) (acc : list (sqlval * nat)) :
  sum_list (bump k acc).*2 = S (sum_list acc.*2).
Proof.
  induction acc as [|[k0 n] acc IH]; [done|]. cbn [bump].
  destruct (decide (k = k0)); cbn; [done|].
  change (list_fmap _ _ snd (bump k acc)) with ((bump k acc).*2).
  change (list_fmap _ _ snd acc) with (acc.*2). rewrite IH. lia.
Qed.

Lemma group_count_invariant (key : log_row → sqlval) (rows : list log_row) :
  ∀ acc, NoDup acc.*1 → Forall (fun p => 1 ≤ p.2) acc →
  let groups := foldl (fun acc r => bump (key r) acc) acc rows in
  NoDup groups.*1 ∧ Forall (fun p => 1 ≤ p.2) groups ∧
  sum_list groups.*2 = sum_list acc.*2 + length rows.
Proof.
  induction rows as [|r rows IH]; intros acc Hn Hp; cbn [foldl length].
  - split_and!; [done..|lia].
  - destruct (IH (bump (key r) acc)) as (H1 & H2 & H3);
      [by apply bump_nodup|by apply bump_positive|].
    split_and!; [done..|]. rewrite H3, bump_sum. lia.
Qed.

Lemma count_of_listed (k : sqlval) (n : nat) (groups : list (sqlval * nat)) :
  NoDup groups.*1 → (k, n) ∈ groups → count_of k groups = n.
Proof.
  induction groups as [|[k0 n0] groups IH]; [by intros _ ?%elem_of_nil|].
  cbn [fmap list_fmap fst count_of]. intros [Hnin Hn]%NoDup_cons Hin.
  apply elem_of_cons in Hin as [[= -> ->]|Hin].
  - by rewrite decide_True.
  - destruct (decide (k = k0)) as [->|]; [|by apply IH].
    exfalso. apply Hnin. change k0 with ((k0, n).1).
    by apply list_elem_of_fmap_2.
Qed.

Lemma count_of_positive (k : sqlval) (groups : list (sqlval * nat)) :
  1 ≤ count_of k groups → k ∈ groups.*1.
Proof.
  induction groups as [|[k0 n0] groups IH]; cbn [count_of]; [lia|].
  cbn [fmap list_fmap fst]. destruct (decide (k = k0)) as [->|].
  - intros _. apply list_elem_of_here.
  - intros H. apply list_elem_of_further. by apply IH.
Qed.

Lemma rows_with_positive (key : log_row → sqlval) (r : log_row)
    (rows : list log_row) :
  r ∈ rows → 1 ≤ rows_with key (key r) rows.
Proof.
  intros Hin. unfold rows_with.
  assert (Hf : r ∈ filter (fun r' => key r = key r') rows)
    by (by apply list_elem_of_filter).
  destruct (filter _ rows); [by apply elem_of_nil in Hf|]. cbn. lia.
Qed.

(** The groups of a query: one per key, with the number of its rows. *)
Lemma group_count_distribution (key : log_row → sqlval)
    (rows : list log_row) :
  distribution_of key rows (group_count key rows) ∧
  sum_list (group_count key rows).*2 = length rows.
Proof.
  destruct (group_count_invariant key rows []) as (Hn & Hp & Hs);
    [apply NoDup_nil_2|constructor|].
  fold (group_count key rows) in Hn, Hp, Hs. split; [|done].
  split; [split; [done|]|].
  - intros k n Hin. split.
    + rewrite <- (count_of_listed k n _ Hn Hin). apply count_of_group_count.
    + by apply (proj1 (Forall_forall _ _) Hp (k, n)).
  - intros r Hin. apply count_of_positive.
    rewrite count_of_group_count. by apply rows_with_positive.
Qed.

Lemma tally_of_perm (key : log_row → sqlval) (rows : list log_row)
    (groups groups' : list (sqlval * nat)) :
  groups' ≡ₚ groups → tally_of key rows groups → tally_of key rows groups'.
Proof.
  intros Hp [Hn He]. split; [by rewrite Hp|].
  intros k n Hin. apply He. by rewrite <- Hp.
Qed.

(** The groups of a plain GROUP BY, in the order of the engine. *)
Lemma arranged_distribution (order : list (sqlval * nat) → list (sqlval * nat))
    (key : log_row → sqlval) (rows : list log_row) :
  arranges order →
  distribution_of key rows (order (group_count key rows)) ∧
  sum_list (order (group_count key rows)).*2 = length rows.
Proof.
  intros Ho. destruct (group_count_distribution key rows) as [[Ht Hc] Hs].
  pose proof (Ho (group_count key rows)) as Hp. split; [split|].
  - by apply (tally_of_perm key rows (group_count key rows)).
  - intros r Hr. rewrite Hp. by apply Hc.
  - rewrite <- Hs. by rewrite Hp.
Qed.

(** The ten first groups of a list in order of decreasing count. *)
Lemma top10_of_sorted (key : log_row → sqlval) (rows : list log_row)
    (sorted : list (sqlval * nat)) :
  sorted ≡ₚ group_count key rows →
  StronglySorted (fun a b => b.2 ≤ a.2) sorted →
  top10_of key rows (take 10 sorted).
Proof.
  intros Hperm Hsorted.
  destruct (group_count_distribution key rows) as [[[Hn He] Hc] _].
  assert (Hs : StronglySorted (fun a b => b.2 ≤ a.2)
                 (take 10 sorted ++ drop 10 sorted))
    by (by rewrite take_drop).
  split_and!.
  - split.
    + rewrite fmap_take. eapply sublist_NoDup; [|apply sublist_take].
      by rewrite Hperm.
    + intros k n Hin. apply He. rewrite <- Hperm.
      by apply (subseteq_take 10 sorted).
  - rewrite length_take. lia.
  - by apply StronglySorted_app_1_l in Hs.
  - intros r Hr Hout.
    assert (Hin : ∃ m, (key r, m) ∈ sorted).
    { specialize (Hc r Hr). rewrite <- Hperm in Hc.
      apply list_elem_of_fmap in Hc as ([k m] & Hk & Hin). cbn in Hk.
      subst k. by exists m. }
    destruct Hin as [m Hin].
    rewrite <- (take_drop 10 sorted) in Hin.
    apply elem_of_app in Hin as [Hin|Hin].
    { exfalso. apply Hout. change (key r) with ((key r, m).1).
      by apply list_elem_of_fmap_2. }
    assert (Hm : m = rows_with key (key r) rows).
    { apply He. rewrite <- Hperm. by apply (subseteq_drop 10 sorted). }
    split.
    + rewrite length_take. destruct (decide (length sorted ≤ 10)) as [Hle|];
        [|lia].
      rewrite drop_ge in Hin by done. by apply elem_of_nil in Hin.
    + intros k n Hk. rewrite <- Hm.
      apply (StronglySorted_app_1_elem_of _ _ _ _ _ Hs Hk Hin).
Qed.

Lemma ranked_top10 (order : list (sqlval * nat) → list (sqlval * nat))
    (key : log_row → sqlval) (rows : list log_row) :
  ranks order → top10_of key rows (take 10 (order (group_count key rows))).
Proof.
  intros Ho. destruct (Ho (group_count key rows)) as [Hp Hs].
  by apply top10_of_sorted.
Qed.

Lemma summary_of_summarizes
    (group_order count_order : list (sqlval * nat) → list (sqlval * nat))
    (rows : list log_row) :
  arranges group_order → ranks count_order →
  summarizes rows (summary_of group_order count_order rows).
Proof.
  intros Hg Hc. unfold summarizes, summary_of. cbn. split_and!.
  - by apply ranked_top10.
  - by apply arranged_distribution.
  - by apply ranked_top10.
Qed.

Lemma rows_with_app (key : log_row → sqlval) (k : sqlval)
    (old new : list log_row) :
  rows_with key k (old ++ new) = rows_with key k old + rows_with key k new.
Proof. unfold rows_with. by rewrite filter_app, length_app. Qed.

(** *** The engine of the examples *)

Lemma insert_key_perm (x : sqlval * nat) (l : list (sqlval * nat)) :
  insert_key x l ≡ₚ x :: l.
Proof.
  induction l as [|y l IH]; [done|]. cbn [insert_key].
  destruct (key_leb x.1 y.1); [done|]. rewrite IH. apply Permutation_swap.
Qed.

Lemma key_ascending_arranges : arranges key_ascending.
Proof.
  intros l. unfold key_ascending. induction l as [|x l IH]; [done|].
  cbn [foldr]. by rewrite insert_key_perm, IH.
Qed.

Lemma insert_desc_perm (x : sqlval * nat) (l : list (sqlval * nat)) :
  insert_desc x l ≡ₚ x :: l.
Proof.
  induction l as [|y l IH]; [done|]. cbn [insert_desc].
  destruct (y.2 <? x.2); [done|]. rewrite IH. apply Permutation_swap.
Qed.

Lemma order_by_count_desc_perm (l : list (sqlval * nat)) :
  order_by_count_desc l ≡ₚ l.
Proof.
  unfold order_by_count_desc. induction l as [|x l IH]; [done|].
  cbn [foldr]. by rewrite insert_desc_perm, IH.
Qed.

Lemma insert_desc_sorted (x : sqlval * nat) (l : list (sqlval * nat)) :
  StronglySorted (fun a b => b.2 ≤ a.2) l →
  StronglySorted (fun a b => b.2 ≤ a.2) (insert_desc x l).
Proof.
  induction l as [|y l IH]; cbn [insert_desc]; [by repeat constructor|].
  intros [Hy Hl]%StronglySorted_cons.
  destruct (Nat.ltb_spec y.2 x.2) as [Hlt|Hge].
  - apply StronglySorted_cons. split; [|by apply StronglySorted_cons].
    constructor; [lia|]. eapply Forall_impl; [exact Hy|]. cbn. lia.
  - apply StronglySorted_cons. split; [|by apply IH].
    rewrite insert_desc_perm. by constructor.
Qed.

Lemma order_by_count_desc_sorted (l : list (sqlval * nat)) :
  StronglySorted (fun a b => b.2 ≤ a.2) (order_by_count_desc l).
Proof.
  unfold order_by_count_desc. induction l as [|x l IH]; [constructor|].
  cbn [foldr]. by apply insert_desc_sorted.
Qed.

Lemma count_descending_ranks : ranks count_descending.
Proof.
  intros l. unfold count_descending. split.
  - rewrite order_by_count_desc_perm. apply key_ascending_arranges.
  - apply order_by_count_desc_sorted.
Qed.

Section Reload.
Variable unicode_decimal : N → bool.
Variable integer_affinity : str → sqlval.
Variable group_order : list (sqlval * nat) → list (sqlval * nat).
Variable count_order : list (sqlval * nat) → list (sqlval * nat).

Lemma after_checks_opened (w : world) (db_file : path) (d : database) :
  opened_as w db_file = Some d →
  opened_as (after_checks w db_file) db_file = Some d ∧
  texts (after_checks w db_file) = texts w ∧
  clock (after_checks w db_file) = clock w.
Proof.
  unfold after_checks, opened_as.
  destruct (mtimes w !! db_file); [|done].
  destruct (sqlite w !! db_file) as [[| |d0]|] eqn:Hs; try done.
  - intros [= <-]. by rewrite created_lookup.
  - intros [= <-]. by rewrite Hs.
Qed.

(** A run that loads appends the rows of the file to the database it
    opens. *)
Lemma run_appends (input_path db_file : path) (first_run : bool) (w : world)
    (d : database) (content : str) :
  opened_as w db_file = Some d →
  texts w !! input_path = Some content →
  fresh_and_populated w input_path db_file = false →
  let r := run_etl_if_needed unicode_decimal integer_affinity input_path
             db_file first_run w in
  res r = Ret tt ∧
  sqlite (final r) !! db_file =
    Some (Db (Database
      (Some (default [] (logs d) ++
             log_rows unicode_decimal integer_affinity content))
      (Some (default [] (errors d) ++
             error_rows unicode_decimal content (clock w))))).
Proof.
  intros Hd Ht Hf r. unfold r. rewrite run_etl_if_needed_run, Hf.
  destruct (after_checks_opened w db_file d Hd) as (Hd' & Ht' & Hk').
  rewrite <- Ht' in Ht. rewrite <- Hk'. cbn zeta. cbn [res final].
  clear Ht' Hk' Hd Hf r.
  generalize dependent (after_checks w db_file). clear w.
  intros w Ht Hd.
  change (wp (etl unicode_decimal integer_affinity input_path db_file) w
            (fun o w' => o = Ret tt ∧ sqlite w' !! db_file =
               Some (Db (Database
                 (Some (default [] (logs d) ++
                        log_rows unicode_decimal integer_affinity content))
                 (Some (default [] (errors d) ++
                        error_rows unicode_decimal content (clock w))))))).
  unfold etl. apply wp_bind, wp_emit. apply wp_bind. unfold wp at 1.
  rewrite extract_run, Ht. cbn [res final].
  apply wp_bind. unfold wp at 1. rewrite transform_run. cbn [res final].
  unfold log_rows, error_rows.
  pose proof (parse_log_complete unicode_decimal content) as Hc.
  destruct (parse_log unicode_decimal content) as [parsed errs].
  cbn [fst snd] in *. apply wp_bind.
  eapply wp_mono; [by apply load_appends|].
  intros o w' [-> Hw']. done.
Qed.

(** After a load of a file without a single matching line into a store
    that had no table or no row, the summary is empty. *)
Lemma summarize_log_after_empty_load (input_path db_file : path)
    (first_run : bool) (w : world) (d : database) (content : str) :
  arranges group_order → ranks count_order →
  opened_as w db_file = Some d →
  default [] (logs d) = [] →
  texts w !! input_path = Some content →
  (parse_log unicode_decimal content).1 = [] →
  let r := run_etl_if_needed unicode_decimal integer_affinity input_path
             db_file first_run w in
  res (summarize_log group_order count_order db_file (final r)) =
  Ret (Some (Summary [] [] [])).
Proof.
  intros Hg Hc Hd Hl Ht Hp r.
  assert (Hf : fresh_and_populated w input_path db_file = false).
  { unfold fresh_and_populated. unfold opened_as in Hd.
    destruct (mtimes w !! db_file), (mtimes w !! input_path); try done.
    destruct (sqlite w !! db_file) as [[| |d0]|]; try done.
    injection Hd as ->.
    destruct (logs d) as [[|row rows]|]; try done; apply andb_false_r. }
  destruct (run_appends input_path db_file first_run w d content Hd Ht Hf)
    as [_ Hfinal].
  fold r in Hfinal. rewrite summarize_log_run, Hfinal. cbn [logs res].
  unfold log_rows. rewrite Hl, Hp. cbn [List.map app].
  by rewrite summary_of_no_rows.
Qed.

(** C10. The load only appends. Whatever a run does, every table it found
    is still there with its rows in place; and when the ETL runs against a
    store that already has its tables (the store is stale or has no rows),
    the rows of the file are added after the rows already there, so that
    each grouped count is the count over the old rows plus the count over
    the rows of the file. The summary is then taken over both: whatever
    the order the engine returns groups in, every count it lists is the
    number of old rows plus the number of new rows with that key. *)
Theorem load_appends_and_never_replaces (input_path db_file : path)
    (first_run : bool) (w : world) :
  arranges group_order → ranks count_order →
  let r := run_etl_if_needed unicode_decimal integer_affinity input_path
             db_file first_run w in
  world_extends w (final r) ∧
  (∀ old old_errors content,
     sqlite w !! db_file = Some (Db (Database (Some old) (Some old_errors))) →
     texts w !! input_path = Some content →
     fresh_and_populated w input_path db_file = false →
     let new := log_rows unicode_decimal integer_affinity content in
     res r = Ret tt ∧
     sqlite (final r) !! db_file =
       Some (Db (Database
         (Some (old ++ new))
         (Some (old_errors ++ error_rows unicode_decimal content (clock w))))) ∧
     (∀ key k,
        count_of k (group_count key (old ++ new)) =
        count_of k (group_count key old) + count_of k (group_count key new)) ∧
     ∃ s,
       res (summarize_log group_order count_order db_file (final r)) =
         Ret (Some s) ∧
       summarizes (old ++ new) s ∧
       (∀ k n, (k, n) ∈ top_endpoints s →
          n = rows_with r_path k old + rows_with r_path k new) ∧
       (∀ k n, (k, n) ∈ status_code_distribution s →
          n = rows_with r_status_code k old + rows_with r_status_code k new) ∧
       (∀ k n, (k, n) ∈ top_client_ips s →
          n = rows_with r_ipaddress k old + rows_with r_ipaddress k new)).
Proof.
  intros Hg Hc r. split; [apply run_etl_if_needed_keeps|].
  intros old old_errors content Hd Ht Hf new.
  assert (Ho : opened_as w db_file =
               Some (Database (Some old) (Some old_errors)))
    by (unfold opened_as; by rewrite Hd).
  destruct (run_appends input_path db_file first_run w _ content Ho Ht Hf)
    as [Hres Hfinal].
  fold r in Hres, Hfinal. cbn [logs errors default] in Hfinal.
  split_and!; try done.
  - intros key k. apply count_of_group_count_app.
  - exists (summary_of group_order count_order (old ++ new)).
    pose proof (summary_of_summarizes group_order count_order (old ++ new)
                  Hg Hc) as Hsum.
    split; [by rewrite summarize_log_run, Hfinal|]. split; [exact Hsum|].
    destruct Hsum as ([[_ H1] _] & [[_ H2] _] & [[_ H3] _]).
    split_and!; intros k n Hin; rewrite <- rows_with_app;
      [by apply H1|by apply H2|by apply H3].
Qed.

End Reload.

(* ===================================================================== *)
(** ** The properties on concrete machines *)
(* ===================================================================== *)

Example parse_log_sample :
  parse_log ascii_decimal sample_log =
  ([entry_of_match sample_groups; entry_of_match sample_groups], [bad_line]).
Proof. vm_compute. reflexivity. Qed.

(** Under MULTILINE [$] also matches before a LF, so a string that is not
    one line of [splitlines] can match with text left over; such a string
    is not recovered from its fields. *)
Example dollar_before_newline :
  Re.match_ (log_pattern ascii_decimal) (sample_line ++ [10%N] ++ bad_line)
    = Some sample_groups ∧
  canonical_form (entry_of_match sample_groups)
    ≠ sample_line ++ [10%N] ++ bad_line.
Proof. split; [vm_compute; reflexivity|]. vm_compute. discriminate. Qed.

Lemma loaded_world_facts :
  mtimes loaded_world !! "logs.db" = Some 50%Z ∧
  mtimes loaded_world !! "access.log" = Some 40%Z ∧
  sqlite loaded_world !! "logs.db" =
    Some (Db (Database (Some [sample_row]) (Some []))).
Proof. vm_compute. done. Qed.

Lemma stale_world_facts :
  mtimes stale_world !! "logs.db" = Some 50%Z ∧
  mtimes stale_world !! "access.log" = Some 55%Z ∧
  sqlite stale_world !! "logs.db" =
    Some (Db (Database (Some [sample_row]) (Some []))) ∧
  texts stale_world !! "access.log" = Some sample_log ∧
  fresh_and_populated stale_world "access.log" "logs.db" = false.
Proof. vm_compute. done. Qed.

Lemma load_skipped_only_when_current_witness :
  let r := run_etl_if_needed ascii_decimal ascii_integer_affinity
             "access.log" "logs.db" false loaded_world in
  let r' := run_etl_if_needed ascii_decimal ascii_integer_affinity
              "access.log" "logs.db" false stale_world in
  ((Info_running_etl ∉ trace r) ∧ res r = Ret tt ∧ final r = loaded_world) ∧
  Info_running_etl ∈ trace r'.
Proof.
  intros r r'.
  destruct (load_skipped_only_when_current ascii_decimal
              ascii_integer_affinity "access.log" "logs.db" false loaded_world)
    as (Hiff & Hskip & _).
  destruct (load_skipped_only_when_current ascii_decimal
              ascii_integer_affinity "access.log" "logs.db" false stale_world)
    as (_ & _ & _ & Hold & _).
  destruct loaded_world_facts as (Hdb & Hin & Hs).
  destruct stale_world_facts as (Hdb' & Hin' & _).
  assert (Hr : Info_running_etl ∉ trace r).
  { apply Hiff. exists 50%Z, 40%Z, (Database (Some [sample_row]) (Some [])),
      sample_row, []. split_and!; try done. }
  split; [split; [exact Hr|exact (Hskip Hr)]|].
  apply (Hold 50%Z 55%Z Hdb' Hin'). lia.
Defined.

(** With [first_run] set and a current store, the ETL is not entered and
    the machine is left as it was. *)
Lemma first_run_load_not_forced :
  let r := run_etl_if_needed ascii_decimal ascii_integer_affinity
             "access.log" "logs.db" true loaded_world in
  (Info_running_etl ∉ trace r) ∧ final r = loaded_world.
Proof.
  intros r.
  assert (Ht : trace r = [Print_connected "logs.db"; Info_first_run_skipping])
    by (vm_compute; reflexivity).
  split; [rewrite Ht; not_in_list|]. vm_compute. reflexivity.
Qed.

Lemma first_run_decides_like_a_plain_run_witness :
  fresh_and_populated loaded_world "access.log" "logs.db" = true ∧
  run_etl_if_needed ascii_decimal ascii_integer_affinity
    "access.log" "logs.db" true loaded_world =
  Result (Ret tt) loaded_world
         [Print_connected "logs.db"; Info_first_run_skipping] ∧
  fresh_and_populated stale_world "access.log" "logs.db" = false ∧
  run_etl_if_needed ascii_decimal ascii_integer_affinity
    "access.log" "logs.db" true stale_world =
  run_etl_if_needed ascii_decimal ascii_integer_affinity
    "access.log" "logs.db" false stale_world.
Proof.
  destruct (first_run_decides_like_a_plain_run ascii_decimal
              ascii_integer_affinity "access.log" "logs.db" loaded_world)
    as (_ & _ & _ & Hskip).
  destruct (first_run_decides_like_a_plain_run ascii_decimal
              ascii_integer_affinity "access.log" "logs.db" stale_world)
    as (_ & _ & Hsame & _).
  assert (H1 : fresh_and_populated loaded_world "access.log" "logs.db" = true)
    by (vm_compute; reflexivity).
  assert (H2 : fresh_and_populated stale_world "access.log" "logs.db" = false)
    by (vm_compute; reflexivity).
  split; [exact H1|]. split; [exact (proj1 (Hskip H1))|].
  split; [exact H2|exact (Hsame H2)].
Defined.

Lemma summarize_log_empty_store_witness :
  let summarize := summarize_log key_ascending count_descending "logs.db" in
  sqlite empty_store_world !! "logs.db" =
    Some (Db (Database (Some []) (Some []))) ∧
  summarize empty_store_world =
    Result (Ret (Some (Summary [] [] []))) empty_store_world
           [Print_connected "logs.db"; Info_summary_generated] ∧
  (∃ e, res (sqlite3_connect "logs.db" locked_world) = Raise e) ∧
  summarize locked_world =
    Result (Ret None) locked_world
           [Print_connect_error; Error_summarize_connect] ∧
  (∃ e, res (summarize corrupt_world) = Raise e).
Proof.
  intros summarize.
  destruct (summarize_log_empty_store key_ascending count_descending
              "logs.db" empty_store_world key_ascending_arranges
              count_descending_ranks) as (Hempty & _ & _ & _ & _).
  destruct (summarize_log_empty_store key_ascending count_descending
              "logs.db" locked_world key_ascending_arranges
              count_descending_ranks) as (_ & _ & Hnone & _ & _).
  destruct (summarize_log_empty_store key_ascending count_descending
              "logs.db" corrupt_world key_ascending_arranges
              count_descending_ranks) as (_ & _ & _ & Hraise & _).
  assert (H1 : sqlite empty_store_world !! "logs.db" =
               Some (Db (Database (Some []) (Some []))))
    by (vm_compute; reflexivity).
  assert (H2 : ∃ e, res (sqlite3_connect "logs.db" locked_world) = Raise e)
    by (exists OperationalError; vm_compute; reflexivity).
  split; [exact H1|]. split; [exact (Hempty _ H1 eq_refl)|].
  split; [exact H2|]. split; [exact (Hnone H2)|].
  apply Hraise. right. left. reflexivity.
Defined.

(** The claim as the spec has it fails on the empty store that a first
    connection creates where there was no file: it has no [logs] table
    yet, and the first query of [summarize_log] raises. *)
Lemma summarize_log_raises_on_a_new_store :
  let opened := create_connection "logs.db" fresh_world in
  res opened = Ret (Some (Conn "logs.db" None)) ∧
  sqlite (final opened) !! "logs.db" = Some (Db empty_database) ∧
  res (summarize_log key_ascending count_descending "logs.db" (final opened))
    = Raise OperationalError ∧
  res (summarize_log key_ascending count_descending "logs.db" fresh_world)
    = Raise OperationalError.
Proof. vm_compute. done. Qed.

Lemma gate_is_conservative_on_errors_witness :
  (∃ e, res (os_path_getmtime "access.log" no_source_world) = Raise e) ∧
  is_db_up_to_date "logs.db" "access.log" no_source_world =
    Result (Ret false) no_source_world [] ∧
  Info_running_etl ∈
    trace (run_etl_if_needed ascii_decimal ascii_integer_affinity
             "access.log" "logs.db" false no_source_world) ∧
  (∃ e, res (count_logs (Some (Conn "logs.db" None)) corrupt_world)
        = Raise e) ∧
  is_db_empty (Some (Conn "logs.db" None)) corrupt_world =
    Result (Ret true) corrupt_world [] ∧
  Info_running_etl ∈
    trace (run_etl_if_needed ascii_decimal ascii_integer_affinity
             "access.log" "logs.db" false corrupt_world).
Proof.
  destruct (gate_is_conservative_on_errors ascii_decimal
              ascii_integer_affinity "access.log" "logs.db" false
              no_source_world) as (Hstat & _ & _).
  destruct (gate_is_conservative_on_errors ascii_decimal
              ascii_integer_affinity "access.log" "logs.db" false
              corrupt_world) as (_ & Hcount & Hgate).
  assert (H1 : ∃ e, res (os_path_getmtime "access.log" no_source_world)
                    = Raise e)
    by (exists OSError; vm_compute; reflexivity).
  assert (H2 : ∃ e, res (count_logs (Some (Conn "logs.db" None)) corrupt_world)
                    = Raise e)
    by (exists DatabaseError; vm_compute; reflexivity).
  assert (H3 : res (create_connection "logs.db" corrupt_world) =
               Ret (Some (Conn "logs.db" None)))
    by (vm_compute; reflexivity).
  assert (H4 : final (create_connection "logs.db" corrupt_world) =
               corrupt_world)
    by (vm_compute; reflexivity).
  destruct (Hstat (or_intror H1)) as [Hup Hrun].
  split; [exact H1|]. split; [exact Hup|]. split; [exact Hrun|].
  split; [exact H2|]. split; [exact (Hcount _ _ H2)|].
  apply (Hgate _ H3). rewrite H4. exact H2.
Defined.

(** On a machine where the store cannot be opened [create_connection]
    returns [None]; it raises no exception. *)
Lemma create_connection_does_not_raise :
  (∃ e, res (sqlite3_connect "logs.db" locked_world) = Raise e) ∧
  res (create_connection "logs.db" locked_world) = Ret None ∧
  ¬ ∃ e, res (create_connection "logs.db" locked_world) = Raise e.
Proof.
  split; [exists OperationalError; vm_compute; reflexivity|].
  split; [vm_compute; reflexivity|].
  intros [e He]. vm_compute in He. discriminate.
Qed.

Lemma create_connection_returns_none_on_failure_witness :
  (∃ e, res (sqlite3_connect "logs.db" locked_world) = Raise e) ∧
  create_connection "logs.db" locked_world =
    Result (Ret None) locked_world [Print_connect_error] ∧
  sqlite fresh_world !! "logs.db" = Some Vacant ∧
  res (create_connection "logs.db" fresh_world) =
    Ret (Some (Conn "logs.db" None)) ∧
  sqlite (final (create_connection "logs.db" fresh_world)) !! "logs.db" =
    Some (Db empty_database).
Proof.
  destruct (create_connection_returns_none_on_failure "logs.db" locked_world)
    as (_ & Hnone & _).
  destruct (create_connection_returns_none_on_failure "logs.db" fresh_world)
    as (_ & _ & Hnew).
  assert (H1 : ∃ e, res (sqlite3_connect "logs.db" locked_world) = Raise e)
    by (exists OperationalError; vm_compute; reflexivity).
  assert (H2 : sqlite fresh_world !! "logs.db" = Some Vacant)
    by (vm_compute; reflexivity).
  destruct (Hnew H2) as (Hres & Hdb & _).
  split; [exact H1|]. split; [exact (Hnone H1)|].
  split; [exact H2|]. split; [exact Hres|exact Hdb].
Defined.

Lemma first_run_on_current_store_inserts_nothing_witness :
  let r := run_etl_if_needed ascii_decimal ascii_integer_affinity
             "access.log" "logs.db" true loaded_world in
  (40 ≤ 50)%Z ∧
  r = Result (Ret tt) loaded_world
        [Print_connected "logs.db"; Info_first_run_skipping] ∧
  sqlite (final r) !! "logs.db" =
    Some (Db (Database (Some [sample_row]) (Some []))).
Proof.
  intros r. destruct loaded_world_facts as (Hdb & Hin & Hs).
  assert (Hle : (40 ≤ 50)%Z) by lia.
  destruct (first_run_on_current_store_inserts_nothing ascii_decimal
              ascii_integer_affinity "access.log" "logs.db" loaded_world
              50%Z 40%Z (Database (Some [sample_row]) (Some [])) sample_row []
              Hdb Hin Hle Hs eq_refl) as (Hr & Hfinal & _).
  split; [exact Hle|]. split; [exact Hr|exact Hfinal].
Defined.

Lemma mixed_world_facts :
  sqlite mixed_world !! "logs.db" =
    Some (Db (Database (Some [request "/missing" 404 "10.0.0.9"])
                       (Some []))) ∧
  texts mixed_world !! "access.log" = Some sample_log ∧
  fresh_and_populated mixed_world "access.log" "logs.db" = false.
Proof. vm_compute. done. Qed.

Lemma load_appends_and_never_replaces_witness :
  let r := run_etl_if_needed ascii_decimal ascii_integer_affinity
             "access.log" "logs.db" false mixed_world in
  let old := [request "/missing" 404 "10.0.0.9"] in
  let new := log_rows ascii_decimal ascii_integer_affinity sample_log in
  world_extends mixed_world (final r) ∧
  res r = Ret tt ∧
  sqlite (final r) !! "logs.db" =
    Some (Db (Database (Some (old ++ new))
                       (Some ([] ++ error_rows ascii_decimal sample_log 60)))) ∧
  ∃ s,
    res (summarize_log key_ascending count_descending "logs.db" (final r)) =
      Ret (Some s) ∧
    summarizes (old ++ new) s ∧
    (∀ k n, (k, n) ∈ top_endpoints s →
       n = rows_with r_path k old + rows_with r_path k new) ∧
    (∀ k n, (k, n) ∈ status_code_distribution s →
       n = rows_with r_status_code k old + rows_with r_status_code k new) ∧
    (∀ k n, (k, n) ∈ top_client_ips s →
       n = rows_with r_ipaddress k old + rows_with r_ipaddress k new).
Proof.
  intros r old new.
  destruct (load_appends_and_never_replaces ascii_decimal
              ascii_integer_affinity key_ascending count_descending
              "access.log" "logs.db" false mixed_world
              key_ascending_arranges count_descending_ranks)
    as [Hkeep Hadd].
  destruct mixed_world_facts as (Hs & Ht & Hf).
  destruct (Hadd old [] sample_log Hs Ht Hf) as (Hres & Hfinal & _ & Hsum).
  split; [exact Hkeep|]. split; [exact Hres|].
  split; [exact Hfinal|exact Hsum].
Defined.

(** The summary after that load, with the engine of the examples: the old
    request and the two of the file, each key with its count. *)
Example summary_after_a_reload :
  let r := run_etl_if_needed ascii_decimal ascii_integer_affinity
             "access.log" "logs.db" false mixed_world in
  res (summarize_log key_ascending count_descending "logs.db" (final r)) =
  Ret (Some (Summary
    [(SqlText (lit "/index.html"), 2); (SqlText (lit "/missing"), 1)]
    [(SqlInteger 200, 2); (SqlInteger 404, 1)]
    [(SqlText (lit "127.0.0.1"), 2); (SqlText (lit "10.0.0.9"), 1)])).
Proof. vm_compute. reflexivity. Qed.

(** Two loads of one file: the source is written again between the runs,
    the second run loads it again, and every count doubles. *)
Example reload_doubles_the_counts :
  let run := run_etl_if_needed ascii_decimal ascii_integer_affinity
               "access.log" "logs.db" false in
  let w1 := final (run fresh_world) in
  let w2 := final (run (touch "access.log" 70 w1)) in
  sqlite w1 !! "logs.db" =
    Some (Db (Database (Some [sample_row; sample_row])
                       (Some [ErrorRow (SqlText bad_line) (SqlText []) 60]))) ∧
  sqlite w2 !! "logs.db" =
    Some (Db (Database
      (Some [sample_row; sample_row; sample_row; sample_row])
      (Some [ErrorRow (SqlText bad_line) (SqlText []) 60;
             ErrorRow (SqlText bad_line) (SqlText []) 70]))) ∧
  (status_code_distribution <$>
     res_value (summarize_log key_ascending count_descending "logs.db" w1)) =
    Some [(SqlInteger 200, 2)] ∧
  (status_code_distribution <$>
     res_value (summarize_log key_ascending count_descending "logs.db" w2)) =
    Some [(SqlInteger 200, 4)].
Proof. vm_compute. done. Qed.

(** Three hits of one path and one of another, ranked by count. *)
Example top_endpoints_ranked :
  top_endpoints
    (summary_of key_ascending count_descending
       [hit "/about"; hit "/index.html"; hit "/index.html";
        hit "/index.html"]) =
  [(SqlText (lit "/index.html"), 3); (SqlText (lit "/about"), 1)].
Proof. vm_compute. reflexivity. Qed.

(** Twelve paths for ten places: the places go by count, and among the
    paths requested once the engine of the examples keeps the seven of
    the greatest keys. *)
Example busy_rows_summary :
  summarize_log key_ascending count_descending "logs.db" busy_world =
  Result (Ret (Some busy_summary)) busy_world
         [Print_connected "logs.db"; Info_summary_generated].
Proof. vm_compute. reflexivity. Qed.

(* ===================================================================== *)
(** * Further properties of the code *)
(* ===================================================================== *)

(** ** parser.py: what the pattern accepts *)

Lemma strip_prefix_app (a rest : str) :
  Re.strip_prefix a (a ++ rest) = Some rest.
Proof.
  induction a as [|x a IH]; [done|]. simpl. by rewrite N.eqb_refl.
Qed.

(** The matcher finds a match whenever one exists. *)
Lemma many_complete {A} p (k : Re.cursor → option A) (w rest : str) :
  ∀ lo hi bef,
  Forall (fun c => p c = true) w → lo ≤ length w →
  (∀ h, hi = Some h → length w ≤ h) →
  is_Some (k (Re.Cursor (rev w ++ bef) rest)) →
  is_Some (Re.many p lo hi k bef (w ++ rest)).
Proof.
  induction w as [|c w IH]; intros lo hi bef Hw Hlo Hhi Hk.
  - simpl in *. assert (lo = 0) as -> by lia.
    destruct rest as [|c rest]; simpl; [done|].
    destruct (p c && Re.room hi); [|done].
    by destruct (Re.many p _ _ k (c :: bef) rest).
  - apply Forall_cons in Hw as [Hc Hw]. simpl. rewrite Hc.
    assert (Re.room hi = true) as ->.
    { destruct hi as [[|h]|]; try done. specialize (Hhi 0 eq_refl).
      simpl in Hhi. lia. }
    simpl.
    destruct (IH (pred lo) (pred <$> hi) (c :: bef)) as [a Ha].
    + done.
    + simpl in Hlo. lia.
    + intros h Hh. destruct hi as [h'|]; [|done]. injection Hh as <-.
      specialize (Hhi h' eq_refl). simpl in Hhi. lia.
    + simpl in Hk. by rewrite <- app_assoc in Hk.
    + by rewrite Ha.
Qed.

Lemma run_complete {A} (r : Re.regex) :
  ∀ (k : Re.captures → Re.cursor → option A) g cur w rest g',
  Re.ahead cur = w ++ rest →
  derives r (Re.before cur) w rest g g' →
  is_Some (k g' (Re.Cursor (rev w ++ Re.before cur) rest)) →
  is_Some (Re.run r k g cur).
Proof.
  induction r as [| |s|p lo hi|n r IH|r1 IH1 r2 IH2|name r IH];
    intros k g [bef ahd] w rest g' Hahd; simpl in Hahd; subst ahd; simpl.
  - intros (-> & -> & Hb) Hk. simpl in *. by rewrite Hb.
  - intros (-> & -> & Hb) Hk. simpl in *. by rewrite Hb.
  - intros (-> & ->) Hk. by rewrite strip_prefix_app.
  - intros (Hw & Hlo & Hhi & ->) Hk. by apply many_complete.
  - revert k g bef w g'. induction n as [|n IHn]; intros k g bef w g'.
    + by intros (-> & ->) Hk.
    + intros (w1 & w2 & g1 & -> & H1 & H2) Hk. simpl.
      apply (IH _ g (Re.Cursor bef ((w1 ++ w2) ++ rest)) w1 (w2 ++ rest) g1);
        simpl; [by rewrite app_assoc|done|].
      apply (IHn k g1 (rev w1 ++ bef) w2 g'); [done|].
      by rewrite rev_app_distr, <- app_assoc in Hk.
  - intros (w1 & w2 & g1 & -> & H1 & H2) Hk.
    apply (IH1 _ g (Re.Cursor bef ((w1 ++ w2) ++ rest)) w1 (w2 ++ rest) g1);
      simpl; [by rewrite app_assoc|done|].
    apply (IH2 k g1 (Re.Cursor (rev w1 ++ bef) (w2 ++ rest)) w2 rest g');
      simpl; [done|done|].
    by rewrite rev_app_distr, <- app_assoc in Hk.
  - intros (g1 & H1 & ->) Hk.
    apply (IH _ g (Re.Cursor bef (w ++ rest)) w rest g1); simpl; [done|done|].
    by rewrite consumed_adv.
Qed.

Lemma match_complete (r : Re.regex) (w rest : str) (m : Re.captures) :
  derives r [] w rest ∅ m → is_Some (Re.match_ r (w ++ rest)).
Proof.
  intros Hd. unfold Re.match_.
  by apply (run_complete r _ ∅ (Re.Cursor [] (w ++ rest)) w rest m).
Qed.

(** The literals of the grammar, as lists of code points. *)
Ltac eval_lit :=
  repeat match goal with
         | |- context [lit ?s] =>
             let v := eval vm_compute in (lit s) in change (lit s) with v
         | H : context [lit ?s] |- _ =>
             let v := eval vm_compute in (lit s) in change (lit s) with v in H
         end.

Section Grammar.
Variable unicode_decimal : N → bool.

Lemma dotted_assoc (d1 d2 d3 d4 : str) :
  d1 ++ (lit "." ++ d2) ++ (lit "." ++ d3) ++ (lit "." ++ d4) ++ [] =
  dotted d1 d2 d3 d4.
Proof. unfold dotted. by rewrite <- !app_assoc, app_nil_r. Qed.

(** A match decomposes the subject as the grammar says. *)
Lemma log_pattern_shape (line : str) (m : Re.captures) :
  Re.match_ (log_pattern unicode_decimal) line = Some m →
  ∃ ip ts me pa pr st by_ rf ua rest,
    line = format_line ip ts me pa pr st by_ rf ua ++ rest ∧
    (rest = [] ∨ ∃ rest', rest = 10%N :: rest') ∧
    m = groups_of ip ts me pa pr st by_ rf ua ∧
    grammatical unicode_decimal ip ts me pa pr st by_ rf ua.
Proof.
  intros (w & rest & -> & Hd)%match_sound.
  unfold log_pattern, seq_re, digits_1_3 in Hd. cbn [derives foldr] in Hd.
  repeat match type of Hd with
         | ∃ _, _ => destruct Hd as [? Hd]
         | _ ∧ _ => let H := fresh "H" in destruct Hd as [H Hd]
         end.
  repeat match goal with
         | H : ∃ _, _ |- _ => destruct H as [? H]
         | H : _ ∧ _ |- _ => let H' := fresh "H" in destruct H as [H' H]
         end.
  subst.
  repeat match goal with
         | H : ∀ h, None = Some h → _ |- _ => clear H
         | H : ∀ h, Some ?n = Some h → _ |- _ => specialize (H n eq_refl)
         end.
  rewrite !dotted_assoc.
  do 9 eexists. exists rest. split_and!.
  3: reflexivity.
  - unfold format_line. rewrite <- !app_assoc. reflexivity.
  - match goal with
    | H : Re.at_eol _ = true |- _ => revert H
    end.
    unfold Re.at_eol. simpl. destruct rest as [|c rest']; [by left|].
    intros ->%N.eqb_eq. right. by eexists.
  - unfold grammatical, octet, run_of.
    split_and!;
      try (do 4 eexists; split; [reflexivity|]; split_and!);
      first [assumption | lia | by apply nonempty_of_length
            | apply nonempty_of_length; lia ].
Qed.

(** Two ways of cutting one string at the first character outside a class
    are the same way. *)
Lemma prefix_unique (P : N → bool) (a a' x x' : str) (c c' : N) :
  Forall (fun c => P c = true) a → Forall (fun c => P c = true) a' →
  P c = false → P c' = false →
  a ++ c :: x = a' ++ c' :: x' → a = a' ∧ c = c' ∧ x = x'.
Proof.
  intros Ha. revert a'. induction Ha as [|h a Hh Ha IH];
    intros [|h' a'] Ha' Hc Hc' E; simpl in E.
  - by injection E as -> ->.
  - injection E as -> _. apply Forall_cons in Ha' as [Hh' _]. congruence.
  - injection E as <- _. congruence.
  - injection E as <- E. apply Forall_cons in Ha' as [_ Ha'].
    destruct (IH a' Ha' Hc Hc' E) as (-> & -> & ->). done.
Qed.

(** A string with a single character outside the class is cut there. *)
Lemma single_separator (P : N → bool) (a a' x x' : str) (c : N) :
  Forall (fun c => P c = true) a → Forall (fun c => P c = true) x →
  P c = false →
  a' ++ c :: x' = a ++ c :: x → a' = a ∧ x' = x.
Proof.
  intros Ha Hx Hc. revert a'. induction Ha as [|h a Hh Ha IH];
    intros [|h' a'] E; simpl in E.
  - by injection E as ->.
  - injection E as -> E. subst x. apply Forall_app in Hx as [_ Hx].
    apply Forall_cons in Hx as [Hx _]. congruence.
  - injection E as -> _. congruence.
  - injection E as -> E. by destruct (IH a' E) as [-> ->].
Qed.

Lemma octet_address (d : str) :
  octet unicode_decimal d →
  Forall (fun c => address_char unicode_decimal c = true) d.
Proof.
  intros [_ Hd]. eapply Forall_impl; [exact Hd|].
  intros c Hc. unfold address_char. by rewrite Hc.
Qed.

Lemma dotted_address (d1 d2 d3 d4 : str) :
  octet unicode_decimal d1 → octet unicode_decimal d2 →
  octet unicode_decimal d3 → octet unicode_decimal d4 →
  Forall (fun c => address_char unicode_decimal c = true)
         (dotted d1 d2 d3 d4).
Proof.
  intros H1 H2 H3 H4. unfold dotted.
  assert (Hdot : Forall (fun c => address_char unicode_decimal c = true)
                        (lit ".")).
  { apply Forall_cons. split; [|done]. unfold address_char.
    apply orb_true_r. }
  repeat (apply Forall_app; split); auto using octet_address.
Qed.

(** A line of the grammar is written from its fields in one way only,
    provided the path and the protocol hold no space. *)
Lemma format_line_inj (ip ts me pa pr st by_ rf ua : str)
    (ip' ts' me' pa' pr' st' by_' rf' ua' rest' : str) :
  unicode_decimal 32%N = false →
  grammatical unicode_decimal ip ts me pa pr st by_ rf ua →
  grammatical unicode_decimal ip' ts' me' pa' pr' st' by_' rf' ua' →
  spaceless pa → spaceless pr →
  format_line ip ts me pa pr st by_ rf ua =
    format_line ip' ts' me' pa' pr' st' by_' rf' ua' ++ rest' →
  ip' = ip ∧ ts' = ts ∧ me' = me ∧ pa' = pa ∧ pr' = pr ∧ st' = st ∧
  by_' = by_ ∧ rf' = rf ∧ ua' = ua ∧ rest' = [].
Proof.
  intros Hsp G G' Spa Spr E.
  destruct G as ((d1 & d2 & d3 & d4 & -> & O1 & O2 & O3 & O4) & [_ Hts] &
                 [_ Hme] & [_ Hpa] & [_ Hpr] & [Lst Hst] & [_ Hby] &
                 [_ Hrf] & [_ Hua]).
  destruct G' as ((e1 & e2 & e3 & e4 & -> & O1' & O2' & O3' & O4') &
                  [_ Hts'] & [_ Hme'] & [_ Hpa'] & [_ Hpr'] & [Lst' Hst'] &
                  [_ Hby'] & [_ Hrf'] & [_ Hua']).
  pose proof (dotted_address _ _ _ _ O1 O2 O3 O4) as Hip.
  pose proof (dotted_address _ _ _ _ O1' O2' O3' O4') as Hip'.
  generalize dependent (dotted d1 d2 d3 d4).
  generalize dependent (dotted e1 e2 e3 e4).
  intros ip' Hip' ip E Hip. clear O1 O2 O3 O4 O1' O2' O3' O4'.
  unfold format_line in E. rewrite <- !app_assoc in E.
  unfold dquote in *. eval_lit. cbn [app] in E.
  assert (Hsp' : address_char unicode_decimal 32%N = false)
    by (unfold address_char; by rewrite Hsp).
  apply (prefix_unique (address_char unicode_decimal)) in E
    as (<- & _ & E); [|done..].
  injection E as E.
  apply (prefix_unique (non 93)) in E as (<- & _ & E); [|done..].
  injection E as E.
  apply (prefix_unique upper) in E as (<- & _ & E); [|done..].
  match type of E with
  | _ ++ _ :: _ ++ _ :: ?R = _ ++ _ :: _ ++ _ :: ?R' =>
      assert (E2 : (pa ++ 32%N :: pr) ++ 34%N :: R =
                   (pa' ++ 32%N :: pr') ++ 34%N :: R')
        by (rewrite <- !app_assoc; exact E)
  end.
  clear E.
  apply (prefix_unique (non 34)) in E2 as (E3 & _ & E); try done;
    try (apply Forall_app; split; [done|by apply Forall_cons]).
  symmetry in E3. apply (single_separator (non 32)) in E3 as [-> ->];
    [|done..].
  injection E as E.
  apply app_inj_1 in E as [<- E]; [|congruence].
  injection E as E.
  apply (prefix_unique unicode_decimal) in E as (<- & _ & E); [|done..].
  injection E as E.
  apply (prefix_unique (non 34)) in E as (<- & _ & E); [|done..].
  injection E as E.
  apply (prefix_unique (non 34)) in E as (<- & _ & <-); [|done..].
  done.
Qed.

Ltac cut_at w1 :=
  exists w1; eexists; eexists; split; [reflexivity|split].

Lemma length_pos_of_nonempty {A} (l : list A) : l ≠ [] → 1 ≤ length l.
Proof. destruct l; [done|]. simpl. lia. Qed.

Ltac class_run :=
  split_and!;
    [assumption | first [lia | by apply length_pos_of_nonempty]
    | first [by intros ? [=] | intros ? [= <-]; lia] | reflexivity].

(** The fields of the grammar, written out, are a match of the pattern. *)
Lemma format_line_derives (ip ts me pa pr st by_ rf ua : str) :
  grammatical unicode_decimal ip ts me pa pr st by_ rf ua →
  derives (log_pattern unicode_decimal) []
          (format_line ip ts me pa pr st by_ rf ua) [] ∅
          (groups_of ip ts me pa pr st by_ rf ua).
Proof.
  intros ((d1 & d2 & d3 & d4 & -> & [L1 O1] & [L2 O2] & [L3 O3] & [L4 O4]) &
          [Nts Hts] & [Nme Hme] & [Npa Hpa] & [Npr Hpr] & [Lst Hst] &
          [Nby Hby] & [Nrf Hrf] & [Nua Hua]).
  rewrite <- !dotted_assoc.
  set (ipn := d1 ++ (lit "." ++ d2) ++ (lit "." ++ d3) ++ (lit "." ++ d4) ++ []).
  replace (format_line ipn ts me pa pr st by_ rf ua)
    with ([] ++ ipn ++ lit " - - [" ++ ts ++ (lit "] " ++ [dquote]) ++ me ++
          lit " " ++ pa ++ lit " " ++ pr ++ ([dquote] ++ lit " ") ++ st ++
          lit " " ++ by_ ++ (lit " " ++ [dquote]) ++ rf ++
          ([dquote] ++ lit " " ++ [dquote]) ++ ua ++ [dquote] ++ [] ++ [])
    by (unfold format_line; by rewrite <- !app_assoc).
  unfold log_pattern, seq_re, digits_1_3. cbn [derives foldr].
  cut_at (@nil N); [done|].
  cut_at ipn.
  { eexists. split; [|reflexivity]. unfold ipn.
    cut_at d1; [class_run|].
    cut_at (lit "." ++ d2); [cut_at (lit "."); [done|class_run]|].
    cut_at (lit "." ++ d3); [cut_at (lit "."); [done|class_run]|].
    cut_at (lit "." ++ d4); [cut_at (lit "."); [done|class_run]|].
    done. }
  cut_at (lit " - - ["); [done|].
  cut_at ts; [eexists; split; [class_run|reflexivity]|].
  cut_at (lit "] " ++ [dquote]); [done|].
  cut_at me; [eexists; split; [class_run|reflexivity]|].
  cut_at (lit " "); [done|].
  cut_at pa; [eexists; split; [class_run|reflexivity]|].
  cut_at (lit " "); [done|].
  cut_at pr; [eexists; split; [class_run|reflexivity]|].
  cut_at ([dquote] ++ lit " "); [done|].
  cut_at st; [eexists; split; [class_run|reflexivity]|].
  cut_at (lit " "); [done|].
  cut_at by_; [eexists; split; [class_run|reflexivity]|].
  cut_at (lit " " ++ [dquote]); [done|].
  cut_at rf; [eexists; split; [class_run|reflexivity]|].
  cut_at ([dquote] ++ lit " " ++ [dquote]); [done|].
  cut_at ua; [eexists; split; [class_run|reflexivity]|].
  cut_at [dquote]; [done|].
  cut_at (@nil N); [done|].
  done.
Qed.

End Grammar.

(** ** parser.py: [parse_log] *)

Lemma splitlines_from_line (line rest : str) :
  Forall (fun c => is_linebreak c = false) line →
  ∀ cur,
  splitlines_from cur (line ++ 10%N :: rest) =
  (rev cur ++ line) :: splitlines rest.
Proof.
  induction 1 as [|c line Hc _ IH]; intros cur.
  - simpl. by rewrite app_nil_r.
  - simpl. rewrite Hc, IH. simpl. by rewrite <- app_assoc.
Qed.

Lemma splitlines_from_last (line : str) :
  Forall (fun c => is_linebreak c = false) line →
  ∀ cur, rev cur ++ line ≠ [] →
  splitlines_from cur line = [rev cur ++ line].
Proof.
  induction 1 as [|c line Hc _ IH]; intros cur Hne.
  - simpl. rewrite app_nil_r in *. destruct cur; [done|]. done.
  - simpl. rewrite Hc, IH; simpl; rewrite <- ?app_assoc; [done|].
    intros E. by destruct (rev cur).
Qed.

Section ParserExtras.
Variable unicode_decimal : N → bool.

(** X1. Every entry [parse_log] returns was taken from a line of the input
    and holds fields of the grammar: the address is four runs of one to
    three digits joined by dots, the method is upper-case letters, the
    status is exactly three digits, the byte count is digits, the timestamp
    has no closing bracket and the other fields no double quote; none is
    empty. *)
Theorem parse_log_entries_grammatical (log_content : str)
    (entry : gmap string value) :
  entry ∈ (parse_log unicode_decimal log_content).1 →
  ∃ ip ts me pa pr st by_ rf ua,
    entry = entry_of_match (groups_of ip ts me pa pr st by_ rf ua) ∧
    format_line ip ts me pa pr st by_ rf ua ∈ splitlines log_content ∧
    grammatical unicode_decimal ip ts me pa pr st by_ rf ua.
Proof.
  intros (line & m & Hline & Hm & ->)%parse_log_entries.
  apply log_pattern_shape in Hm
    as (ip & ts & me & pa & pr & st & by_ & rf & ua & rest & -> & Hrest &
        -> & G).
  exists ip, ts, me, pa, pr, st, by_, rf, ua. split_and!; try done.
  destruct Hrest as [->|[rest' ->]]; [by rewrite app_nil_r in Hline|].
  apply splitlines_no_newline in Hline. exfalso. apply Hline.
  apply elem_of_app. right. apply list_elem_of_here.
Qed.

(** X2. Writing grammatical fields as a line and parsing it gives the
    fields back, when the space is not a digit and the path and the
    protocol hold no space. *)
Theorem formatted_line_parses (ip ts me pa pr st by_ rf ua : str) :
  unicode_decimal 32%N = false →
  grammatical unicode_decimal ip ts me pa pr st by_ rf ua →
  spaceless pa → spaceless pr →
  let line := format_line ip ts me pa pr st by_ rf ua in
  Re.match_ (log_pattern unicode_decimal) line =
    Some (groups_of ip ts me pa pr st by_ rf ua) ∧
  (Forall (fun c => is_linebreak c = false) line →
   parse_log unicode_decimal line =
     ([entry_of_match (groups_of ip ts me pa pr st by_ rf ua)], [])).
Proof.
  intros Hsp G Spa Spr line.
  assert (Hm : Re.match_ (log_pattern unicode_decimal) line =
               Some (groups_of ip ts me pa pr st by_ rf ua)).
  { destruct (match_complete (log_pattern unicode_decimal) line [] _
                (format_line_derives unicode_decimal _ _ _ _ _ _ _ _ _ G))
      as [m Hm].
    rewrite app_nil_r in Hm. rewrite Hm. f_equal.
    apply log_pattern_shape in Hm
      as (ip' & ts' & me' & pa' & pr' & st' & by_' & rf' & ua' & rest' &
          E & _ & -> & G').
    destruct (format_line_inj unicode_decimal _ _ _ _ _ _ _ _ _ _ _ _ _ _ _ _
                _ _ _ Hsp G G' Spa Spr E)
      as (-> & -> & -> & -> & -> & -> & -> & -> & -> & _).
    done. }
  split; [exact Hm|]. intros Hbr.
  rewrite parse_log_unfold.
  unfold splitlines. rewrite (splitlines_from_last line Hbr []).
  - simpl. rewrite Hm. simpl. rewrite filter_cons, Hm.
    by rewrite decide_False.
  - simpl. unfold line, format_line.
    destruct G as ((d1 & ? & ? & ? & -> & [L1 _] & _) & _).
    unfold dotted. intros E%(f_equal length).
    rewrite !length_app in E. simpl in E. lia.
Qed.

(** X3. A line that matches has at least 37 characters; a shorter line of
    the input, a blank line included, is returned as an error entry. *)
Theorem short_lines_are_errors (log_content line : str) :
  (∀ m, Re.match_ (log_pattern unicode_decimal) line = Some m →
        min_line_length ≤ length line) ∧
  (line ∈ splitlines log_content → length line < min_line_length →
   line ∈ (parse_log unicode_decimal log_content).2).
Proof.
  assert (Hmin : ∀ m, Re.match_ (log_pattern unicode_decimal) line = Some m →
                      min_line_length ≤ length line).
  { intros m (ip & ts & me & pa & pr & st & by_ & rf & ua & rest & -> & _ &
              _ & G)%log_pattern_shape.
    destruct G as ((d1 & d2 & d3 & d4 & -> & [L1 _] & [L2 _] & [L3 _] &
                    [L4 _]) & [Nts%length_pos_of_nonempty _] &
                   [Nme%length_pos_of_nonempty _] &
                   [Npa%length_pos_of_nonempty _] &
                   [Npr%length_pos_of_nonempty _] & [Lst _] &
                   [Nby%length_pos_of_nonempty _] &
                   [Nrf%length_pos_of_nonempty _] &
                   [Nua%length_pos_of_nonempty _]).
    unfold format_line, dotted, min_line_length. rewrite !length_app.
    unfold dquote. eval_lit. simpl length. lia. }
  split; [exact Hmin|]. intros Hin Hlt.
  rewrite parse_log_unfold. simpl. apply list_elem_of_filter. split; [|done].
  destruct (Re.match_ (log_pattern unicode_decimal) line) as [m|] eqn:Hm;
    [|done].
  specialize (Hmin m eq_refl). lia.
Qed.

(** X4. Lines are classified one by one: the result for a first line
    followed by a line feed and more text is the result for the rest, with
    the entry of the line put in front when it matches and the line itself
    put in front of the errors when it does not. *)
Theorem parse_log_first_line (line rest : str) :
  Forall (fun c => is_linebreak c = false) line →
  parse_log unicode_decimal (line ++ 10%N :: rest) =
  let '(log_entries, error_entries) := parse_log unicode_decimal rest in
  match Re.match_ (log_pattern unicode_decimal) line with
  | Some m => (entry_of_match m :: log_entries, error_entries)
  | None => (log_entries, line :: error_entries)
  end.
Proof.
  intros Hline. rewrite !parse_log_unfold. unfold splitlines.
  rewrite (splitlines_from_line line rest Hline []). simpl rev. simpl app.
  change (omap ?f (line :: ?l))
    with (match f line with Some y => y :: omap f l | None => omap f l end).
  rewrite filter_cons.
  destruct (Re.match_ (log_pattern unicode_decimal) line) as [m|] eqn:Hm.
  - by rewrite decide_False.
  - by rewrite decide_True.
Qed.

End ParserExtras.

(* ===================================================================== *)
(** ** database.py *)
(* ===================================================================== *)

Lemma wp_current_sqlite (c : connection) (w : world)
    (Q : outcome database → world → Prop) :
  (∀ d, visible c w = Some d → Q (Ret d) w) →
  (∀ e, visible c w = None → is_sqlite_error e = true → Q (Raise e) w) →
  wp (current c) w Q.
Proof.
  unfold wp, current, visible. intros HQ HE.
  destruct (conn_tx c) as [d|]; [by apply HQ|]. run_m.
  destruct (sqlite w !! conn_path c) as [[| |d]|]; auto.
Qed.

Lemma store_returns (c : connection) (dml : bool) (d : database) (w : world) :
  ∃ c', res (store c dml d w) = Ret c'.
Proof.
  unfold store. destruct (conn_tx c); [by eexists|].
  destruct dml; by eexists.
Qed.

Lemma commit_returns (c : connection) (w : world) :
  ∃ c', res (commit c w) = Ret c'.
Proof. unfold commit. destruct (conn_tx c); by eexists. Qed.

Lemma create_logs_sqlite_only (c : connection) (w : world) :
  wp (create_logs_if_not_exists c) w sqlite_errors_only.
Proof.
  apply wp_bind, wp_current_sqlite; [|done].
  intros d _. destruct (logs d); [done|].
  unfold wp. by destruct (store_returns c false (Database (Some []) (errors d)) w)
    as [c' ->].
Qed.

Lemma create_errors_sqlite_only (c : connection) (w : world) :
  wp (create_errors_if_not_exists c) w sqlite_errors_only.
Proof.
  apply wp_bind, wp_current_sqlite; [|done].
  intros d _. destruct (errors d); [done|].
  unfold wp. by destruct (store_returns c false (Database (logs d) (Some [])) w)
    as [c' ->].
Qed.

Lemma create_table_returns (c : connection) (w : world) :
  ∃ c', res (create_table c w) = Ret c'.
Proof.
  change (wp (create_table c) w (fun o _ => ∃ c', o = Ret c')).
  unfold create_table. apply wp_try, wp_bind.
  eapply wp_mono; [apply create_logs_sqlite_only|].
  intros [c1|e] w1 H1; [|by rewrite H1; eexists].
  apply wp_bind. eapply wp_mono; [apply create_errors_sqlite_only|].
  intros [c2|e] w2 H2; [|by rewrite H2; eexists].
  apply wp_bind. unfold wp at 1.
  destruct (commit_returns c2 w2) as [c3 ->]. by eexists.
Qed.

Lemma current_invisible (c : connection) (w : world) :
  visible c w = None →
  ∃ e, is_sqlite_error e = true ∧ current c w = Result (Raise e) w [].
Proof.
  unfold visible, current. destruct (conn_tx c); [done|]. run_m.
  destruct (sqlite w !! conn_path c) as [[| |d]|]; try done;
    intros _; eexists; (split; [|reflexivity]); reflexivity.
Qed.

Lemma create_table_done (c : connection) (w : world) (d : database) :
  visible c w = Some d →
  wp (create_table c) w
     (fun o w' => ∃ c', o = Ret c' ∧ conn_path c' = conn_path c ∧
                   conn_tx c' = None ∧
                   sqlite w' !! conn_path c = Some (Db (with_schema d)) ∧
                   clock w' = clock w).
Proof.
  intros Hv. unfold create_table. apply wp_try.
  eapply sees_then; [by apply create_logs_sees|].
  intros c1 w1 Hp1 Hv1 Hk1.
  eapply sees_then; [by apply create_errors_sees|].
  intros c2 w2 Hp2 Hv2 Hk2. cbn [logs errors] in Hv2.
  apply wp_bind. eapply wp_mono; [by apply commit_sees|].
  intros o w3 (c3 & -> & Hp3 & Htx3 & Hd3 & Hk3).
  apply wp_bind, wp_emit, wp_ret. exists c3.
  rewrite Hp2, Hp1 in Hp3, Hd3. split_and!; try done. congruence.
Qed.

(** With both tables there and no transaction open [create_table] changes
    nothing. *)
Lemma create_table_again (c : connection) (w : world) (d : database)
    (old : list log_row) (old_errors : list error_row) :
  conn_tx c = None → sqlite w !! conn_path c = Some (Db d) →
  logs d = Some old → errors d = Some old_errors →
  create_table c w = Result (Ret c) w [Print_table_created].
Proof.
  intros Htx Hs Hl He.
  unfold create_table, create_logs_if_not_exists,
    create_errors_if_not_exists, commit, current.
  rewrite Htx. run_m. rewrite Hs. cbn. rewrite Hl. cbn.
  rewrite Htx. cbn. rewrite Hs. cbn. rewrite He. cbn. by rewrite Htx.
Qed.

(** X5. [create_table] never raises. On a connection that reads a database
    it leaves both tables in place, created empty where they were missing
    and with their rows where they were there, commits, and a second call
    changes nothing; on a connection that cannot read a database it reports
    the error and changes nothing. *)
Theorem create_table_ensures_schema (c : connection) (w : world) :
  let r := create_table c w in
  (∃ c', res r = Ret c') ∧
  (∀ d, visible c w = Some d →
     ∃ c', res r = Ret c' ∧ conn_path c' = conn_path c ∧ conn_tx c' = None ∧
       sqlite (final r) !! conn_path c = Some (Db (with_schema d)) ∧
       create_table c' (final r) =
         Result (Ret c') (final r) [Print_table_created]) ∧
  (visible c w = None → r = Result (Ret c) w [Print_create_error]).
Proof.
  intros r. unfold r. split_and!.
  - apply create_table_returns.
  - intros d Hv. destruct (create_table_done c w d Hv)
      as (c' & Hres & Hp & Htx & Hs & _).
    exists c'. split_and!; try done.
    apply (create_table_again c' _ (with_schema d) (default [] (logs d))
             (default [] (errors d))); [done|by rewrite Hp|done|done].
  - intros Hv. destruct (current_invisible c w Hv) as (e & He & Hcur).
    unfold create_table, try_except, create_logs_if_not_exists.
    rewrite !bind_run, Hcur. cbn. by rewrite He.
Qed.

Lemma current_visible_run (c : connection) (w : world) (d : database) :
  visible c w = Some d → current c w = Result (Ret d) w [].
Proof.
  unfold visible, current. destruct (conn_tx c); [by intros [= ->]|]. run_m.
  destruct (sqlite w !! conn_path c) as [[| |d0]|]; try done. by intros [= ->].
Qed.

Lemma store_dml_run (c : connection) (d : database) (w : world) :
  store c true d w = Result (Ret (Conn (conn_path c) (Some d))) w [].
Proof. unfold store. by destruct (conn_tx c). Qed.

Lemma insert_into_logs_run (c : connection) (w : world) (d : database)
    (old rows : list log_row) :
  visible c w = Some d → logs d = Some old → rows ≠ [] →
  insert_into_logs c rows w =
  Result (Ret (Conn (conn_path c)
                    (Some (Database (Some (old ++ rows)) (errors d))))) w [].
Proof.
  intros Hv Hl Hne. destruct rows as [|row rows]; [done|].
  unfold insert_into_logs. rewrite bind_run, (current_visible_run c w d Hv).
  cbn [res final trace]. rewrite Hl, store_dml_run. done.
Qed.

Lemma insert_into_logs_fails (c : connection) (w : world)
    (rows : list log_row) :
  rows ≠ [] →
  (∀ d, visible c w = Some d → logs d = None) →
  ∃ e, is_sqlite_error e = true ∧
       insert_into_logs c rows w = Result (Raise e) w [].
Proof.
  intros Hne Hno. destruct rows as [|row rows]; [done|].
  unfold insert_into_logs. rewrite bind_run.
  destruct (visible c w) as [d|] eqn:Hv.
  - rewrite (current_visible_run c w d Hv). cbn [res final trace].
    rewrite (Hno d eq_refl). by exists OperationalError.
  - destruct (current_invisible c w Hv) as (e & He & ->). by exists e.
Qed.

Lemma commit_run (c : connection) (w : world) (d : database) :
  conn_tx c = Some d →
  commit c w = Result (Ret (Conn (conn_path c) None))
                      (written (conn_path c) d w) [].
Proof. unfold commit. by intros ->. Qed.

Lemma complete_missing_key (entry : gmap string value) :
  complete entry ↔ missing_key entry = None.
Proof.
  unfold complete, missing_key. rewrite head_None. split.
  - intros Hc. apply elem_of_nil_inv. intros key [Hn Hin]%list_elem_of_filter.
    destruct (Hc key Hin) as [v Hv]. congruence.
  - intros Hf key Hin. destruct (entry !! key) eqn:Hk; [by eexists|].
    exfalso. apply (not_elem_of_nil key). rewrite <- Hf.
    by apply list_elem_of_filter.
Qed.

Section InsertExtras.
Variable integer_affinity : str → sqlval.

Lemma row_of_entry_missing (entry : gmap string value) (key : string)
    (w : world) :
  missing_key entry = Some key →
  row_of_entry integer_affinity entry w = Result (Raise (KeyError key)) w [].
Proof.
  unfold missing_key, entry_keys, row_of_entry, getitem.
  rewrite !filter_cons, filter_nil.
  destruct (entry !! "ipaddress") eqn:H1;
    [rewrite decide_False by done|rewrite decide_True by done; by intros [= <-]].
  destruct (entry !! "timestamp") eqn:H2;
    [rewrite decide_False by done|rewrite decide_True by done; by intros [= <-]].
  destruct (entry !! "method") eqn:H3;
    [rewrite decide_False by done|rewrite decide_True by done; by intros [= <-]].
  destruct (entry !! "path") eqn:H4;
    [rewrite decide_False by done|rewrite decide_True by done; by intros [= <-]].
  destruct (entry !! "protocol") eqn:H5;
    [rewrite decide_False by done|rewrite decide_True by done; by intros [= <-]].
  destruct (entry !! "status_code") eqn:H6;
    [rewrite decide_False by done|rewrite decide_True by done; by intros [= <-]].
  destruct (entry !! "bytes_sent") eqn:H7;
    [rewrite decide_False by done|rewrite decide_True by done; by intros [= <-]].
  destruct (entry !! "referrer") eqn:H8;
    [rewrite decide_False by done|rewrite decide_True by done; by intros [= <-]].
  destruct (entry !! "user_agent") eqn:H9;
    [rewrite decide_False by done|rewrite decide_True by done; by intros [= <-]].
  done.
Qed.

Lemma for_each_missing (before_ : list (gmap string value))
    (entry : gmap string value) (after_ : list (gmap string value))
    (key : string) (w : world) :
  Forall complete before_ → missing_key entry = Some key →
  for_each (row_of_entry integer_affinity) (before_ ++ entry :: after_) w =
  Result (Raise (KeyError key)) w [].
Proof.
  intros Hb Hk. induction Hb as [|e before_ He _ IH]; cbn [app for_each].
  - by rewrite bind_run, (row_of_entry_missing _ key).
  - rewrite bind_run, row_of_entry_complete by done. cbn [res final trace].
    by rewrite bind_run, IH.
Qed.

(** X6. When an entry lacks one of the nine keys [insert_log_entries]
    raises the KeyError of the first key missing in the first such entry,
    and inserts nothing: not the entries before it either, and whatever the
    state of the connection. *)
Theorem insert_log_entries_missing_key (c : connection)
    (before_ : list (gmap string value)) (entry : gmap string value)
    (after_ : list (gmap string value)) (key : string) (w : world) :
  Forall complete before_ → missing_key entry = Some key →
  insert_log_entries integer_affinity c (before_ ++ entry :: after_) w =
  Result (Raise (KeyError key)) w [].
Proof.
  intros Hb Hk. unfold insert_log_entries.
  destruct (before_ ++ entry :: after_) eqn:E; [by destruct before_|].
  rewrite <- E. by rewrite bind_run, (for_each_missing _ _ _ key).
Qed.

(** X7. On a connection that reads a database with the [logs] table,
    [insert_log_entries] with complete entries adds one row per entry, in
    order, after the rows there, and prints their number. The rows are in
    the transaction of the connection only: the world, so the file, is
    unchanged, and it is a commit that writes them. *)
Theorem insert_log_entries_appends (c : connection) (w : world)
    (d : database) (old : list log_row) (entries : list (gmap string value)) :
  Forall complete entries → entries ≠ [] →
  visible c w = Some d → logs d = Some old →
  let d' := Database (Some (old ++ List.map (row_of integer_affinity) entries))
                     (errors d) in
  ∃ c', insert_log_entries integer_affinity c entries w =
          Result (Ret c') w [Print_inserted_logs (length entries)] ∧
        conn_path c' = conn_path c ∧ visible c' w = Some d' ∧
        select_count_logs c' w =
          Result (Ret (length old + length entries)) w [] ∧
        sqlite (final (commit c' w)) !! conn_path c = Some (Db d').
Proof.
  intros Hc Hne Hv Hl d'. exists (Conn (conn_path c) (Some d')).
  split_and!; try done.
  - destruct entries as [|entry entries]; [done|].
    unfold insert_log_entries.
    rewrite bind_run, for_each_complete by done. cbn [res final trace].
    rewrite bind_run, (insert_into_logs_run c w d old) by done.
    reflexivity.
  - rewrite select_count_logs_run. cbn. by rewrite length_app, length_map.
  - rewrite (commit_run _ w d') by done. cbn [final conn_path].
    apply written_lookup.
Qed.

(** X8. Without the [logs] table, or on a file that is not a database,
    [insert_log_entries] with entries to insert raises an error of SQLite,
    prints nothing and changes nothing. *)
Theorem insert_log_entries_needs_table (c : connection) (w : world)
    (entries : list (gmap string value)) :
  Forall complete entries → entries ≠ [] →
  (∀ d, visible c w = Some d → logs d = None) →
  ∃ e, is_sqlite_error e = true ∧
       insert_log_entries integer_affinity c entries w =
       Result (Raise e) w [].
Proof.
  intros Hc Hne Hno.
  destruct (insert_into_logs_fails c w
              (List.map (row_of integer_affinity) entries)) as (e & He & Hi).
  { by destruct entries. }
  { done. }
  exists e. split; [done|]. destruct entries as [|entry entries]; [done|].
  unfold insert_log_entries.
  rewrite bind_run, for_each_complete by done. cbn [res final trace].
  by rewrite bind_run, Hi.
Qed.

End InsertExtras.

(** X9. [insert_error_entries] with lines to insert adds, in order and
    after the rows there, one row per line: the line, the empty message,
    and the time of the insertion; the rows are in the transaction of the
    connection, the world is unchanged. Without the [errors] table it
    raises an error of SQLite and changes nothing. *)
Theorem insert_error_entries_appends (c : connection) (w : world)
    (error_entries : list str) :
  error_entries ≠ [] →
  (∀ d old, visible c w = Some d → errors d = Some old →
     let d' := Database (logs d)
                 (Some (old ++ List.map (error_row_of (clock w)) error_entries)) in
     insert_error_entries c error_entries w =
       Result (Ret (Conn (conn_path c) (Some d'))) w
              [Print_inserted_errors (length error_entries)]) ∧
  ((∀ d, visible c w = Some d → errors d = None) →
     ∃ e, is_sqlite_error e = true ∧
          insert_error_entries c error_entries w = Result (Raise e) w []).
Proof.
  intros Hne. destruct error_entries as [|line lines]; [done|]. split.
  - intros d old Hv He d'. unfold insert_error_entries, insert_into_errors.
    cbn [List.map]. rewrite !bind_run, (current_visible_run c w d Hv).
    cbn [res final trace]. rewrite He. unfold d', error_row_of, store.
    destruct (conn_tx c); run_m; cbn [List.map app length fst snd];
      by rewrite map_map.
  - intros Hno. unfold insert_error_entries, insert_into_errors.
    cbn [List.map]. rewrite !bind_run.
    destruct (visible c w) as [d|] eqn:Hv.
    + rewrite (current_visible_run c w d Hv). cbn [res final trace].
      rewrite (Hno d eq_refl). by exists OperationalError.
    + destruct (current_invisible c w Hv) as (e & He & ->). by exists e.
Qed.

(** X10. [is_db_up_to_date] never raises and changes nothing. It answers
    True exactly when both paths can be stat-ed and the database file is
    at least as recent as the log file (equal times count as up to date);
    a missing file on either side gives False. *)
Theorem is_db_up_to_date_compares_mtimes (db_path log_file_path : path)
    (w : world) :
  ∃ b, is_db_up_to_date db_path log_file_path w = Result (Ret b) w [] ∧
       (b = true ↔
        ∃ db_mtime log_mtime,
          mtimes w !! db_path = Some db_mtime ∧
          mtimes w !! log_file_path = Some log_mtime ∧
          (log_mtime ≤ db_mtime)%Z).
Proof.
  exists (up_to_date w db_path log_file_path).
  split; [apply is_db_up_to_date_run|]. unfold up_to_date.
  destruct (mtimes w !! db_path) as [t1|].
  2:{ split; [done|]. by intros (? & ? & ? & _). }
  destruct (mtimes w !! log_file_path) as [t2|].
  2:{ split; [done|]. by intros (? & ? & _ & ? & _). }
  rewrite bool_decide_eq_true. split.
  - intros Hle. by exists t1, t2.
  - by intros (? & ? & [= <-] & [= <-] & Hle).
Qed.

(** X11. [is_db_empty] never raises and changes nothing. It answers False
    exactly when it is given a connection that reads a database whose
    [logs] table has a row, rows of its open transaction included; with no
    connection, no database or no [logs] table it answers True. *)
Theorem is_db_empty_only_false_on_rows (conn : option connection)
    (w : world) :
  ∃ b, is_db_empty conn w = Result (Ret b) w [] ∧
       (b = false ↔
        ∃ c d row rows,
          conn = Some c ∧ visible c w = Some d ∧ logs d = Some (row :: rows)).
Proof.
  exists (no_rows w conn). split; [apply is_db_empty_run|]. unfold no_rows.
  destruct conn as [c|].
  2:{ split; [done|]. by intros (? & ? & ? & ? & ? & _). }
  destruct (visible c w) as [d|] eqn:Hvis.
  2:{ split; [done|]. intros (c0 & d0 & ? & ? & Hc & Hv & _). by simplify_eq. }
  destruct (logs d) as [[|row rows]|] eqn:Hl.
  - split; [done|]. intros (c0 & d0 & ? & ? & Hc & Hv & H).
    by simplify_eq.
  - split; [|done]. intros _. by exists c, d, row, rows.
  - split; [done|]. intros (c0 & d0 & ? & ? & Hc & Hv & H).
    by simplify_eq.
Qed.

(* ===================================================================== *)
(** ** summarizer.py: what the three aggregates say *)
(* ===================================================================== *)

Section SummaryExtras.
Variable group_order : list (sqlval * nat) → list (sqlval * nat).
Variable count_order : list (sqlval * nat) → list (sqlval * nat).

(** X12. The two rankings of a summary, [top_endpoints] and
    [top_client_ips], list at most ten keys, each once, with the number of
    rows of [logs] that have it, in order of decreasing count; a path or
    address of a row is left out only when ten are listed, none of them
    with fewer rows. This holds whatever the order SQLite gives to groups
    of equal count. *)
Theorem summarize_log_rankings (db_file : path) (w : world) (s : summary) :
  ranks count_order →
  res (summarize_log group_order count_order db_file w) = Ret (Some s) →
  ∃ d rows, sqlite w !! db_file = Some (Db d) ∧ logs d = Some rows ∧
    top10_of r_path rows (top_endpoints s) ∧
    top10_of r_ipaddress rows (top_client_ips s).
Proof.
  intros Hc. rewrite summarize_log_run.
  destruct (sqlite w !! db_file) as [[| |d]|]; try done.
  destruct (logs d) as [rows|] eqn:Hl; [|done].
  cbn [res]. intros [= <-]. exists d, rows.
  split_and!; try done; by apply ranked_top10.
Qed.

(** X13. The status code distribution of a summary has one entry per
    status code of [logs], with the number of rows that have it; no count
    is zero and the counts add up to the number of rows. This holds
    whatever the order SQLite returns the groups in. *)
Theorem summarize_log_status_distribution (db_file : path) (w : world)
    (s : summary) :
  arranges group_order →
  res (summarize_log group_order count_order db_file w) = Ret (Some s) →
  ∃ d rows, sqlite w !! db_file = Some (Db d) ∧ logs d = Some rows ∧
    distribution_of r_status_code rows (status_code_distribution s) ∧
    sum_list (status_code_distribution s).*2 = length rows.
Proof.
  intros Hg. rewrite summarize_log_run.
  destruct (sqlite w !! db_file) as [[| |d]|]; try done.
  destruct (logs d) as [rows|] eqn:Hl; [|done].
  cbn [res]. intros [= <-]. exists d, rows.
  split_and!; try done; by apply arranged_distribution.
Qed.

(** X14. [summarize_log] never changes a database that is there. It
    returns None only when the file cannot be opened; a store that opens
    but cannot be queried (no [logs] table, not a database) makes it raise
    the error of SQLite, and where there was no file it leaves a new,
    empty database behind and raises. *)
Theorem summarize_log_reads_only (db_file : path) (w : world) :
  let r := summarize_log group_order count_order db_file w in
  (∀ d, sqlite w !! db_file = Some (Db d) →
     final r = w ∧
     (logs d = None → r = Result (Raise OperationalError) w
                            [Print_connected db_file])) ∧
  (sqlite w !! db_file = Some NotADatabase →
     r = Result (Raise DatabaseError) w [Print_connected db_file]) ∧
  (sqlite w !! db_file = Some Vacant →
     res r = Raise OperationalError ∧
     sqlite (final r) !! db_file = Some (Db empty_database)).
Proof.
  cbn zeta. rewrite summarize_log_run. split_and!.
  - intros d ->. split; [by destruct (logs d)|]. by intros ->.
  - by intros ->.
  - intros ->. cbn [res final]. split; [done|]. apply created_lookup.
Qed.

End SummaryExtras.

(* ===================================================================== *)
(** ** etl_apache.py: the footprint of a run, reruns, failures *)
(* ===================================================================== *)

Lemma written_written (p : path) (d d' : database) (w : world) :
  written p d' (written p d w) = written p d' w.
Proof. unfold written. cbn. by rewrite !insert_insert_eq. Qed.

Lemma rewritten_step (p : path) (w w' : world) (d : database) :
  rewritten p w w' → rewritten p w (written p d w').
Proof.
  intros [->|[d0 ->]]; right; exists d; [done|apply written_written].
Qed.

Lemma rewritten_trans (p : path) (w1 w2 w3 : world) :
  rewritten p w1 w2 → rewritten p w2 w3 → rewritten p w1 w3.
Proof. intros H12 [->|[d ->]]; [done|by apply rewritten_step]. Qed.

Lemma rewritten_frame (p : path) (w w' : world) :
  rewritten p w w' →
  texts w' = texts w ∧ clock w' = clock w ∧
  ∀ q, q ≠ p → mtimes w' !! q = mtimes w !! q ∧
               sqlite w' !! q = sqlite w !! q.
Proof.
  intros [->|[d ->]]; [done|]. split_and!; try done.
  intros q Hq. cbn. by rewrite !lookup_insert_ne.
Qed.

Lemma current_pure (c : connection) (w : world) : final (current c w) = w.
Proof.
  unfold current. destruct (conn_tx c); [done|]. run_m.
  by destruct (sqlite w !! conn_path c) as [[| |d]|].
Qed.

Lemma frames_then {B} (m : M connection) (f : connection → M B)
    (p : path) (w0 w : world) (Q : outcome B → world → Prop) :
  wp m w (frames p w0) →
  (∀ c' w', rewritten p w0 w' → conn_path c' = p → wp (f c') w' Q) →
  (∀ e w', rewritten p w0 w' → Q (Raise e) w') →
  wp (m ≫= f) w Q.
Proof.
  intros Hm Hf He. apply wp_bind. eapply wp_mono; [exact Hm|].
  intros [c'|e] w' [Hw Hc]; auto.
Qed.

Lemma store_frames (p : path) (w0 w : world) (c : connection) (dml : bool)
    (d : database) :
  rewritten p w0 w → conn_path c = p → wp (store c dml d) w (frames p w0).
Proof.
  intros Hw <-. unfold wp, store, write_db.
  destruct (conn_tx c); [done|]. destruct dml; [done|]. run_m.
  split; [|done]. by apply rewritten_step.
Qed.

Lemma commit_frames (p : path) (w0 w : world) (c : connection) :
  rewritten p w0 w → conn_path c = p → wp (commit c) w (frames p w0).
Proof.
  intros Hw <-. unfold wp, commit, write_db.
  destruct (conn_tx c); [|done]. run_m.
  split; [|done]. by apply rewritten_step.
Qed.

Lemma create_logs_frames (p : path) (w0 w : world) (c : connection) :
  rewritten p w0 w → conn_path c = p →
  wp (create_logs_if_not_exists c) w (frames p w0).
Proof.
  intros Hw Hc. apply wp_bind, wp_pure; [apply current_pure|].
  intros [d|e]; [|done]. destruct (logs d); [done|]. by apply store_frames.
Qed.

Lemma create_errors_frames (p : path) (w0 w : world) (c : connection) :
  rewritten p w0 w → conn_path c = p →
  wp (create_errors_if_not_exists c) w (frames p w0).
Proof.
  intros Hw Hc. apply wp_bind, wp_pure; [apply current_pure|].
  intros [d|e]; [|done]. destruct (errors d); [done|]. by apply store_frames.
Qed.

Lemma create_table_frames (p : path) (w0 w : world) (c : connection) :
  rewritten p w0 w → conn_path c = p → wp (create_table c) w (frames p w0).
Proof.
  intros Hw Hc. unfold create_table. apply wp_try.
  assert (Hraise : ∀ e w', rewritten p w0 w' →
            if is_sqlite_error e
            then wp (_ ← emit Print_create_error; mret c) w' (frames p w0)
            else frames p w0 (Raise e) w').
  { intros e w' Hw'. by destruct (is_sqlite_error e). }
  eapply frames_then; [by apply create_logs_frames| |exact Hraise].
  intros c1 w1 Hw1 Hc1.
  eapply frames_then; [by apply create_errors_frames| |exact Hraise].
  intros c2 w2 Hw2 Hc2.
  eapply frames_then; [by apply commit_frames| |exact Hraise].
  intros c3 w3 Hw3 Hc3. by apply wp_bind, wp_emit, wp_ret.
Qed.

Lemma insert_into_logs_frames (p : path) (w0 w : world) (c : connection)
    (rows : list log_row) :
  rewritten p w0 w → conn_path c = p →
  wp (insert_into_logs c rows) w (frames p w0).
Proof.
  intros Hw Hc. destruct rows as [|row rows]; [done|].
  unfold insert_into_logs. apply wp_bind, wp_pure; [apply current_pure|].
  intros [d|e]; [|done]. destruct (logs d); [|done]. by apply store_frames.
Qed.

Lemma insert_into_errors_frames (p : path) (w0 w : world) (c : connection)
    (rows : list (sqlval * sqlval)) :
  rewritten p w0 w → conn_path c = p →
  wp (insert_into_errors c rows) w (frames p w0).
Proof.
  intros Hw Hc. destruct rows as [|row rows]; [done|].
  unfold insert_into_errors. apply wp_bind, wp_pure; [apply current_pure|].
  intros [d|e]; [|done]. apply wp_bind, wp_get_world.
  destruct (errors d); [|done]. by apply store_frames.
Qed.

Lemma insert_error_entries_frames (p : path) (w0 w : world) (c : connection)
    (error_entries : list str) :
  rewritten p w0 w → conn_path c = p →
  wp (insert_error_entries c error_entries) w (frames p w0).
Proof.
  intros Hw Hc. destruct error_entries as [|line lines]; [done|].
  unfold insert_error_entries.
  eapply frames_then; [by apply insert_into_errors_frames| |done].
  intros c1 w1 Hw1 Hc1. by apply wp_bind, wp_emit, wp_ret.
Qed.

Section Footprint.
Variable unicode_decimal : N → bool.
Variable integer_affinity : str → sqlval.

Lemma insert_log_entries_frames (p : path) (w0 w : world) (c : connection)
    (entries : list (gmap string value)) :
  rewritten p w0 w → conn_path c = p →
  wp (insert_log_entries integer_affinity c entries) w (frames p w0).
Proof.
  intros Hw Hc. destruct entries as [|entry entries]; [done|].
  unfold insert_log_entries. apply wp_bind, wp_pure.
  { apply for_each_pure. intros x. apply row_of_entry_pure. }
  intros [rows|e]; [|done].
  eapply frames_then; [by apply insert_into_logs_frames| |done].
  intros c1 w1 Hw1 Hc1. by apply wp_bind, wp_emit, wp_ret.
Qed.

Lemma create_connection_frames (db_file : path) (w : world) :
  wp (create_connection db_file) w
     (fun o w' => rewritten db_file w w' ∧
                  ∃ conn, o = Ret conn ∧
                    ∀ c, conn = Some c → conn_path c = db_file).
Proof.
  unfold wp. rewrite create_connection_run.
  destruct (sqlite w !! db_file) as [[| |d]|]; cbn [res final].
  - split; [right; by eexists|]. eexists. split; [done|]. by intros c [= <-].
  - split; [by left|]. eexists. split; [done|]. by intros c [= <-].
  - split; [by left|]. eexists. split; [done|]. by intros c [= <-].
  - split; [by left|]. eexists. split; [done|]. done.
Qed.

Lemma load_frames (parsed_entries : list (gmap string value))
    (error_entries : list str) (db_file : path) (w0 w : world) :
  rewritten db_file w0 w →
  wp (load integer_affinity parsed_entries error_entries db_file) w
     (fun _ w' => rewritten db_file w0 w').
Proof.
  intros Hw. unfold load. apply wp_bind.
  eapply wp_mono; [apply create_connection_frames|].
  intros o w1 (Hw1 & conn & -> & Hconn).
  assert (Hw01 : rewritten db_file w0 w1) by (by eapply rewritten_trans).
  destruct conn as [c0|]; [|done]. specialize (Hconn c0 eq_refl).
  eapply frames_then; [by apply create_table_frames| |done].
  intros c1 w2 Hw2 Hc1.
  eapply frames_then; [by apply insert_log_entries_frames| |done].
  intros c2 w3 Hw3 Hc2.
  eapply frames_then; [by apply insert_error_entries_frames| |done].
  intros c3 w4 Hw4 Hc3.
  eapply frames_then; [by apply commit_frames| |done].
  intros c4 w5 Hw5 Hc4. by apply wp_bind, wp_ret, wp_emit.
Qed.

Lemma etl_frames (input_path db_file : path) (w0 w : world) :
  rewritten db_file w0 w →
  wp (etl unicode_decimal integer_affinity input_path db_file) w
     (fun _ w' => rewritten db_file w0 w').
Proof.
  intros Hw. unfold etl. apply wp_bind, wp_emit. apply wp_bind.
  unfold wp at 1. rewrite extract_run.
  destruct (texts w !! input_path) as [content|]; cbn [res final]; [|done].
  apply wp_bind. unfold wp at 1. rewrite transform_run. cbn [res final].
  destruct (parse_log unicode_decimal content) as [parsed errs].
  apply wp_bind. eapply wp_mono; [by apply load_frames|].
  intros [[]|e] w' Hw'; [|done]. by apply wp_emit.
Qed.

Lemma after_checks_rewritten (w : world) (db_file : path) :
  rewritten db_file w (after_checks w db_file).
Proof.
  unfold after_checks. destruct (mtimes w !! db_file); [|by left].
  destruct (sqlite w !! db_file) as [[| |d]|]; try by left.
  right. by eexists.
Qed.

Lemma run_etl_if_needed_frames (input_path db_file : path)
    (first_run : bool) (w : world) :
  rewritten db_file w
    (final (run_etl_if_needed unicode_decimal integer_affinity input_path
              db_file first_run w)).
Proof.
  rewrite run_etl_if_needed_run.
  destruct (fresh_and_populated w input_path db_file); [by left|].
  cbn [final].
  apply (etl_frames input_path db_file w (after_checks w db_file)
           (after_checks_rewritten w db_file)).
Qed.

End Footprint.

Section Reruns.
Variable unicode_decimal : N → bool.
Variable integer_affinity : str → sqlval.

(** The world a run that loads ends in, when it wrote the database. *)
Lemma run_final_written (input_path db_file : path) (first_run : bool)
    (w : world) (d : database) (content : str) :
  opened_as w db_file = Some d →
  texts w !! input_path = Some content →
  fresh_and_populated w input_path db_file = false →
  let r := run_etl_if_needed unicode_decimal integer_affinity input_path
             db_file first_run w in
  let d' := Database
              (Some (default [] (logs d) ++
                     log_rows unicode_decimal integer_affinity content))
              (Some (default [] (errors d) ++
                     error_rows unicode_decimal content (clock w))) in
  res r = Ret tt ∧ sqlite (final r) !! db_file = Some (Db d') ∧
  (final r = w ∨ final r = written db_file d' w).
Proof.
  intros Hd Ht Hf r d'.
  destruct (run_appends unicode_decimal integer_affinity input_path db_file
              first_run w d content Hd Ht Hf) as [Hres Hfinal].
  fold r in Hres, Hfinal. fold d' in Hfinal. split_and!; try done.
  destruct (run_etl_if_needed_frames unicode_decimal integer_affinity
              input_path db_file first_run w) as [Hw|[d0 Hw]];
    fold r in Hw; [by left|right].
  rewrite Hw in Hfinal. rewrite written_lookup in Hfinal.
  injection Hfinal as ->. done.
Qed.

Lemma written_fresh_and_populated (input_path db_file : path) (w : world)
    (d : database) (row : log_row) (rows : list log_row) (t : Z) :
  input_path ≠ db_file → mtimes w !! input_path = Some t →
  (t ≤ clock w)%Z → logs d = Some (row :: rows) →
  fresh_and_populated (written db_file d w) input_path db_file = true.
Proof.
  intros Hne Ht Hle Hl. apply fresh_and_populated_true.
  exists (clock w), t, d, row, rows. cbn.
  rewrite !lookup_insert_eq, lookup_insert_ne by done. done.
Qed.

(** X16. After a run that loaded a file with at least one matching line
    every later run is skipped, with or without [first_run], and changes
    nothing, as long as neither file is touched: provided the source is
    another file than the database and was last modified no later than the
    time of the load. *)
Theorem rerun_after_load_is_skipped (input_path db_file : path)
    (first_run again : bool) (w w1 : world) (d : database) (content : str)
    (t : Z) :
  opened_as w db_file = Some d →
  texts w !! input_path = Some content →
  (parse_log unicode_decimal content).1 ≠ [] →
  fresh_and_populated w input_path db_file = false →
  input_path ≠ db_file →
  mtimes w !! input_path = Some t → (t ≤ clock w)%Z →
  let r := run_etl_if_needed unicode_decimal integer_affinity input_path
             db_file first_run w in
  mtimes w1 !! input_path = mtimes (final r) !! input_path →
  mtimes w1 !! db_file = mtimes (final r) !! db_file →
  sqlite w1 !! db_file = sqlite (final r) !! db_file →
  res r = Ret tt ∧
  run_etl_if_needed unicode_decimal integer_affinity input_path db_file
    again w1 =
  Result (Ret tt) w1
    [Print_connected db_file;
     if again then Info_first_run_skipping else Info_skipping].
Proof.
  intros Hd Ht Hp Hf Hne Hm Hle r Hm1 Hm2 Hs1.
  destruct (run_final_written input_path db_file first_run w d content
              Hd Ht Hf) as (Hres & Hs & Hw).
  fold r in Hres, Hs, Hw. split; [done|].
  assert (Hrows : ∃ row rows,
            default [] (logs d) ++
            log_rows unicode_decimal integer_affinity content = row :: rows).
  { unfold log_rows.
    destruct (parse_log unicode_decimal content).1 as [|entry entries];
      [done|].
    destruct (default [] (logs d)) as [|row rows]; by eexists _, _. }
  destruct Hrows as (row & rows & Hrows).
  assert (Hfresh : fresh_and_populated (final r) input_path db_file = true).
  { destruct Hw as [Hw|Hw].
    - exfalso. rewrite Hw in Hs. unfold opened_as in Hd. rewrite Hs in Hd.
      injection Hd as Hd. apply (f_equal logs) in Hd. cbn [logs] in Hd.
      destruct (logs d) as [old|]; [|done]. injection Hd as Hd.
      apply (f_equal length) in Hd. cbn [default] in Hd.
      rewrite length_app in Hd. unfold log_rows in Hd.
      rewrite length_map in Hd.
      destruct (parse_log unicode_decimal content).1; [done|].
      cbn [length] in Hd. lia.
    - rewrite Hw. eapply written_fresh_and_populated; try done.
      cbn [logs]. by rewrite Hrows. }
  assert (Hfresh1 : fresh_and_populated w1 input_path db_file = true).
  { rewrite <- Hfresh. unfold fresh_and_populated. by rewrite Hm1, Hm2, Hs1. }
  by rewrite run_etl_if_needed_run, Hfresh1.
Qed.

(** X17. A file without a single matching line leaves [logs] without
    rows, so the gate never holds: any later run against that database
    loads the file again, and the lines in error are in [errors] once per
    run. *)
Theorem unmatched_lines_are_stored_on_every_run (input_path db_file : path)
    (first_run again : bool) (w w1 : world) (d : database) (content : str) :
  opened_as w db_file = Some d →
  default [] (logs d) = [] →
  texts w !! input_path = Some content →
  (parse_log unicode_decimal content).1 = [] →
  let r := run_etl_if_needed unicode_decimal integer_affinity input_path
             db_file first_run w in
  sqlite w1 !! db_file = sqlite (final r) !! db_file →
  texts w1 !! input_path = Some content →
  let r' := run_etl_if_needed unicode_decimal integer_affinity input_path
              db_file again w1 in
  res r = Ret tt ∧ res r' = Ret tt ∧
  Info_running_etl ∈ trace r' ∧
  sqlite (final r') !! db_file =
    Some (Db (Database (Some [])
                (Some (default [] (errors d) ++
                       error_rows unicode_decimal content (clock w) ++
                       error_rows unicode_decimal content (clock w1))))).
Proof.
  intros Hd Hl Ht Hp r Hs1 Ht1 r'.
  assert (Hgate : ∀ w0 d0, opened_as w0 db_file = Some d0 →
            default [] (logs d0) = [] →
            fresh_and_populated w0 input_path db_file = false).
  { intros w0 d0 Hd0 Hl0. unfold fresh_and_populated.
    unfold opened_as in Hd0.
    destruct (mtimes w0 !! db_file), (mtimes w0 !! input_path); try done.
    destruct (sqlite w0 !! db_file) as [[| |d1]|]; try done.
    injection Hd0 as ->.
    destruct (logs d0) as [[|row rows]|]; try done; apply andb_false_r. }
  destruct (run_final_written input_path db_file first_run w d content
              Hd Ht (Hgate w d Hd Hl)) as (Hres & Hs & _).
  fold r in Hres, Hs. unfold log_rows in Hs.
  rewrite Hl, Hp in Hs. cbn [List.map app] in Hs.
  set (d1 := Database (Some [])
               (Some (default [] (errors d) ++
                      error_rows unicode_decimal content (clock w)))).
  assert (Hd1 : opened_as w1 db_file = Some d1)
    by (unfold opened_as; by rewrite Hs1, Hs).
  destruct (run_final_written input_path db_file again w1 d1 content
              Hd1 Ht1 (Hgate _ d1 Hd1 eq_refl)) as (Hres' & Hs' & _).
  fold r' in Hres', Hs'. split_and!; try done.
  - apply etl_entered_iff. by apply (Hgate _ d1).
  - rewrite Hs'. unfold log_rows. rewrite Hp.
    unfold d1. cbn [logs errors from_option List.map app id].
    by rewrite <- app_assoc.
Qed.

(** X18. When the source cannot be read and the gate does not hold, the
    run reports the failure of the extraction and raises the error of the
    read: nothing is parsed, no row is inserted, and a database that was
    there is unchanged. *)
Theorem run_with_unreadable_source (input_path db_file : path)
    (first_run : bool) (w : world) :
  texts w !! input_path = None →
  fresh_and_populated w input_path db_file = false →
  let r := run_etl_if_needed unicode_decimal integer_affinity input_path
             db_file first_run w in
  r = Result (Raise OSError) (after_checks w db_file)
        (checks_trace w db_file ++ [Info_running_etl; Error_extracting]) ∧
  (∀ d, sqlite w !! db_file = Some (Db d) → final r = w).
Proof.
  intros Ht Hf r. unfold r. rewrite run_etl_if_needed_run, Hf. cbn zeta.
  assert (He : etl unicode_decimal integer_affinity input_path db_file
                 (after_checks w db_file) =
               Result (Raise OSError) (after_checks w db_file)
                      [Info_running_etl; Error_extracting]).
  { unfold etl. rewrite bind_run. cbn [emit res final trace].
    rewrite bind_run, extract_run.
    destruct (rewritten_frame _ _ _ (after_checks_rewritten w db_file))
      as (Htexts & _).
    by rewrite Htexts, Ht. }
  rewrite He. cbn [res final trace]. split; [done|].
  intros d Hs. unfold after_checks. rewrite Hs.
  by destruct (mtimes w !! db_file).
Qed.

(** X19. When the database cannot be opened, [load] reports it and
    returns normally without a change, so the run still ends with the
    message that the ETL process completed successfully. *)
Theorem run_completes_without_a_store (input_path db_file : path)
    (first_run : bool) (w : world) (content : str)
    (parsed_entries : list (gmap string value)) (error_entries : list str) :
  sqlite w !! db_file = None →
  load integer_affinity parsed_entries error_entries db_file w =
    Result (Ret tt) w [Print_connect_error; Error_failed_to_connect] ∧
  (texts w !! input_path = Some content →
   let r := run_etl_if_needed unicode_decimal integer_affinity input_path
              db_file first_run w in
   res r = Ret tt ∧ final r = w ∧
   Error_failed_to_connect ∈ trace r ∧
   last (trace r) = Some Info_etl_completed).
Proof.
  intros Hs.
  assert (Hload : ∀ parsed errs,
            load integer_affinity parsed errs db_file w =
            Result (Ret tt) w [Print_connect_error; Error_failed_to_connect]).
  { intros parsed errs. unfold load.
    by rewrite bind_run, create_connection_run, Hs. }
  split; [apply Hload|]. intros Ht r. unfold r.
  assert (Hf : fresh_and_populated w input_path db_file = false).
  { unfold fresh_and_populated. rewrite Hs.
    by destruct (mtimes w !! db_file), (mtimes w !! input_path). }
  assert (Ha : after_checks w db_file = w).
  { unfold after_checks. rewrite Hs. by destruct (mtimes w !! db_file). }
  rewrite run_etl_if_needed_run, Hf, Ha. cbn zeta.
  unfold etl. rewrite bind_run. cbn [emit res final trace].
  rewrite bind_run, extract_run, Ht. cbn [res final trace].
  rewrite bind_run, transform_run. cbn [res final trace].
  destruct (parse_log unicode_decimal content) as [parsed errs].
  rewrite bind_run, Hload. cbn [res final trace emit fst snd].
  split_and!; try done.
  - rewrite !elem_of_app. right. set_solver.
  - rewrite !app_assoc. apply last_snoc.
Qed.

(** X20. On a file that is not a database [create_table] only reports its
    error, and [load] goes on to the insertions: with an entry or a line
    to insert it raises the error of SQLite, uncaught and with nothing
    changed; with nothing to insert it reports a load of no entry. *)
Theorem load_into_a_corrupt_store (db_file : path) (w : world)
    (parsed_entries : list (gmap string value)) (error_entries : list str) :
  sqlite w !! db_file = Some NotADatabase →
  Forall complete parsed_entries →
  let r := load integer_affinity parsed_entries error_entries db_file w in
  final r = w ∧
  (parsed_entries ≠ [] ∨ error_entries ≠ [] →
     r = Result (Raise DatabaseError) w
           [Print_connected db_file; Print_create_error]) ∧
  (parsed_entries = [] → error_entries = [] →
     r = Result (Ret tt) w
           [Print_connected db_file; Print_create_error; Info_loaded 0]).
Proof.
  intros Hs Hc r.
  assert (Hcur : current (Conn db_file None) w =
                 Result (Raise DatabaseError) w []).
  { unfold current. cbn [conn_tx conn_path]. run_m. by rewrite Hs. }
  assert (Hct : create_table (Conn db_file None) w =
                Result (Ret (Conn db_file None)) w [Print_create_error]).
  { unfold create_table, try_except, create_logs_if_not_exists.
    by rewrite !bind_run, Hcur. }
  assert (Hr : r =
    match parsed_entries, error_entries with
    | [], [] => Result (Ret tt) w
                  [Print_connected db_file; Print_create_error; Info_loaded 0]
    | _, _ => Result (Raise DatabaseError) w
                [Print_connected db_file; Print_create_error]
    end).
  { unfold r, load. rewrite bind_run, create_connection_run, Hs.
    cbn [res final trace]. rewrite bind_run, Hct. cbn [res final trace].
    rewrite bind_run. destruct parsed_entries as [|entry entries].
    - cbn [insert_log_entries mret M_ret res final trace].
      rewrite bind_run. destruct error_entries as [|line lines]; [done|].
      unfold insert_error_entries, insert_into_errors. cbn [List.map].
      by rewrite !bind_run, Hcur.
    - unfold insert_log_entries.
      rewrite bind_run, for_each_complete by done. cbn [res final trace].
      unfold insert_into_logs. cbn [List.map].
      by rewrite !bind_run, Hcur. }
  rewrite Hr. split_and!.
  - by destruct parsed_entries, error_entries.
  - intros [H|H]; destruct parsed_entries, error_entries; done.
  - by intros -> ->.
Qed.

End Reruns.

Section FirstLoad.
Variable unicode_decimal : N → bool.
Variable integer_affinity : str → sqlval.
Variable group_order : list (sqlval * nat) → list (sqlval * nat).
Variable count_order : list (sqlval * nat) → list (sqlval * nat).

(** X21. A run where there is no database yet creates it and stores every
    line of the source in exactly one of the two tables: the rows of
    [logs] and of [errors] together are as many as the lines of the file,
    and [summarize_log] then returns a summary of the rows of [logs]: its
    rankings and its distribution list their keys with the numbers of
    those rows, whatever the order SQLite returns groups in. *)
Theorem first_load_stores_every_line (input_path db_file : path)
    (first_run : bool) (w : world) (content : str) :
  arranges group_order → ranks count_order →
  sqlite w !! db_file = Some Vacant →
  texts w !! input_path = Some content →
  let r := run_etl_if_needed unicode_decimal integer_affinity input_path
             db_file first_run w in
  ∃ rows lines s,
    res r = Ret tt ∧
    sqlite (final r) !! db_file =
      Some (Db (Database (Some rows) (Some lines))) ∧
    length rows + length lines = length (splitlines content) ∧
    res (summarize_log group_order count_order db_file (final r)) =
      Ret (Some s) ∧
    summarizes rows s.
Proof.
  intros Hg Hc Hs Ht r.
  assert (Hd : opened_as w db_file = Some empty_database)
    by (unfold opened_as; by rewrite Hs).
  assert (Hf : fresh_and_populated w input_path db_file = false).
  { unfold fresh_and_populated. rewrite Hs.
    by destruct (mtimes w !! db_file), (mtimes w !! input_path). }
  destruct (run_appends unicode_decimal integer_affinity input_path db_file
              first_run w empty_database content Hd Ht Hf) as [Hres Hfinal].
  fold r in Hres, Hfinal. cbn [empty_database logs errors from_option app]
    in Hfinal.
  exists (log_rows unicode_decimal integer_affinity content),
         (error_rows unicode_decimal content (clock w)),
         (summary_of group_order count_order
            (log_rows unicode_decimal integer_affinity content)).
  split_and!; try done.
  - unfold log_rows, error_rows. rewrite !length_map, parse_log_unfold.
    cbn [fst snd]. apply omap_filter_length.
  - by rewrite summarize_log_run, Hfinal.
  - by apply summary_of_summarizes.
Qed.

End FirstLoad.

(* ===================================================================== *)
(** ** The further properties on concrete inputs *)
(* ===================================================================== *)

Lemma sample_entry_complete : complete sample_entry.
Proof.
  exact (matched_entry_complete ascii_decimal sample_line sample_groups
           sample_line_matches).
Qed.

Lemma sample_entry_parsed :
  sample_entry ∈ (parse_log ascii_decimal sample_log).1.
Proof. rewrite parse_log_sample. apply list_elem_of_here. Qed.

Ltac all_chars := vm_compute; repeat constructor.

Lemma sample_fields_grammatical :
  grammatical ascii_decimal (lit "127.0.0.1")
    (lit "10/Oct/2023:13:55:36 -0700") (lit "GET") (lit "/index.html")
    (lit "HTTP/1.1") (lit "200") (lit "1024") (lit "-") (lit "curl/7.68.0").
Proof.
  unfold grammatical, run_of, octet. split_and!; try (by vm_compute);
    try all_chars.
  exists (lit "127"), (lit "0"), (lit "0"), (lit "1").
  split_and!; try (by vm_compute); try (vm_compute; lia); all_chars.
Qed.

Lemma parse_log_entries_grammatical_witness :
  ∃ ip ts me pa pr st by_ rf ua,
    sample_entry = entry_of_match (groups_of ip ts me pa pr st by_ rf ua) ∧
    format_line ip ts me pa pr st by_ rf ua ∈ splitlines sample_log ∧
    grammatical ascii_decimal ip ts me pa pr st by_ rf ua.
Proof.
  exact (parse_log_entries_grammatical ascii_decimal sample_log sample_entry
           sample_entry_parsed).
Defined.

Lemma formatted_line_parses_witness :
  let line := format_line (lit "127.0.0.1") (lit "10/Oct/2023:13:55:36 -0700")
                (lit "GET") (lit "/index.html") (lit "HTTP/1.1") (lit "200")
                (lit "1024") (lit "-") (lit "curl/7.68.0") in
  line = sample_line ∧
  Re.match_ (log_pattern ascii_decimal) line = Some sample_groups ∧
  (Forall (fun c => is_linebreak c = false) line →
   parse_log ascii_decimal line = ([sample_entry], [])).
Proof.
  intros line. split; [reflexivity|].
  apply (formatted_line_parses ascii_decimal (lit "127.0.0.1")
           (lit "10/Oct/2023:13:55:36 -0700") (lit "GET") (lit "/index.html")
           (lit "HTTP/1.1") (lit "200") (lit "1024") (lit "-")
           (lit "curl/7.68.0")).
  - reflexivity.
  - exact sample_fields_grammatical.
  - unfold spaceless. all_chars.
  - unfold spaceless. all_chars.
Defined.

Lemma short_lines_are_errors_witness :
  bad_line ∈ splitlines sample_log ∧ length bad_line < min_line_length ∧
  bad_line ∈ (parse_log ascii_decimal sample_log).2.
Proof.
  assert (H1 : bad_line ∈ splitlines sample_log).
  { rewrite sample_log_lines. apply list_elem_of_further, list_elem_of_here. }
  assert (H2 : length bad_line < min_line_length) by (vm_compute; lia).
  split; [exact H1|]. split; [exact H2|].
  exact (proj2 (short_lines_are_errors ascii_decimal sample_log bad_line)
           H1 H2).
Defined.

Lemma parse_log_first_line_witness :
  parse_log ascii_decimal (bad_line ++ 10%N :: sample_line) =
  let '(log_entries, error_entries) := parse_log ascii_decimal sample_line in
  match Re.match_ (log_pattern ascii_decimal) bad_line with
  | Some m => (entry_of_match m :: log_entries, error_entries)
  | None => (log_entries, bad_line :: error_entries)
  end.
Proof.
  apply (parse_log_first_line ascii_decimal bad_line sample_line).
  all_chars.
Defined.

Lemma create_table_ensures_schema_witness :
  let c := Conn "logs.db" None in
  let r := create_table c schemaless_world in
  ∃ c', res r = Ret c' ∧ conn_path c' = "logs.db" ∧ conn_tx c' = None ∧
    sqlite (final r) !! "logs.db" = Some (Db (Database (Some []) (Some []))) ∧
    create_table c' (final r) =
      Result (Ret c') (final r) [Print_table_created].
Proof.
  intros c r.
  exact (proj1 (proj2 (create_table_ensures_schema c schemaless_world))
           empty_database eq_refl).
Defined.

Lemma insert_log_entries_missing_key_witness :
  Forall complete [sample_entry] ∧ missing_key partial_entry = Some "method" ∧
  insert_log_entries ascii_integer_affinity (Conn "logs.db" None)
    ([sample_entry] ++ partial_entry :: [sample_entry]) loaded_world =
  Result (Raise (KeyError "method")) loaded_world [].
Proof.
  assert (H1 : Forall complete [sample_entry]).
  { constructor; [exact sample_entry_complete|constructor]. }
  assert (H2 : missing_key partial_entry = Some "method")
    by (vm_compute; reflexivity).
  split; [exact H1|]. split; [exact H2|].
  exact (insert_log_entries_missing_key ascii_integer_affinity
           (Conn "logs.db" None) [sample_entry] partial_entry [sample_entry]
           "method" loaded_world H1 H2).
Defined.

Lemma insert_log_entries_appends_witness :
  let c := Conn "logs.db" None in
  let d' := Database (Some ([sample_row] ++
                            List.map (row_of ascii_integer_affinity)
                                     [sample_entry; sample_entry]))
                     (Some []) in
  ∃ c', insert_log_entries ascii_integer_affinity c
          [sample_entry; sample_entry] loaded_world =
          Result (Ret c') loaded_world [Print_inserted_logs 2] ∧
        conn_path c' = "logs.db" ∧ visible c' loaded_world = Some d' ∧
        select_count_logs c' loaded_world =
          Result (Ret (1 + 2)) loaded_world [] ∧
        sqlite (final (commit c' loaded_world)) !! "logs.db" = Some (Db d').
Proof.
  intros c d'.
  apply (insert_log_entries_appends ascii_integer_affinity c loaded_world
           (Database (Some [sample_row]) (Some [])) [sample_row]
           [sample_entry; sample_entry]).
  - repeat (constructor; [exact sample_entry_complete|]). constructor.
  - discriminate.
  - reflexivity.
  - reflexivity.
Defined.

Lemma insert_log_entries_needs_table_witness :
  ∃ e, is_sqlite_error e = true ∧
       insert_log_entries ascii_integer_affinity (Conn "logs.db" None)
         [sample_entry] schemaless_world =
       Result (Raise e) schemaless_world [].
Proof.
  apply (insert_log_entries_needs_table ascii_integer_affinity
           (Conn "logs.db" None) schemaless_world [sample_entry]).
  - constructor; [exact sample_entry_complete|constructor].
  - discriminate.
  - intros d Hv. vm_compute in Hv. injection Hv as <-. reflexivity.
Defined.

Lemma insert_error_entries_appends_witness :
  insert_error_entries (Conn "logs.db" None) [bad_line] loaded_world =
  Result (Ret (Conn "logs.db"
                 (Some (Database (Some [sample_row])
                          (Some ([] ++ List.map (error_row_of 60)
                                         [bad_line]))))))
         loaded_world [Print_inserted_errors 1].
Proof.
  assert (Hne : [bad_line] ≠ []) by discriminate.
  exact (proj1 (insert_error_entries_appends (Conn "logs.db" None)
                  loaded_world [bad_line] Hne)
           (Database (Some [sample_row]) (Some [])) [] eq_refl eq_refl).
Defined.

Lemma busy_world_summary :
  res (summarize_log key_ascending count_descending "logs.db" busy_world) =
  Ret (Some busy_summary).
Proof. by rewrite busy_rows_summary. Qed.

Lemma summarize_log_rankings_witness :
  res (summarize_log key_ascending count_descending "logs.db" busy_world) =
    Ret (Some busy_summary) ∧
  ∃ d rows, sqlite busy_world !! "logs.db" = Some (Db d) ∧
    logs d = Some rows ∧
    top10_of r_path rows (top_endpoints busy_summary) ∧
    top10_of r_ipaddress rows (top_client_ips busy_summary).
Proof.
  split; [exact busy_world_summary|].
  exact (summarize_log_rankings key_ascending count_descending "logs.db"
           busy_world busy_summary count_descending_ranks
           busy_world_summary).
Defined.

Lemma summarize_log_status_distribution_witness :
  res (summarize_log key_ascending count_descending "logs.db" busy_world) =
    Ret (Some busy_summary) ∧
  ∃ d rows, sqlite busy_world !! "logs.db" = Some (Db d) ∧
    logs d = Some rows ∧
    distribution_of r_status_code rows
      (status_code_distribution busy_summary) ∧
    sum_list (status_code_distribution busy_summary).*2 = length rows.
Proof.
  split; [exact busy_world_summary|].
  exact (summarize_log_status_distribution key_ascending count_descending
           "logs.db" busy_world busy_summary key_ascending_arranges
           busy_world_summary).
Defined.

Lemma summarize_log_reads_only_witness :
  summarize_log key_ascending count_descending "logs.db" schemaless_world =
  Result (Raise OperationalError) schemaless_world [Print_connected "logs.db"].
Proof.
  exact (proj2 (proj1 (summarize_log_reads_only key_ascending
                         count_descending "logs.db" schemaless_world)
                  empty_database eq_refl) eq_refl).
Defined.

Lemma rerun_after_load_is_skipped_witness :
  let run := run_etl_if_needed ascii_decimal ascii_integer_affinity
               "access.log" "logs.db" in
  let r := run false stale_world in
  res r = Ret tt ∧
  run true (final r) =
  Result (Ret tt) (final r) [Print_connected "logs.db"; Info_first_run_skipping].
Proof.
  intros run r.
  destruct stale_world_facts as (_ & Hm & Hs & Ht & Hf).
  apply (rerun_after_load_is_skipped ascii_decimal ascii_integer_affinity
           "access.log" "logs.db" false true stale_world (final r)
           (Database (Some [sample_row]) (Some [])) sample_log 55%Z).
  - reflexivity.
  - exact Ht.
  - rewrite parse_log_sample. discriminate.
  - exact Hf.
  - discriminate.
  - exact Hm.
  - vm_compute. discriminate.
  - reflexivity.
  - reflexivity.
  - reflexivity.
Defined.

Lemma unmatched_lines_are_stored_on_every_run_witness :
  let run := run_etl_if_needed ascii_decimal ascii_integer_affinity
               "access.log" "logs.db" in
  let r := run false garbage_world in
  let w1 := touch "access.log" 70 (final r) in
  let r' := run false w1 in
  res r = Ret tt ∧ res r' = Ret tt ∧
  Info_running_etl ∈ trace r' ∧
  sqlite (final r') !! "logs.db" =
    Some (Db (Database (Some [])
                (Some ([] ++ error_rows ascii_decimal bad_line 60 ++
                             error_rows ascii_decimal bad_line 70)))).
Proof.
  intros run r w1 r'.
  apply (unmatched_lines_are_stored_on_every_run ascii_decimal
           ascii_integer_affinity "access.log" "logs.db" false false
           garbage_world w1 empty_database bad_line).
  - reflexivity.
  - reflexivity.
  - reflexivity.
  - vm_compute. reflexivity.
  - reflexivity.
  - vm_compute. reflexivity.
Defined.

Lemma run_with_unreadable_source_witness :
  let r := run_etl_if_needed ascii_decimal ascii_integer_affinity
             "access.log" "logs.db" false no_source_world in
  r = Result (Raise OSError) (after_checks no_source_world "logs.db")
        (checks_trace no_source_world "logs.db" ++
         [Info_running_etl; Error_extracting]) ∧
  (∀ d, sqlite no_source_world !! "logs.db" = Some (Db d) →
        final r = no_source_world).
Proof.
  intros r.
  apply (run_with_unreadable_source ascii_decimal ascii_integer_affinity
           "access.log" "logs.db" false no_source_world).
  - reflexivity.
  - vm_compute. reflexivity.
Defined.

Lemma run_completes_without_a_store_witness :
  let r := run_etl_if_needed ascii_decimal ascii_integer_affinity
             "access.log" "logs.db" false locked_world in
  res r = Ret tt ∧ final r = locked_world ∧
  Error_failed_to_connect ∈ trace r ∧
  last (trace r) = Some Info_etl_completed.
Proof.
  intros r.
  apply (run_completes_without_a_store ascii_decimal ascii_integer_affinity
           "access.log" "logs.db" false locked_world sample_log [] []).
  - reflexivity.
  - reflexivity.
Defined.

Lemma load_into_a_corrupt_store_witness :
  load ascii_integer_affinity [sample_entry] [bad_line] "logs.db"
    corrupt_world =
  Result (Raise DatabaseError) corrupt_world
    [Print_connected "logs.db"; Print_create_error].
Proof.
  assert (H1 : sqlite corrupt_world !! "logs.db" = Some NotADatabase)
    by reflexivity.
  assert (H2 : Forall complete [sample_entry]).
  { constructor; [exact sample_entry_complete|constructor]. }
  apply (load_into_a_corrupt_store ascii_integer_affinity
           "logs.db" corrupt_world [sample_entry] [bad_line] H1 H2).
  left. discriminate.
Defined.

Lemma first_load_stores_every_line_witness :
  let r := run_etl_if_needed ascii_decimal ascii_integer_affinity
             "access.log" "logs.db" false fresh_world in
  ∃ rows lines s,
    res r = Ret tt ∧
    sqlite (final r) !! "logs.db" =
      Some (Db (Database (Some rows) (Some lines))) ∧
    length rows + length lines = length (splitlines sample_log) ∧
    res (summarize_log key_ascending count_descending "logs.db" (final r)) =
      Ret (Some s) ∧
    summarizes rows s.
Proof.
  intros r.
  apply (first_load_stores_every_line ascii_decimal ascii_integer_affinity
           key_ascending count_descending "access.log" "logs.db" false
           fresh_world sample_log).
  - exact key_ascending_arranges.
  - exact count_descending_ranks.
  - reflexivity.
  - reflexivity.
Defined.
